(** * PyDynamic: IIR filter fitting and GUM uncertainty propagation

    A shallow embedding of

    - [PyDynamic/uncertainty/propagate_filter.py]
      ([IIRuncFilter], [_tf2ss], [_get_derivative_A], [_get_corr_unc],
      [get_initial_internal_state], [FIRuncFilter]);
    - [PyDynamic/model_estimation/fit_filter.py]
      ([_fitIIR], [LSIIR] with its local [check_stability], [LSFIR],
      [invLSFIR], [invLSFIR_uncMC], [invLSIIR], [invLSIIR_unc]).

    Numbers.  numpy's float64 arrays are modelled over the real numbers [R]
    and complex128 over pairs of reals: rounding, overflow and NaN are outside
    the model.  Python's [int] is [Z].

    Arrays.  A 1-D array is a [list R]; a 2-D array is the list of its rows.
    The operations below agree with numpy on operands of conforming shape.
    What numpy does on other shapes (broadcasting or [ValueError]) is written
    out where the shape is decided by the arguments' lengths alone (a
    negative dimension in [np.zeros] / [np.eye], the element-wise subtraction
    in [_tf2ss], response values and frequencies of different lengths in
    [LSIIR]).  The products and sums in the loop of [IIRuncFilter] are total:
    a theorem that says what a call returns or raises assumes the shapes of
    the state and of [Uab] for which they are numpy's.  The FIR routines go
    through [np_dot], [np_lstsq] and [broadcast1], which check the shapes as
    numpy does.

    Exceptions.  A Python call either returns or raises: [result A].
    [FIRuncFilter] has [outcome A], which keeps the [TypeError] that it
    raises on a float apart from the exceptions of the routines it calls. *)

From Stdlib Require Import String Reals Lra Lia ZArith Bool Arith List.
Import ListNotations.
Local Open Scope R_scope.

(** ** Exceptions *)

Inductive exn : Set :=
| ValueError
| IndexError
| LinAlgError
| UnboundLocalError
| TypeError.

Inductive result (A : Type) : Type :=
| Ok (v : A)
| Raise (e : exn).

Arguments Ok {A} v.
Arguments Raise {A} e.

Definition bind {A B : Type} (m : result A) (k : A -> result B) : result B :=
  match m with
  | Ok v => k v
  | Raise e => Raise e
  end.

Notation "x <- m ;; k" := (bind m (fun x => k))
  (at level 61, m at next level, right associativity).
Notation "' pat <- m ;; k" := (bind m (fun x => match x with pat => k end))
  (at level 61, pat pattern, m at next level, right associativity).

(** ** numpy arrays *)

Module Numpy.

Section Generic.
Context {T : Type} (zero : T) (add mul : T -> T -> T).

(** element-wise binary operation on operands of one shape *)
Fixpoint map2 {U V W : Type} (f : U -> V -> W) (u : list U) (v : list V) : list W :=
  match u, v with
  | x :: u', y :: v' => f x y :: map2 f u' v'
  | _, _ => []
  end.

(** [r @ B] for a 1-D [r]: the sum of the rows [r[k] * B[k]], a row of
    the width [w] of [B] *)
Fixpoint vecmat_w (w : nat) (r : list T) (B : list (list T)) : list T :=
  match r, B with
  | x :: r', row :: B' => map2 add (map (mul x) row) (vecmat_w w r' B')
  | _, _ => repeat zero w
  end.

Definition vecmat (r : list T) (B : list (list T)) : list T :=
  vecmat_w (length (hd [] B)) r B.

(** [A @ B] *)
Definition matmul (A B : list (list T)) : list (list T) :=
  map (fun r => vecmat r B) A.

(** [np.dot(u, v)] of two 1-D arrays *)
Fixpoint dot (u v : list T) : T :=
  match u, v with
  | x :: u', y :: v' => add (mul x y) (dot u' v')
  | _, _ => zero
  end.

(** [M.T] *)
Definition cons_col (r : list T) (Mt : list (list T)) : list (list T) :=
  match Mt with
  | [] => map (fun e => [e]) r
  | _ => map2 cons r Mt
  end.

Fixpoint transpose (M : list (list T)) : list (list T) :=
  match M with
  | [] => []
  | r :: M' => cons_col r (transpose M')
  end.

(** [np.hstack] of a sequence of 2-D arrays with the same number of rows *)
Fixpoint hstack (Ms : list (list (list T))) : list (list T) :=
  match Ms with
  | [] => []
  | [M] => M
  | M :: Ms' => map2 (@app T) M (hstack Ms')
  end.

(** [np.sum] over all entries *)
Definition sum1 (v : list T) : T := fold_right add zero v.
Definition sum2 (M : list (list T)) : T := sum1 (map sum1 M).
End Generic.

Definition matrix : Type := list (list R).

Definition mmul : matrix -> matrix -> matrix := matmul 0 Rplus Rmult.
Definition madd : matrix -> matrix -> matrix := map2 (map2 Rplus).
Definition msub : matrix -> matrix -> matrix := map2 (map2 Rminus).
Definition mneg : matrix -> matrix := map (map Ropp).
Definition mscale (c : R) : matrix -> matrix := map (map (Rmult c)).
Definition mT : matrix -> matrix := transpose.

Definition zeros1 (n : nat) : list R := repeat 0 n.
Definition zeros2 (n m : nat) : matrix := repeat (zeros1 m) n.

(** [np.zeros((n, m))] with Python integers: a negative dimension raises *)
Definition np_zeros2 (n m : Z) : result matrix :=
  if ((n <? 0) || (m <? 0))%Z then Raise ValueError
  else Ok (zeros2 (Z.to_nat n) (Z.to_nat m)).

Definition np_zeros1 (n : Z) : result (list R) :=
  if (n <? 0)%Z then Raise ValueError else Ok (zeros1 (Z.to_nat n)).

(** [np.eye(n, m, k)] for natural [n], [m], [k]: ones on the k-th
    superdiagonal *)
Definition eye_nat (n m k : nat) : matrix :=
  map (fun i => map (fun j => if Nat.eqb j (i + k) then 1 else 0) (seq 0 m)) (seq 0 n).

Definition np_eye (n m : Z) (k : nat) : result matrix :=
  if ((n <? 0) || (m <? 0))%Z then Raise ValueError
  else Ok (eye_nat (Z.to_nat n) (Z.to_nat m) k).

(** [np.outer(u, v)]: both arguments are flattened first *)
Definition outer (u v : matrix) : matrix :=
  map (fun x => map (Rmult x) (concat v)) (concat u).

(** element-wise [u - v] of two 1-D arrays under numpy's broadcasting rule *)
Definition np_sub1 (u v : list R) : result (list R) :=
  if Nat.eqb (length u) (length v) then Ok (map2 Rminus u v)
  else match u, v with
       | [x], _ => Ok (map (fun y => x - y) v)
       | _, [y] => Ok (map (fun x => x - y) u)
       | _, _ => Raise ValueError
       end.

(** the single entry of a (1,1) array *)
Definition item (M : matrix) : R := hd 0 (hd [] M).

(** all rows have the length [w] *)
Definition rect {T : Type} (w : nat) (M : list (list T)) : Prop :=
  Forall (fun row => length row = w) M.

(** [scipy.linalg.toeplitz(c)] for a real first column [c] *)
Definition toeplitz (c : list R) : matrix :=
  let n := length c in
  map (fun i => map (fun j => nth (if Nat.leb j i then i - j else j - i)%nat c 0) (seq 0 n))
      (seq 0 n).

End Numpy.

Import Numpy.

(** ** [PyDynamic/uncertainty/propagate_filter.py] *)

Module PropagateFilter.

(** The scipy routines the module calls.
    - [solve M R] is [scipy.linalg.solve(M, R)]; it raises [LinAlgError] on
      a singular [M].
    - [solve_discrete_lyapunov A Q] is the scipy routine of that name.
    - [dimpulse b a n] is
      [scipy.signal.dimpulse((b, a, 1), x0=0.0, t=np.arange(0, n, step=1))[1][0]],
      the first [n] samples of the impulse response; it raises when there
      are fewer than two time points. *)
Class SciPy : Type := {
  solve : matrix -> matrix -> result matrix;
  solve_discrete_lyapunov : matrix -> matrix -> result matrix;
  dimpulse : list R -> list R -> nat -> result (list R)
}.

(** The dictionary [internal_state]; [system] holds the tuple (A, B, C, D). *)
Record internal_state : Type := mk_state {
  st_z : matrix;
  st_dz : matrix;
  st_P : matrix;
  st_system : matrix * matrix * matrix * matrix;
  st_corr_unc : R
}.

(** [Ux]: a float, or a 1-D array *)
Inductive uncert : Type :=
| UFloat (u : R)
| UArray (us : list R).

(** [l[-1] = v] on a 2-D array: the last row is overwritten *)
Definition set_last_row (M : matrix) (v : list R) : result matrix :=
  match rev M with
  | [] => Raise IndexError
  | _ :: rM => Ok (rev rM ++ [v])
  end.

(** [M[i, j] = v] for indices in range *)
Fixpoint upd {A : Type} (l : list A) (i : nat) (f : A -> A) : list A :=
  match l, i with
  | [], _ => []
  | x :: l', O => f x :: l'
  | x :: l', S i' => x :: upd l' i' f
  end.

Definition set_entry (M : matrix) (i j : nat) (v : R) : matrix :=
  upd M i (fun row => upd row j (fun _ => v)).

(** [l[0]] *)
Definition first (l : list R) : result R :=
  match l with
  | [] => Raise IndexError
  | v :: _ => Ok v
  end.

Definition _tf2ss (b a : list R) : result (matrix * matrix * matrix * matrix) :=
  let p := (Z.of_nat (length a) - 1)%Z in
  E <- np_eye (p - 1) p 1 ;;
  let A := E ++ [map Ropp (rev (tl a))] in
  B0 <- np_zeros2 p 1 ;;
  B <- set_last_row B0 [1] ;;
  b0 <- first b ;;
  c <- np_sub1 (tl b) (map (Rmult b0) (tl a)) ;;
  let C := [rev c] in
  let D := [[1 * b0]] in
  Ok (A, B, C, D).

Definition _get_derivative_A (size_A : nat) : list matrix :=
  map (fun k => set_entry (zeros2 size_A size_A) (size_A - 1) (size_A - (k + 1)) (-1))
      (seq 0 size_A).

Section WithSciPy.
Context {scipy : SciPy}.

Definition _get_corr_unc (b a Ux : list R) : result R :=
  h_theta <- dimpulse b a (length Ux) ;;
  Ok (sum2 0 Rplus (madd (toeplitz Ux) (toeplitz h_theta))).

Definition get_initial_internal_state (b a : list R) (x0 U0 : R) (Ux : option (list R))
  : result internal_state :=
  '(A, B, C, D) <- _tf2ss b a ;;
  let p := length A in
  let IminusA := msub (eye_nat p p 0) A in
  let dA := _get_derivative_A p in
  s <- solve IminusA B ;;
  let zs := mscale x0 s in
  dzs <- solve IminusA (hstack (map (fun dAk => mmul dAk zs) dA)) ;;
  Ps <- solve_discrete_lyapunov A (mscale (U0 ^ 2) (outer B B)) ;;
  corr_unc <- match Ux with
              | Some u => _get_corr_unc b a u
              | None => Ok 0
              end ;;
  Ok (mk_state zs dzs Ps (A, B, C, D) corr_unc).

(** The loop variables of [IIRuncFilter] that change from sample to sample *)
Record loop_state : Type := mk_loop {
  cur_z : matrix;
  cur_dz : matrix;
  cur_P : matrix
}.

Section Loop.
Variables (kind : string) (a : list R) (p : Z).
Variables (A bs cT b0 : matrix) (corr_unc : R) (Uab : matrix) (Ux : list R).

(** lines 288-290 *)
Definition phi_of (z dz : matrix) (xn : R) : matrix :=
  mT (msub (mmul cT dz) (mT (mscale (item b0) (rev z))))
  ++ [map (fun v => v + xn) (vecmat 0 Rplus Rmult (map Ropp (rev (tl a))) z)]
  ++ rev z.

(** [Ux[n]] *)
Definition index (n : nat) : result R :=
  match nth_error Ux n with
  | Some u => Ok u
  | None => Raise IndexError
  end.

(** one pass through the body of the [for] loop, lines 288-307 *)
Definition iir_step (n : nat) (xn : R) (st : loop_state)
  : result (R * R * loop_state) :=
  let z := cur_z st in
  let dz := cur_dz st in
  let P := cur_P st in
  let phi := phi_of z dz xn in
  let yn := item (madd (mmul cT z) (mscale xn b0)) in
  Uyn <- (if String.eqb kind "diag" then
            u <- index n ;;
            Ok (item (madd (madd (mmul (mmul (mT phi) Uab) phi)
                                 (mmul (mmul cT P) (mT cT)))
                           (map (map Rsqr) (mscale u b0))))
          else
            Ok (item (map (map (fun v => v + corr_unc))
                          (mmul (mmul (mT phi) Uab) phi)))) ;;
  P' <- (if String.eqb kind "diag" then
           u <- index n ;;
           Ok (madd (mmul (mmul A P) (mT A)) (mscale (Rsqr u) (outer bs bs)))
         else
           u0 <- index 0 ;;
           Ok (madd (mmul (mmul A P) (mT A)) (mscale u0 (outer bs bs)))) ;;
  Z0 <- np_zeros2 (p - 1) p ;;
  let dA_z := Z0 ++ mneg (mT (rev z)) in
  let dz' := madd (mmul A dz) dA_z in
  let z' := madd (mmul A z) (mscale xn bs) in
  Ok (yn, Uyn, mk_loop z' dz' P').

(** [for n in range(len(y))], started at index [n] with the samples [xs]
    still to come *)
Fixpoint iir_loop (xs : list R) (n : nat) (st : loop_state)
  : result (list R * list R * loop_state) :=
  match xs with
  | [] => Ok ([], [], st)
  | xn :: xs' =>
      '(yn, Uyn, st1) <- iir_step n xn st ;;
      '(ys, Uys, st2) <- iir_loop xs' (S n) st1 ;;
      Ok (yn :: ys, Uyn :: Uys, st2)
  end.
End Loop.

(** [b] zero-padded to the length of [a], lines 247-248 *)
Definition pad_b (b a : list R) : result (list R) :=
  if Nat.eqb (length b) (length a) then Ok b
  else
    zs <- np_zeros1 (Z.of_nat (length a) - Z.of_nat (length b)) ;;
    Ok (b ++ zs).

(** Lines 253-272: the state the loop starts from.  [init_internal_state] is
    [None] for the empty dictionary, which is the only dictionary that
    [if init_internal_state:] takes for false. *)
Definition initial_state (b a Ux : list R) (init_internal_state : option internal_state)
  (kind : string) : result internal_state :=
  match init_internal_state with
  | Some st => Ok st
  | None =>
      if String.eqb kind "diag"
      then get_initial_internal_state b a 0 0 None
      else get_initial_internal_state b a 0 0 (Some Ux)
  end.

(** Lines 240-241: a float [Ux] becomes [Ux * np.ones_like(x)]. *)
Definition as_array (Ux : uncert) (x : list R) : list R :=
  match Ux with
  | UFloat u => map (fun one => u * one) (map (fun _ => 1) x)
  | UArray us => us
  end.

Definition IIRuncFilter (x : list R) (Ux : uncert) (b a : list R) (Uab : option matrix)
  (init_internal_state : option internal_state) (return_state : bool) (kind : string)
  : result (list R * list R * option internal_state) :=
  let p := (Z.of_nat (length a) - 1)%Z in
  let Ux := as_array Ux x in
  Uab <- match Uab with
         | Some M => Ok M
         | None => np_zeros2 (2 * p + 1) (2 * p + 1)
         end ;;
  b <- pad_b b a ;;
  state <- initial_state b a Ux init_internal_state kind ;;
  let '(A, bs, cT, b0) := st_system state in
  let corr_unc := st_corr_unc state in
  _ <- np_zeros2 (2 * p + 1) 1 ;;
  '(y, Uy, fin) <- iir_loop kind a p A bs cT b0 corr_unc Uab Ux x 0
                     (mk_loop (st_z state) (st_dz state) (st_P state)) ;;
  let Uy := map (fun v => sqrt (Rabs v)) Uy in
  if return_state
  then Ok (y, Uy, Some (mk_state (cur_z fin) (cur_dz fin) (cur_P fin) (A, bs, cT, b0) corr_unc))
  else Ok (y, Uy, None).

End WithSciPy.

(** The argument check of [FIRuncFilter], lines 70-83: [sigma_noise] is a
    float, a 1-D array, or something else ([None]). *)
Definition FIRuncFilter_sigma2 (sigma_noise : option uncert) (kind : string)
  : result uncert :=
  match sigma_noise with
  | Some (UFloat s) => Ok (UFloat (s ^ 2))
  | Some (UArray s) =>
      if String.eqb kind "diag" then Ok (UArray (map (fun v => v ^ 2) s))
      else if String.eqb kind "corr" then Ok (UArray s)
      else Raise ValueError
  | None => Raise ValueError
  end.

End PropagateFilter.

(** ** complex128 *)

Module Complex.

Definition C : Type := (R * R)%type.

Definition RtoC (x : R) : C := (x, 0).
Definition Ci : C := (0, 1).
Definition Cre (z : C) : R := fst z.
Definition Cim (z : C) : R := snd z.
Definition Cadd (u v : C) : C := (fst u + fst v, snd u + snd v).
Definition Cneg (u : C) : C := (- fst u, - snd u).
Definition Cmul (u v : C) : C :=
  (fst u * fst v - snd u * snd v, fst u * snd v + snd u * fst v).
Definition Cconj (u : C) : C := (fst u, - snd u).
Definition Cinv (u : C) : C :=
  (fst u / (fst u * fst u + snd u * snd u), - snd u / (fst u * fst u + snd u * snd u)).
(** [np.exp] *)
Definition Cexp (u : C) : C := (exp (fst u) * cos (snd u), exp (fst u) * sin (snd u)).
(** [np.abs] *)
Definition Cmod (u : C) : R := sqrt (fst u * fst u + snd u * snd u).

Definition cmatrix : Type := list (list C).
Definition cmmul : cmatrix -> cmatrix -> cmatrix := matmul (RtoC 0) Cadd Cmul.
Definition cdot : list C -> list C -> C := dot (RtoC 0) Cadd Cmul.

(** [np.diag(v)] of a 1-D array *)
Definition cdiag (v : list C) : cmatrix :=
  map (fun i => map (fun j => if Nat.eqb i j then nth i v (RtoC 0) else RtoC 0)
                    (seq 0 (length v)))
      (seq 0 (length v)).

End Complex.

Import Complex.

(** ** [PyDynamic/model_estimation/fit_filter.py] *)

Module FitFilter.

(** The numerical routines [LSIIR] calls.
    - [lstsq M v] is [np.linalg.lstsq(M, v, rcond=None)[0]];
    - [roots] is [np.roots]; [median] is [np.median];
    - [mapinside] and [grpdelay b a Fs] (the first component of the result,
      for arrays [b] and [a]) are the helpers of
      [PyDynamic.misc.filterstuff]. *)

(** What [mapinside] returns is what [np.poly] returns: the float [1.0] for
    a polynomial without roots, a 1-D array otherwise. *)
Inductive poly : Type :=
| PFloat (c : R)
| PArray (v : list R).

Class NumLib : Type := {
  lstsq : matrix -> list R -> list R;
  roots : list R -> list C;
  median : list R -> R;
  mapinside : list R -> poly;
  grpdelay : list R -> list R -> R -> result (list R)
}.

(** [np.ceil], read back as a Python integer *)
Definition np_ceil (r : R) : Z := (- Int_part (- r))%Z.

(** A Python argument that is [None], a (nested) list, or an ndarray; the
    rows are kept for the last two. *)
Inductive pyobj : Type :=
| PyNone
| PyList (rows : matrix)
| PyNdarray (rows : matrix).

(** [bool(o)], as taken by [if o:] *)
Definition truthy (o : pyobj) : result bool :=
  match o with
  | PyNone => Ok false
  | PyList rows => Ok (negb (Nat.eqb (length rows) 0))
  | PyNdarray rows =>
      match concat rows with
      | [] => Ok false
      | [v] => Ok (if Req_dec_T v 0 then false else true)
      | _ => Raise ValueError
      end
  end.

Definition rows_of (o : pyobj) : matrix :=
  match o with
  | PyNone => []
  | PyList rows => rows
  | PyNdarray rows => rows
  end.

(** Lines 189-191.  The draws [HRI], [HHvals] are not used afterwards; what
    remains of [np.random.multivariate_normal(mean, cov, size)] is that it
    raises [ValueError] unless [cov] is square of the length of [mean] and
    [size] is not negative. *)
Definition multivariate_normal (mean : list R) (cov : matrix) (size : Z) : result unit :=
  if Nat.eqb (length cov) (length mean)
     && forallb (fun row => Nat.eqb (length row) (length mean)) cov
  then if (size <? 0)%Z then Raise ValueError else Ok tt
  else Raise ValueError.

Section WithNumLib.
Context {numlib : NumLib}.

Definition _fitIIR (Hvals : list C) (tau : Z) (w : list R) (E : cmatrix)
  (Na Nb : nat) (inv : bool) : list R * list R :=
  let Ea := map (fun row => firstn Na (skipn 1 row)) E in
  let Eb := map (firstn (Nb + 1)) E in
  let Htau :=
    map2 Cmul
      (map (fun wi => Cexp (Cmul (Cmul (Cneg Ci) (RtoC wi)) (RtoC (IZR tau)))) w)
      (map (fun h => if inv then Cinv h else h) Hvals) in
  let HEa := cmmul (cdiag Htau) Ea in
  let D := map2 (@app C) HEa (map (map Cneg) Eb) in
  let DH := map (map Cconj) (transpose D) in
  let Tmp1 := map (map Cre) (cmmul DH D) in
  let Tmp2 := map (fun row => Cre (cdot row (map Cneg Htau))) DH in
  let ab := lstsq Tmp1 Tmp2 in
  let a := 1 :: firstn Na ab in
  let b := skipn Na ab in
  (b, a).

(** the local function of [LSIIR], line 183 *)
Definition check_stability (denominator_coeff : list R) : bool :=
  Nat.ltb 0
    (length (filter (fun r => if Rlt_dec 1 (Cmod r) then true else false)
                    (roots denominator_coeff))).

(** "Stable" as the specification has it: every root of the denominator lies
    strictly inside the unit circle. *)
Definition stable (a : list R) : Prop := forall r, In r (roots a) -> Cmod r < 1.

(** The local variables of [LSIIR] that the [while] loop reads and writes *)
Record locals : Type := mk_locals {
  l_b : list R;
  l_a : list R;
  l_tau : Z;
  l_unstable : bool;
  l_current_stab_iter : Z
}.

Section Fit.
Variables (Hvals : list C) (Nb Na : nat) (f : list R) (Fs : R).
Variables (max_stab_iter : Z) (inv : bool).

Definition w_of : list R := map (fun fi => 2 * PI * fi / Fs) f.

Definition E_of : cmatrix :=
  let Ns := map INR (seq 0 (Nat.max Nb Na + 1)) in
  map (map (fun v => Cexp (Cmul (Cneg Ci) (RtoC v))))
      (mmul (map (fun wi => [wi]) w_of) [Ns]).

Definition fit (tau : Z) : list R * list R :=
  _fitIIR Hvals tau w_of E_of Na Nb inv.

(** [grpdelay(b, astab, Fs)[0]] for the [astab] that [mapinside] returned:
    on a float, [len(a)] raises [TypeError] *)
Definition grpdelay_of (b : list R) (astab : poly) : result (list R) :=
  match astab with
  | PArray v => grpdelay b v Fs
  | PFloat _ => Raise TypeError
  end.

(** the body of the [while] loop, lines 238-248 *)
Definition stab_body (l : locals) : result locals :=
  let astab := mapinside (l_a l) in
  g1 <- grpdelay (l_b l) (l_a l) Fs ;;
  g2 <- grpdelay_of (l_b l) astab ;;
  let tau := np_ceil (IZR (l_tau l) + median (map2 Rminus g2 g1)) in
  let '(b, a) := fit tau in
  let unstable := if check_stability a then false else l_unstable l in
  Ok (mk_locals b a tau unstable (l_current_stab_iter l + 1)).

(** [while unstable and current_stab_iter < max_stab_iter]; [fuel] bounds
    the number of passes *)
Fixpoint stab_while (fuel : nat) (l : locals) : result locals :=
  if l_unstable l && (l_current_stab_iter l <? max_stab_iter)%Z then
    match fuel with
    | O => Ok l
    | S fuel' => l' <- stab_body l ;; stab_while fuel' l'
    end
  else Ok l.
End Fit.

(** [LSIIR]; printing is left out, the reads of local variables that the
    [verbose] branches make are kept.  With [len(Hvals) != len(f)] the sum
    of the two slices of [HRI] in line 191 raises [ValueError], or, where
    that sum can be broadcast ([len(f)] is 1 or [2 len(Hvals) - 1]), the
    product [np.exp(-1j * w * tau) * Hvals ** exponent] or
    [np.dot(np.diag(Htau), Ea)] in [_fitIIR] does. *)
Definition LSIIR (Hvals : list C) (Nb Na : nat) (f : list R) (Fs : R) (tau : Z)
  (justFit verbose : bool) (max_stab_iter : Z) (inv : bool) (UHvals : pyobj)
  (mc_runs : Z) : result (list R * list R * Z) :=
  given <- truthy UHvals ;;
  if given then
    _ <- multivariate_normal (map Cre Hvals ++ map Cim Hvals) (rows_of UHvals) mc_runs ;;
    if negb (Nat.eqb (length Hvals) (length f)) then Raise ValueError
    else
      let '(b, a) := fit Hvals Nb Na f Fs inv tau in
      let unstable := negb (check_stability a) in
      if justFit then Ok (b, a, 0%Z)
      else
        l <- stab_while Hvals Nb Na f Fs max_stab_iter inv
               (Z.to_nat (max_stab_iter - 1))
               (mk_locals b a tau unstable 1) ;;
        Ok (l_b l, l_a l, l_tau l)
  else
    (* [unstable] (when [verbose]) or [b] is read before any assignment *)
    if verbose then Raise UnboundLocalError else Raise UnboundLocalError.

(** the covariance passes [if UHvals:] and the Monte Carlo draws *)
Definition covariance_accepted (Hvals : list C) (UHvals : pyobj) (mc_runs : Z) : Prop :=
  truthy UHvals = Ok true
  /\ multivariate_normal (map Cre Hvals ++ map Cim Hvals) (rows_of UHvals) mc_runs
     = Ok tt.

End WithNumLib.

End FitFilter.

(** ** The specification's formulation of the propagation step

    Section 4.4 of the specification states the recursion on vectors: the
    state [z] is a vector of length p, [B] and [C] are vectors, [b0] is a
    scalar, and the products are the usual ones of linear algebra.  These
    definitions follow that wording; they are compared with the embedding of
    the source further down. *)

Module Spec.

Definition col (v : list R) : matrix := map (fun e => [e]) v.

Definition dotR : list R -> list R -> R := dot 0 Rplus Rmult.

(** [M v] *)
Definition matvec (M : matrix) (v : list R) : list R := map (fun r => dotR r v) M.

(** the quadratic form [v^T M v] *)
Definition quad (v : list R) (M : matrix) : R := dotR v (matvec M v).

(** [A P A^T], entry (i, j) is [A_i . (P A_j)] for the rows [A_i], [A_j] *)
Definition sandwich (A P : matrix) : matrix :=
  map (fun ri => map (fun rj => dotR ri (matvec P rj)) A) A.

(** [u v^T] *)
Definition outerv (u v : list R) : matrix := map (fun x => map (Rmult x) v) u.

(** the p x p matrix whose last row is [v] and whose other rows are zero *)
Definition last_row_only (p : nat) (v : list R) : matrix :=
  map (fun i => if Nat.eqb i (p - 1) then v else zeros1 p) (seq 0 p).

Record state : Type := mk {
  z : list R;
  dz : matrix;
  P : matrix
}.

Section Diag.
Variables (A : matrix) (B C : list R) (b0 : R) (a : list R) (Uab : matrix).

(** step 1: the sensitivity vector *)
Definition phi (s : state) (xn : R) : list R :=
  map2 Rminus (vecmat 0 Rplus Rmult C (dz s)) (map (Rmult b0) (rev (z s)))
  ++ [dotR (map Ropp (rev (tl a))) (z s) + xn]
  ++ rev (z s).

(** step 2 *)
Definition y (s : state) (xn : R) : R := dotR C (z s) + b0 * xn.

(** step 3, before the square root *)
Definition Uy2 (s : state) (xn un : R) : R :=
  quad (phi s xn) Uab + quad C (P s) + (b0 * un) ^ 2.

(** steps 4, 5, 6 *)
Definition next (s : state) (xn un : R) : state :=
  mk (map2 Rplus (matvec A (z s)) (map (Rmult xn) B))
     (madd (mmul A (dz s)) (last_row_only (length (z s)) (map Ropp (rev (z s)))))
     (madd (sandwich A (P s)) (mscale (un ^ 2) (outerv B B))).

(** the recursion over the samples [(x[n], Ux[n])] *)
Fixpoint run (samples : list (R * R)) (s : state) : list R * list R * state :=
  match samples with
  | [] => ([], [], s)
  | (xn, un) :: rest =>
      let '(ys, us, fin) := run rest (next s xn un) in
      (y s xn :: ys, Uy2 s xn un :: us, fin)
  end.
End Diag.

(** a matrix with [n] rows of length [m] *)
Definition shaped (n m : nat) (M : matrix) : Prop :=
  length M = n /\ Forall (fun r => length r = m) M.

(** all entries zero *)
Definition all_zero (M : matrix) : Prop := Forall (Forall (fun v => v = 0)) M.

(** the shapes of the internal state of a filter of order [p]: [z] is
    p x 1, [dz] and [P] are p x p, and the realization (A, B, C, D) is
    p x p, p x 1, 1 x p, 1 x 1 *)
Definition state_shaped (p : nat) (st : PropagateFilter.internal_state) : Prop :=
  let '(A, B, C, D) := PropagateFilter.st_system st in
  shaped p 1 (PropagateFilter.st_z st)
  /\ shaped p p (PropagateFilter.st_dz st)
  /\ shaped p p (PropagateFilter.st_P st)
  /\ shaped p p A /\ shaped p 1 B /\ shaped 1 p C /\ shaped 1 1 D.

(** the coefficient [a[i]] moved by [t] *)
Definition perturb (a : list R) (i : nat) (t : R) : list R :=
  PropagateFilter.upd a i (fun v => v + t).

(** the matrix [A] of the realization of [(b, a)] *)
Definition A_of (b a : list R) : matrix :=
  match PropagateFilter._tf2ss b a with
  | Ok (A, _, _, _) => A
  | Raise _ => []
  end.

End Spec.

(** ** Chunked propagation, as a caller does it *)

Module Chunked.
Import PropagateFilter.

(** how the caller hands [Ux] to the two calls: a float is passed as it is,
    point-wise uncertainties ("diag") are split with the signal, an
    autocovariance is passed whole *)
Definition split_Ux (kind : string) (Ux : uncert) (k : nat) : uncert * uncert :=
  match Ux with
  | UFloat u => (UFloat u, UFloat u)
  | UArray us =>
      if String.eqb kind "diag" then (UArray (firstn k us), UArray (skipn k us))
      else (UArray us, UArray us)
  end.

Definition outputs (r : result (list R * list R * option internal_state))
  : result (list R * list R) :=
  '(y, Uy, _) <- r ;; Ok (y, Uy).

(** [IIRuncFilter] on [x[:k]] with [return_state=True], then on [x[k:]] with
    the returned state *)
Definition two_calls {scipy : SciPy} (x : list R) (Ux : uncert) (b a : list R)
  (Uab : option matrix) (kind : string) (k : nat) : result (list R * list R) :=
  let '(Ux1, Ux2) := split_Ux kind Ux k in
  '(y1, Uy1, st) <- IIRuncFilter (firstn k x) Ux1 b a Uab None true kind ;;
  '(y2, Uy2, _) <- IIRuncFilter (skipn k x) Ux2 b a Uab st false kind ;;
  Ok (y1 ++ y2, Uy1 ++ Uy2).

Definition one_call {scipy : SciPy} (x : list R) (Ux : uncert) (b a : list R)
  (Uab : option matrix) (kind : string) : result (list R * list R) :=
  outputs (IIRuncFilter x Ux b a Uab None false kind).

End Chunked.

(** ** Exact routines for first-order filters

    The scipy and numpy routines are parameters of the embedding.  For worked
    examples they are instantiated by their exact (real-number) results on
    the systems that a first-order filter gives rise to; they are not meant
    for anything larger. *)

Module FirstOrder.
Import PropagateFilter FitFilter.

(** [solve([[m]], [row])] *)
Definition solve1 (M Rhs : matrix) : result matrix :=
  match M, Rhs with
  | [[m]], [row] =>
      if Req_dec_T m 0 then Raise LinAlgError
      else Ok [map (fun r => r / m) row]
  | _, _ => Raise ValueError
  end.

(** [solve_discrete_lyapunov([[a]], [[q]])]: [x = a x a + q] *)
Definition lyapunov1 (A Q : matrix) : result matrix :=
  match A, Q with
  | [[a]], [[q]] =>
      if Req_dec_T (1 - a * a) 0 then Raise LinAlgError
      else Ok [[q / (1 - a * a)]]
  | _, _ => Raise ValueError
  end.

(** the impulse response by the difference equation
    [a[0] h[n] = b[n] - a[1] h[n-1] - a[2] h[n-2] - ...];
    [hist] is [h[n-1], h[n-2], ...], [bs] is [b[n:]] *)
Fixpoint impulse (a hist bs : list R) (n : nat) : list R :=
  match n with
  | O => []
  | S n' =>
      let h := (hd 0 bs - dot 0 Rplus Rmult (tl a) hist) / hd 1 a in
      h :: impulse a (h :: hist) (tl bs) n'
  end.

(** [dimpulse] raises [IndexError] without a time point and [ValueError]
    with a single one *)
Definition dimpulse1 (b a : list R) (n : nat) : result (list R) :=
  match n with
  | O => Raise IndexError
  | S O => Raise ValueError
  | _ => Ok (impulse a [] b n)
  end.

#[export] Instance scipy1 : SciPy := {
  solve := solve1;
  solve_discrete_lyapunov := lyapunov1;
  dimpulse := dimpulse1
}.

(** [np.roots] of a polynomial of degree at most one *)
Definition roots1 (c : list R) : list C :=
  match c with
  | [c0; c1] => [(- c1 / c0, 0)]
  | _ => []
  end.

(** the least-squares solution of a non-singular system in one or two
    unknowns is its solution *)
Definition lstsq2 (M : matrix) (t : list R) : list R :=
  match M, t with
  | [[m]], [t1] => [t1 / m]
  | [[m11; m12]; [m21; m22]], [t1; t2] =>
      let det := m11 * m22 - m12 * m21 in
      [(t1 * m22 - m12 * t2) / det; (m11 * t2 - t1 * m21) / det]
  | _, _ => []
  end.

(** [np.median] of a non-empty 1-D array: the middle value of the sorted
    array, or the mean of the two middle values *)
Fixpoint insert_sorted (x : R) (l : list R) : list R :=
  match l with
  | [] => [x]
  | y :: l' => if Rle_dec x y then x :: l else y :: insert_sorted x l'
  end.

Definition median1 (v : list R) : R :=
  let s := fold_right insert_sorted [] v in
  let n := length v in
  if Nat.even n then (nth (n / 2 - 1) s 0 + nth (n / 2) s 0) / 2 else nth (n / 2) s 0.

(** [mapinside] of a polynomial of degree at most one: a root outside the
    unit circle is replaced by its reciprocal; without a root, [np.poly]
    gives the float 1.0 *)
Definition mapinside1 (a : list R) : poly :=
  match a with
  | [a0; a1] =>
      PArray (if Rlt_dec 1 (Rabs (a1 / a0)) then [1; a0 / a1] else [1; a1 / a0])
  | _ => PFloat 1
  end.

(** The examples that reach the loop of [LSIIR] do so with a filter whose
    root is inside the unit circle: [mapinside] gives the filter back, and
    the loop uses the difference of two group delays of one filter, which is
    zero whatever the delays are.  [grpdelay1] is not the group delay
    itself. *)
Definition grpdelay1 (b a : list R) (Fs : R) : result (list R) := Ok [0].

#[export] Instance numlib1 : NumLib := {
  lstsq := lstsq2;
  roots := roots1;
  median := median1;
  mapinside := mapinside1;
  grpdelay := grpdelay1
}.

(** covariances for two response values and for one, given as nested
    lists, which [if UHvals:] accepts *)
Definition UH2 : pyobj :=
  PyList [[1; 0; 0; 0]; [0; 1; 0; 0]; [0; 0; 1; 0]; [0; 0; 0; 1]].

Definition UH1 : pyobj := PyList [[1; 0]; [0; 1]].

End FirstOrder.

(** ** The FIR fits and the callers of [LSIIR] in [fit_filter.py] *)

Module FitFIR.
Import Complex FitFilter.

(** [f(u, v)] element-wise on two 1-D arrays under numpy's broadcasting rule *)
Definition broadcast1 {U V W : Type} (f : U -> V -> W) (u : list U) (v : list V)
  : result (list W) :=
  if Nat.eqb (length u) (length v) then Ok (map2 f u v)
  else match u, v with
       | [x], _ => Ok (map (f x) v)
       | _, [y] => Ok (map (fun x => f x y) u)
       | _, _ => Raise ValueError
       end.

(** a [for] loop that collects one value per pass and stops at the first
    exception *)
Fixpoint mapM {A B : Type} (f : A -> result B) (l : list A) : result (list B) :=
  match l with
  | [] => Ok []
  | x :: l' => y <- f x ;; ys <- mapM f l' ;; Ok (y :: ys)
  end.

(** [Wt]: a vector of shape (M,) or a matrix of shape (M, M) *)
Inductive weights : Type :=
| W1 (w : list R)
| W2 (W : matrix).

(** [np.diag(W)] of a 2-D array: its diagonal *)
Definition np_diag2 (W : matrix) : list R :=
  map (fun i => nth i (nth i W []) 0) (seq 0 (Nat.min (length W) (length (hd [] W)))).

(** [np.diag(v)] of a 1-D array *)
Definition np_diag1 (v : list R) : matrix :=
  map (fun i => map (fun j => if Nat.eqb i j then nth i v 0 else 0) (seq 0 (length v)))
      (seq 0 (length v)).

(** [np.eye(n) * Wt] for a 1-D [Wt] *)
Definition eye_times (n : nat) (Wt : list R) : result matrix :=
  if Nat.eqb n 0 && negb (Nat.leb (length Wt) 1) then Raise ValueError
  else mapM (fun row => broadcast1 Rmult row Wt) (eye_nat n n 0).

(** [np.dot(W, E)] of a real 2-D [W] and a complex 2-D [E] *)
Definition dot_real_complex (W : matrix) (E : cmatrix) : result cmatrix :=
  if Nat.eqb (length (hd [] W)) (length E)
  then Ok (cmmul (map (map RtoC) W) E)
  else Raise ValueError.

(** [np.vstack([np.real(M), np.imag(M)])] *)
Definition real_over_imag (M : cmatrix) : matrix := map (map Cre) M ++ map (map Cim) M.

(** the complex division of an array by a real number *)
Definition Cdivr (u : C) (r : R) : C := (fst u / r, snd u / r).

Section WithNumLib.
Context {numlib : NumLib}.

(** [np.linalg.lstsq(X, rhs)[0]] for a 2-D [X]; the cut-off [rcond] for
    small singular values is a matter of rounding *)
Definition np_lstsq (X : matrix) (rhs : list R) : result (list R) :=
  if Nat.eqb (length X) (length rhs) then Ok (lstsq X rhs) else Raise LinAlgError.

(** Lines 288-309 of [LSFIR], and the same lines 357-376 of [invLSFIR]: the
    design matrix [X] and the right-hand side [iRI]. *)
Definition design (N : nat) (f : list R) (Fs : R) : cmatrix :=
  let w := map (fun fi => [2 * PI * fi / Fs]) f in
  let ords := [map INR (seq 0 (N + 1))] in
  map (map (fun v => Cexp (Cmul (Cneg Ci) (RtoC v)))) (mmul w ords).

Definition weighted (Wt : option weights) (f : list R) (E : cmatrix) : result matrix :=
  match Wt with
  | Some (W2 W) =>
      let weights := np_diag2 W in
      if Nat.eqb (length weights) (length E) then
        let wE := vecmat (RtoC 0) Cadd Cmul (map RtoC weights) E in
        Ok [map Cre wE; map Cim wE]
      else Raise ValueError
  | Some (W1 w) =>
      weights <- eye_times (length f) w ;;
      wE <- dot_real_complex weights E ;;
      Ok (real_over_imag wE)
  | None => Ok (real_over_imag E)
  end.

Definition reciprocal_rhs (H : list C) (tau : R) (f : list R) (Fs : R)
  : result (list R) :=
  let w := map (fun fi => 2 * PI * fi / Fs) f in
  Hs <- broadcast1 Cmul H
          (map (fun wi => Cexp (Cmul (Cmul Ci (RtoC wi)) (RtoC tau))) w) ;;
  Ok (map (fun h => Cre (Cinv h)) Hs ++ map (fun h => Cim (Cinv h)) Hs).

(** [LSFIR]; the printing is left out.  [np.reshape(bFIR, (N + 1,))] raises
    unless [bFIR] has [N + 1] entries. *)
Definition LSFIR (H : list C) (N : nat) (tau : R) (f : list R) (Fs : R)
  (Wt : option weights) : result (list R) :=
  let E := design N f Fs in
  X <- weighted Wt f E ;;
  iRI <- reciprocal_rhs H tau f Fs ;;
  bFIR <- np_lstsq X iRI ;;
  if Nat.eqb (length bFIR) (N + 1) then Ok bFIR else Raise ValueError.

(** [invLSFIR]; the summary of lines 380-389 is printed and goes into no
    result. *)
Definition invLSFIR (H : list C) (N : nat) (tau : R) (f : list R) (Fs : R)
  (Wt : option weights) : result (list R) :=
  let E := design N f Fs in
  X <- weighted Wt f E ;;
  iRI <- reciprocal_rhs H tau f Fs ;;
  bFIR <- np_lstsq X iRI ;;
  Ok bFIR.

(** [invLSIIR]: the warning is a [PendingDeprecationWarning], which Python
    does not show by default; [max_stab_iter], [UHvals] and [mc_runs] take
    the defaults of [LSIIR]. *)
Definition invLSIIR (Hvals : list C) (Nb Na : nat) (f : list R) (Fs : R) (tau : Z)
  (justFit verbose : bool) : result (list R * list R * Z) :=
  LSIIR Hvals Nb Na f Fs tau justFit verbose 50 true PyNone 1000.

(** [np.mean] of a 1-D array *)
Definition mean (v : list R) : R := sum1 0 Rplus v / INR (length v).

(** [np.cov] of variables given one per row, each with its observations *)
Definition cov (vars : matrix) : matrix :=
  let centred := map (fun v => map (fun e => e - mean v) v) vars in
  map (fun u => map (fun v => dot 0 Rplus Rmult u v / (INR (length v) - 1)) centred)
      centred.

(** [HRI[k, :Nf] + 1j * HRI[k, Nf:]] *)
Definition complex_of_draw (Nf : nat) (row : list R) : result (list C) :=
  broadcast1 (fun re im => Cadd (RtoC re) (Cmul Ci (RtoC im)))
    (firstn Nf row) (skipn Nf row).

(** [HRI[k]] *)
Definition draw (HRI : matrix) (k : nat) : result (list R) :=
  match nth_error HRI k with
  | Some row => Ok row
  | None => Raise IndexError
  end.

(** [invLSIIR_unc].  [HRI] stands for the draws that
    [np.random.multivariate_normal] returns, one row per run; the printing
    is left out. *)
Definition invLSIIR_unc (HRI : matrix) (H : list C) (UH : matrix) (Nb Na : nat)
  (f : list R) (Fs : R) (tau : Z) : result (list R * list R * R * matrix) :=
  let runs := Z.to_nat 1000 in
  _ <- multivariate_normal (map Cre H ++ map Cim H) UH (Z.of_nat runs) ;;
  HH <- mapM (complex_of_draw (length f)) HRI ;;
  rows <- mapM (fun k =>
            Hk <- match nth_error HH k with
                  | Some r => Ok r
                  | None => Raise IndexError
                  end ;;
            '(bi, ai, tauk) <- invLSIIR Hk Nb Na f Fs tau false false ;;
            let row := tl ai ++ bi in
            if Nat.eqb (length row) (Nb + Na + 1) then Ok (row, IZR tauk)
            else Raise ValueError)
          (seq 0 runs) ;;
  let AB := map fst rows in
  let Tau := map snd rows in
  let bi := map mean (transpose (map (skipn Na) AB)) in
  let ai := 1 :: map mean (transpose (map (firstn Na) AB)) in
  let Uab := cov (transpose AB) in
  Ok (bi, ai, mean Tau, Uab).

(** A Python value that is an [int] or a tuple of [int]s, and [==] on them:
    an [int] and a tuple are never equal. *)
Inductive pyval : Type :=
| PyInt (n : Z)
| PyTuple (items : list Z).

Fixpoint tuple_eqb (u v : list Z) : bool :=
  match u, v with
  | [], [] => true
  | x :: u', y :: v' => Z.eqb x y && tuple_eqb u' v'
  | _, _ => false
  end.

Definition py_eqb (u v : pyval) : bool :=
  match u, v with
  | PyInt m, PyInt n => Z.eqb m n
  | PyTuple s, PyTuple t => tuple_eqb s t
  | _, _ => false
  end.

(** [wt.shape] of a 1-D array *)
Definition shape1 (w : list R) : pyval := PyTuple [Z.of_nat (length w)].

(** the design matrix of lines 572-575 *)
Definition designMC (N : nat) (f : list R) (Fs : R) (wt : list R) : result matrix :=
  let E := map (map (fun v => Cexp (Cmul (Cmul (Cmul (Cneg Ci) (RtoC 2)) (RtoC PI))
                                         (RtoC v))))
               (mmul (map (fun fi => [fi / Fs]) f) [map INR (seq 0 (N + 1))]) in
  let X := real_over_imag E in
  if Nat.eqb (length wt) (length X) then Ok (mmul (np_diag1 wt) X)
  else Raise ValueError.

(** one pass of the loop of lines 578-583: the fit to the draw [k] *)
Definition fitMC (HRI X : matrix) (N : nat) (tau : R) (f : list R) (Fs : R) (k : nat)
  : result (list R) :=
  row <- draw HRI k ;;
  Hk <- complex_of_draw (length f) row ;;
  Hkt <- broadcast1 Cmul Hk
           (map (fun fi => Cexp (Cmul (Cdivr (Cmul (Cmul (Cmul Ci (RtoC 2)) (RtoC PI))
                                                   (RtoC fi)) Fs)
                                      (RtoC tau))) f) ;;
  let iRI := map (fun h => Cre (Cinv h)) Hkt ++ map (fun h => Cim (Cinv h)) Hkt in
  b <- np_lstsq X iRI ;;
  if Nat.eqb (length b) (N + 1) then Ok b else Raise ValueError.

(** [invLSFIR_uncMC].  [HRI] stands for the draws of
    [np.random.multivariate_normal]; [wt] is [Some] for an ndarray and
    [None] for anything else. *)
Definition invLSFIR_uncMC (HRI : matrix) (H : list C) (UH : matrix) (N : nat) (tau : R)
  (f : list R) (Fs : R) (wt : option (list R)) : result (list R * matrix) :=
  let runs := Z.to_nat 10000 in
  _ <- multivariate_normal (map Cre H ++ map Cim H) UH (Z.of_nat runs) ;;
  let Nf := length f in
  wt <- match wt with
        | Some w =>
            if negb (py_eqb (shape1 w) (PyInt (2 * Z.of_nat Nf))) then Raise ValueError
            else Ok w
        | None => Ok (repeat 1 (2 * Nf))
        end ;;
  X <- designMC N f Fs wt ;;
  fits <- mapM (fitMC HRI X N tau f Fs) (seq 0 runs) ;;
  let bF := transpose fits in
  Ok (map mean bF, cov bF).

End WithNumLib.

End FitFIR.

(** ** [FIRuncFilter] *)

Module FIRFilter.
Import PropagateFilter FitFIR.

(** [FIRuncFilter] stops with an exception [Exn e] of a routine it calls,
    or with the [TypeError] of [len(sigma2)] on a float. *)
Inductive py_exception : Set :=
| Exn (e : exn)
| TypeError.

Inductive outcome (A : Type) : Type :=
| Returns (v : A)
| Raises (e : py_exception).

Arguments Returns {A} v.
Arguments Raises {A} e.

Definition lift {A : Type} (r : result A) : outcome A :=
  match r with
  | Ok v => Returns v
  | Raise e => Raises (Exn e)
  end.

(** The routines [FIRuncFilter] calls.
    - [lfilter b x] is [scipy.signal.lfilter(b, 1.0, x)];
    - [correlate a v mode] is [np.correlate(a, v, mode)];
    - [pad_reflect v n] is [np.pad(v, (n, 0), mode="reflect")];
    - [trimOrPad v n] is the helper of [PyDynamic.misc.tools], which
      brings [v] to the length [n]. *)
Class FIRLib : Type := {
  lfilter : list R -> list R -> result (list R);
  correlate : list R -> list R -> string -> result (list R);
  pad_reflect : list R -> Z -> result (list R);
  trimOrPad : list R -> nat -> list R
}.

(** [np.dot(A, B)] of two 2-D arrays *)
Definition np_dot (A B : matrix) : result matrix :=
  if Nat.eqb (length (hd [] A)) (length B) then Ok (mmul A B) else Raise ValueError.

(** [scipy.linalg.toeplitz(c, r)]: first column [c], first row [r] *)
Definition toeplitz2 (c r : list R) : matrix :=
  map (fun i => map (fun j => if Nat.leb j i then nth (i - j) c 0 else nth (j - i) r 0)
                    (seq 0 (length r)))
      (seq 0 (length c)).

(** [np.trace] *)
Definition trace (M : matrix) : R :=
  sum1 0 Rplus (map (fun i => nth i (nth i M []) 0)
                    (seq 0 (Nat.min (length M) (length (hd [] M))))).

(** [np.roll(v, -shift)] of a 1-D array *)
Definition roll_back (v : list R) (shift : Z) : list R :=
  match v with
  | [] => []
  | _ => let k := Z.to_nat (shift mod Z.of_nat (length v)) in skipn k v ++ firstn k v
  end.

(** [V[k:k+n, k:k+n]] *)
Definition window (V : matrix) (k n : nat) : matrix :=
  map (fun row => firstn n (skipn k row)) (firstn n (skipn k V)).

(** [v[i:]] for a Python integer [i] *)
Definition slice_from (v : list R) (i : Z) : list R :=
  if (i <? 0)%Z then skipn (Z.to_nat (Z.of_nat (length v) + i)) v
  else skipn (Z.to_nat i) v.

(** [v[-1]] *)
Definition last_entry (v : list R) : result R :=
  match rev v with
  | [] => Raise IndexError
  | e :: _ => Ok e
  end.

(** [v[m:m-n:-1]] for [m >= n]: the [n] entries from [v[m]] downwards *)
Definition backwards (v : list R) (m n : nat) : list R :=
  rev (firstn n (skipn (m + 1 - n) v)).

Section WithFIRLib.
Context {firlib : FIRLib}.

(** [np.append(sigma2, sigma2[-1] * np.ones((Ntheta)))] *)
Definition extended (sigma2 : list R) (Ntheta : nat) : result (list R) :=
  e <- last_entry sigma2 ;;
  Ok (sigma2 ++ map (Rmult e) (repeat 1 Ntheta)).

(** Lines 86-160: the covariance of the low-pass filtered noise ([Ulow], or
    [V] for an array [sigma2] with [kind == "diag"]) and the low-pass
    filtered signal [xlow]. *)
Definition lowpass (y : list R) (sigma2 : uncert) (Ntheta : nat) (blow : option (list R))
  (kind : string) : result (matrix * list R) :=
  match blow with
  | Some bl =>
      U <- match sigma2 with
           | UFloat s2 =>
               Bcorr <- correlate bl bl "full" ;;
               let ycorr := map (Rmult s2) (slice_from Bcorr (Z.of_nat (length bl) - 1)) in
               let ycorr := trimOrPad ycorr Ntheta in
               Ok (toeplitz ycorr)
           | UArray s2 =>
               if String.eqb kind "diag" then
                 sigma2_extended <- extended s2 Ntheta ;;
                 let zeros := map (fun _ => 0) sigma2_extended in
                 let N := mT (toeplitz2 (rev bl) zeros) in
                 let M := toeplitz2 (trimOrPad bl (length sigma2_extended)) zeros in
                 s0 <- first s2 ;;
                 let SP := np_diag1 (map (Rmult s0) (map (fun _ => 1) bl)) in
                 let S := np_diag1 sigma2_extended in
                 NSP <- np_dot N SP ;;
                 NSPN <- np_dot NSP (mT N) ;;
                 MS <- np_dot M S ;;
                 MSM <- np_dot MS (mT M) ;;
                 Ok (madd NSPN MSM)
               else
                 Bcorr <- correlate bl bl "full" ;;
                 let Bcorr_half :=
                   trimOrPad (slice_from Bcorr (Z.of_nat (length bl) - 1)) Ntheta in
                 Bcorr_adjusted <- pad_reflect Bcorr_half (Z.of_nat Ntheta - 1) ;;
                 let s2 := trimOrPad s2 (2 * Ntheta) in
                 sigma2_reflect <- pad_reflect s2 (Z.of_nat Ntheta - 2) ;;
                 ycorr <- correlate sigma2_reflect Bcorr_adjusted "valid" ;;
                 Ok (toeplitz ycorr)
           end ;;
      xlow <- lfilter bl y ;;
      Ok (U, xlow)
  | None =>
      U <- match sigma2 with
           | UFloat s2 => Ok (map (map (fun e => e * s2)) (eye_nat Ntheta Ntheta 0))
           | UArray s2 =>
               if String.eqb kind "diag" then
                 sigma2_extended <- extended s2 Ntheta ;;
                 Ok (np_diag1 sigma2_extended)
               else Ok (toeplitz (trimOrPad s2 Ntheta))
           end ;;
      Ok (U, y)
  end.

(** [theta.T.dot(Ulow.dot(theta)) + np.abs(np.trace(Ulow.dot(Utheta)))]
    for the column [theta] *)
Definition static_part (theta : list R) (Ulow Utheta : matrix) : result matrix :=
  let th := map (fun e => [e]) theta in
  Ut <- np_dot Ulow th ;;
  tUt <- np_dot (mT th) Ut ;;
  UU <- np_dot Ulow Utheta ;;
  Ok (map (map (fun v => v + Rabs (trace UU))) tUt).

(** Lines 186-187: [unc[m] = XL.T.dot(Utheta.dot(XL))] *)
Definition dynamic_part (xlow : list R) (Ntheta : nat) (Utheta : matrix) (unc : list R)
  (m : nat) : result (list R) :=
  let XL := map (fun e => [e]) (backwards xlow m Ntheta) in
  UX <- np_dot Utheta XL ;;
  q <- np_dot (mT XL) UX ;;
  if Nat.ltb m (length unc) then Ok (upd unc m (fun _ => item q)) else Raise IndexError.

Fixpoint for_each {S : Type} (body : S -> nat -> result S) (s : S) (range : list nat)
  : result S :=
  match range with
  | [] => Ok s
  | m :: rest => s' <- body s m ;; for_each body s' rest
  end.

Definition FIRuncFilter (y : list R) (sigma_noise : option uncert) (theta : list R)
  (Utheta : option matrix) (shift : Z) (blow : option (list R)) (kind : string)
  : outcome (list R * list R) :=
  let Ntheta := length theta in
  let Utheta := match Utheta with
                | Some U => U
                | None => zeros2 Ntheta Ntheta
                end in
  match FIRuncFilter_sigma2 sigma_noise kind with
  | Raise e => Raises (Exn e)
  | Ok sigma2 =>
  match (low <- lowpass y sigma2 Ntheta blow kind ;;
         x <- lfilter theta (snd low) ;;
         Ok (fst low, snd low, roll_back x shift)) with
  | Raise e => Raises (Exn e)
  | Ok (U, xlow, x) =>
  match (if String.eqb kind "diag" then
           match sigma2 with
           | UFloat _ => Raises TypeError
           | UArray s2 =>
               lift (mapM (fun k => c <- static_part theta (window U k Ntheta) Utheta ;;
                                    Ok (item c))
                          (seq 0 (length s2)))
           end
         else lift (c <- static_part theta U Utheta ;; Ok [item c])) with
  | Raises e => Raises e
  | Returns UncCov =>
      lift (unc <- for_each (dynamic_part xlow Ntheta Utheta) (map (fun _ => 0) y)
                     (seq Ntheta (length xlow - Ntheta)) ;;
            s <- broadcast1 Rplus UncCov unc ;;
            let ux := map (fun v => sqrt (Rabs v)) s in
            Ok (x, roll_back ux shift))
  end end end.

End WithFIRLib.

End FIRFilter.

(** ** Routines for calls of [FIRuncFilter] without a low-pass filter *)

Module PlainFIR.
Import FIRFilter.

(** [scipy.signal.lfilter(b, 1.0, x)]: [y[n] = b[0] x[n] + ... + b[n] x[0]] *)
Definition fir (b x : list R) : list R :=
  map (fun n => sum1 0 Rplus (map (fun k => nth k b 0 * nth (n - k) x 0)
                                  (seq 0 (Nat.min (S n) (length b)))))
      (seq 0 (length x)).

(** [lfilter] raises [ValueError] on an empty filter or an empty signal.
    [blow] is not given in the examples: [correlate] and [pad_reflect],
    which only the low-pass branch calls, raise in this instance. *)
Definition firlib_plain : FIRLib := {|
  lfilter := fun b x => match b, x with
                        | [], _ | _, [] => Raise ValueError
                        | _, _ => Ok (fir b x)
                        end;
  correlate := fun _ _ _ => Raise ValueError;
  pad_reflect := fun _ _ => Raise ValueError;
  trimOrPad := fun v n => firstn n v ++ repeat 0 (n - length v)
|}.

End PlainFIR.

(** ** A least-squares routine for any shape

    [lstsq2] on the systems it solves; elsewhere the vector of zeros with
    one entry per column, which has the shape of the numpy result and not
    its values. *)

Module AnyShape.
Import FitFilter FirstOrder.

Definition lstsq_any (M : matrix) (t : list R) : list R :=
  match lstsq2 M t with
  | [] => zeros1 (length (hd [] M))
  | x => x
  end.

Definition numlib_any : NumLib := {|
  lstsq := lstsq_any;
  roots := roots1;
  median := median1;
  mapinside := mapinside1;
  grpdelay := grpdelay1
|}.

End AnyShape.

(** * Properties of [LSIIR] *)

Section LSIIR_facts.
Import FitFilter.
Context {numlib : NumLib}.
Variables (Hvals : list C) (Nb Na : nat) (f : list R) (Fs : R).
Variables (max_stab_iter : Z) (inv : bool).

Local Abbreviation fit := (fit Hvals Nb Na f Fs inv).
Local Abbreviation stab_while := (stab_while Hvals Nb Na f Fs max_stab_iter inv).
Local Abbreviation stab_body := (stab_body Hvals Nb Na f Fs inv).

(** [check_stability] answers [true] exactly when some root lies outside the
    closed unit disc. *)
Lemma check_stability_true_iff (a : list R) :
  check_stability a = true <-> exists r, In r (roots a) /\ 1 < Cmod r.
Proof.
  unfold check_stability.
  induction (roots a) as [| r rs IH]; simpl.
  - split; [discriminate | intros [r [[] _]]].
  - destruct (Rlt_dec 1 (Cmod r)) as [Hr | Hr]; simpl.
    + split; [intros _; exists r; auto | reflexivity].
    + rewrite IH. split.
      * intros [r' [Hin Hlt]]. exists r'. auto.
      * intros [r' [[-> | Hin] Hlt]]; [contradiction | exists r'; auto].
Qed.

Lemma check_stability_false_iff (a : list R) :
  check_stability a = false <-> forall r, In r (roots a) -> Cmod r <= 1.
Proof.
  split.
  - intros H r Hin. destruct (Rle_dec (Cmod r) 1) as [Hle | Hgt]; [exact Hle |].
    assert (Ht : check_stability a = true).
    { apply check_stability_true_iff. exists r. split; [exact Hin | lra]. }
    congruence.
  - intros H. destruct (check_stability a) eqn:E; [| reflexivity].
    apply check_stability_true_iff in E. destruct E as [r [Hin Hlt]].
    specialize (H r Hin). lra.
Qed.

(** The fuel never runs out before the loop condition fails. *)
Lemma stab_while_exit (fuel : nat) (l l' : locals) :
  (max_stab_iter - l_current_stab_iter l <= Z.of_nat fuel)%Z ->
  stab_while fuel l = Ok l' ->
  l_unstable l' = false \/ (max_stab_iter <= l_current_stab_iter l')%Z.
Proof.
  revert l. induction fuel as [| fuel IH]; intros l Hfuel; simpl.
  - destruct (l_unstable l) eqn:Eu; simpl.
    + destruct (Z.ltb_spec (l_current_stab_iter l) max_stab_iter); [lia |].
      intros [= <-]. right. assumption.
    + intros [= <-]. left. exact Eu.
  - destruct (l_unstable l) eqn:Eu; simpl; [| intros [= <-]; left; exact Eu].
    destruct (Z.ltb_spec (l_current_stab_iter l) max_stab_iter) as [Hlt | Hge].
    + destruct (stab_body l) as [l1 |] eqn:Eb; cbn [bind]; [| discriminate].
      apply IH. unfold FitFilter.stab_body in Eb.
      destruct (grpdelay _ _ _) as [g1 |]; cbn [bind] in Eb; [| discriminate].
      destruct (grpdelay_of _ _ _) as [g2 |]; cbn [bind] in Eb; [| discriminate].
      destruct (FitFilter.fit _ _ _ _ _ _ _) as [b a].
      injection Eb as <-. simpl. lia.
    + intros [= <-]. right. assumption.
Qed.

Lemma stab_while_skip (fuel : nat) (l : locals) :
  l_unstable l = false \/ (max_stab_iter <= l_current_stab_iter l)%Z ->
  stab_while fuel l = Ok l.
Proof.
  intros [Hu | Hc]; destruct fuel; simpl.
  1, 2: rewrite Hu; reflexivity.
  1, 2: destruct (Z.ltb_spec (l_current_stab_iter l) max_stab_iter); [lia |];
        rewrite andb_false_r; reflexivity.
Qed.

Lemma stab_while_enter (fuel : nat) (l : locals) :
  l_unstable l = true -> (l_current_stab_iter l < max_stab_iter)%Z ->
  stab_while (S fuel) l = (l' <- stab_body l ;; stab_while fuel l').
Proof.
  intros Hu Hc. simpl. rewrite Hu.
  destruct (Z.ltb_spec (l_current_stab_iter l) max_stab_iter); [reflexivity | lia].
Qed.

Lemma np_ceil_IZR (k : Z) : np_ceil (IZR k) = k.
Proof.
  unfold np_ceil, Int_part. rewrite <- opp_IZR.
  rewrite <- (tech_up (IZR (- k)) (- k + 1)).
  - lia.
  - apply IZR_lt. lia.
  - rewrite plus_IZR. lra.
Qed.

(** A pass of the loop over a filter that [mapinside] leaves as it is refits
    with the same delay: the two group delays are those of one filter. *)
Lemma stab_body_refits (b a g : list R) (tau i : Z) :
  fit tau = (b, a) -> check_stability a = false ->
  mapinside a = PArray a -> grpdelay b a Fs = Ok g ->
  median (map2 Rminus g g) = 0 ->
  stab_body (mk_locals b a tau true i) = Ok (mk_locals b a tau true (i + 1)).
Proof.
  intros Hfit Hc Hm Hg Hmed. unfold FitFilter.stab_body. cbn [l_a l_b l_tau l_unstable
    l_current_stab_iter]. rewrite Hm, Hg. cbn [bind grpdelay_of]. rewrite Hg. cbn [bind].
  rewrite Hmed, Rplus_0_r, np_ceil_IZR, Hfit, Hc. reflexivity.
Qed.

(** Such a filter goes through every pass that the budget has and leaves the
    loop flagged as it came. *)
Lemma stab_while_refits (b a g : list R) (tau : Z) :
  fit tau = (b, a) -> check_stability a = false ->
  mapinside a = PArray a -> grpdelay b a Fs = Ok g ->
  median (map2 Rminus g g) = 0 ->
  forall (fuel : nat) (i : Z),
    (i <= max_stab_iter)%Z -> (max_stab_iter - i <= Z.of_nat fuel)%Z ->
    stab_while fuel (mk_locals b a tau true i) = Ok (mk_locals b a tau true max_stab_iter).
Proof.
  intros Hfit Hc Hm Hg Hmed. induction fuel as [| fuel IH]; intros i Hi Hfuel.
  - replace i with max_stab_iter by lia. apply stab_while_skip. right. simpl. lia.
  - destruct (Z.eq_dec i max_stab_iter) as [-> | Hne].
    + apply stab_while_skip. right. simpl. lia.
    + rewrite stab_while_enter; [| reflexivity | simpl; lia].
      rewrite (stab_body_refits b a g tau i Hfit Hc Hm Hg Hmed). cbn [bind].
      apply IH; lia.
Qed.

(** A first fit without a pole outside the unit circle, which [mapinside]
    leaves as it is, comes back from the loop as it went in. *)
Lemma LSIIR_refits (tau : Z) (verbose : bool) (UHvals : pyobj) (mc_runs : Z)
  (b a g : list R) :
  length Hvals = length f -> covariance_accepted Hvals UHvals mc_runs ->
  fit tau = (b, a) -> check_stability a = false ->
  mapinside a = PArray a -> grpdelay b a Fs = Ok g ->
  median (map2 Rminus g g) = 0 ->
  LSIIR Hvals Nb Na f Fs tau false verbose max_stab_iter inv UHvals mc_runs
  = Ok (b, a, tau).
Proof.
  intros Hlen [H Hmc] Hfit Hc Hm Hg Hmed. unfold LSIIR. rewrite H. cbn [bind].
  rewrite Hmc. cbn [bind]. rewrite Hlen, Nat.eqb_refl. cbn [negb].
  rewrite Hfit, Hc. cbn [negb].
  destruct (Z.le_gt_cases max_stab_iter 1) as [Hle | Hgt].
  - rewrite stab_while_skip; [reflexivity | right; simpl; exact Hle].
  - rewrite (stab_while_refits b a g tau Hfit Hc Hm Hg Hmed); [reflexivity | lia | lia].
Qed.

(** A first fit without roots that is sent into the loop stops the call:
    [mapinside] returns a float, on which [grpdelay] raises [TypeError]. *)
Lemma LSIIR_float_astab_raises (tau : Z) (verbose : bool) (UHvals : pyobj) (mc_runs : Z)
  (b a g : list R) (c : R) :
  length Hvals = length f -> covariance_accepted Hvals UHvals mc_runs ->
  fit tau = (b, a) -> check_stability a = false -> (1 < max_stab_iter)%Z ->
  mapinside a = PFloat c -> grpdelay b a Fs = Ok g ->
  LSIIR Hvals Nb Na f Fs tau false verbose max_stab_iter inv UHvals mc_runs
  = Raise TypeError.
Proof.
  intros Hlen [H Hmc] Hfit Hc Hmax Hm Hg. unfold LSIIR. rewrite H. cbn [bind].
  rewrite Hmc. cbn [bind]. rewrite Hlen, Nat.eqb_refl. cbn [negb].
  rewrite Hfit, Hc. cbn [negb].
  replace (Z.to_nat (max_stab_iter - 1)) with (S (Z.to_nat (max_stab_iter - 2))) by lia.
  rewrite stab_while_enter; [| reflexivity | simpl; lia].
  unfold FitFilter.stab_body. cbn [l_a l_b]. rewrite Hm, Hg. reflexivity.
Qed.

(** C2.  Without a covariance ([UHvals=None], the default) every call stops
    with [UnboundLocalError]: the fit of lines 211-248 is inside
    [if UHvals:], and lines 250-263 read [unstable], [b], [a] all the same.
    No triple is returned. *)
Theorem LSIIR_without_UHvals_raises (tau : Z) (justFit verbose : bool) (mc_runs : Z) :
  LSIIR Hvals Nb Na f Fs tau justFit verbose max_stab_iter inv PyNone mc_runs
  = Raise UnboundLocalError.
Proof.
  unfold LSIIR. simpl. destruct verbose; reflexivity.
Qed.

(** X12.  A covariance given as an ndarray with more than one entry stops the call
    at [if UHvals:]. *)
Lemma LSIIR_ndarray_UHvals_raises (tau : Z) (justFit verbose : bool)
  (rows : matrix) (u v : R) (rest : list R) (mc_runs : Z) :
  concat rows = u :: v :: rest ->
  LSIIR Hvals Nb Na f Fs tau justFit verbose max_stab_iter inv (PyNdarray rows) mc_runs
  = Raise ValueError.
Proof.
  intros H. unfold LSIIR. simpl. rewrite H. reflexivity.
Qed.

(** X11.  With [justFit=True], a covariance that is accepted and one response
    value per frequency, the returned delay is 0. *)
Lemma LSIIR_justFit_returns_zero (tau : Z) (verbose : bool) (UHvals : pyobj)
  (mc_runs : Z) :
  length Hvals = length f ->
  covariance_accepted Hvals UHvals mc_runs ->
  LSIIR Hvals Nb Na f Fs tau true verbose max_stab_iter inv UHvals mc_runs
  = Ok (fst (fit tau), snd (fit tau), 0%Z).
Proof.
  intros Hlen [H Hmc]. unfold LSIIR. rewrite H. cbn [bind]. rewrite Hmc. cbn [bind].
  rewrite Hlen, Nat.eqb_refl. cbn [negb].
  destruct (FitFilter.fit _ _ _ _ _ _ _) as [b a]. reflexivity.
Qed.

(** C6.  With an iteration budget of 0 (or 1) and [justFit=False] the loop
    is not entered and the initial estimate [tau] is returned as it came in,
    not 0. *)
Theorem LSIIR_zero_budget_returns_initial_tau (tau : Z) (verbose : bool)
  (UHvals : pyobj) (mc_runs : Z) :
  length Hvals = length f ->
  covariance_accepted Hvals UHvals mc_runs ->
  (max_stab_iter <= 1)%Z ->
  LSIIR Hvals Nb Na f Fs tau false verbose max_stab_iter inv UHvals mc_runs
  = Ok (fst (fit tau), snd (fit tau), tau).
Proof.
  intros Hlen [H Hmc] Hmax. unfold LSIIR. rewrite H. cbn [bind]. rewrite Hmc. cbn [bind].
  rewrite Hlen, Nat.eqb_refl. cbn [negb].
  destruct (FitFilter.fit _ _ _ _ _ _ _) as [b a]. cbn [fst snd].
  rewrite stab_while_skip; [reflexivity |].
  right. simpl. exact Hmax.
Qed.

(** C1.  The stability test is inverted.  A first fit with a pole outside the
    unit circle is returned as it is, without any stabilization.  A first fit
    that is stable is sent into the stabilization loop whenever the budget
    allows one pass: when the helpers return from the first pass with the
    local variables [l1], the call goes on with the loop from [l1]. *)
Theorem LSIIR_stability_test_inverted (tau : Z) (verbose : bool) (UHvals : pyobj)
  (mc_runs : Z) :
  length Hvals = length f ->
  covariance_accepted Hvals UHvals mc_runs ->
  let b := fst (fit tau) in
  let a := snd (fit tau) in
  ((exists r, In r (roots a) /\ 1 < Cmod r) ->
   LSIIR Hvals Nb Na f Fs tau false verbose max_stab_iter inv UHvals mc_runs
   = Ok (b, a, tau))
  /\
  (stable a -> (1 < max_stab_iter)%Z ->
   forall l1, stab_body (mk_locals b a tau true 1) = Ok l1 ->
   LSIIR Hvals Nb Na f Fs tau false verbose max_stab_iter inv UHvals mc_runs
   = (l <- stab_while (Z.to_nat (max_stab_iter - 2)) l1 ;;
      Ok (l_b l, l_a l, l_tau l))).
Proof.
  intros Hlen [H Hmc] b a. subst b a. unfold LSIIR. rewrite H. cbn [bind].
  rewrite Hmc. cbn [bind]. rewrite Hlen, Nat.eqb_refl. cbn [negb].
  destruct (FitFilter.fit _ _ _ _ _ _ _) as [b a] eqn:Efit. cbn [fst snd]. split.
  - intros Hout. apply check_stability_true_iff in Hout. rewrite Hout. simpl.
    rewrite stab_while_skip; [reflexivity | left; reflexivity].
  - intros Hst Hmax l1 Hl1.
    assert (Hc : check_stability a = false).
    { apply check_stability_false_iff. intros r Hin. specialize (Hst r Hin). lra. }
    rewrite Hc. simpl negb.
    replace (Z.to_nat (max_stab_iter - 1)) with (S (Z.to_nat (max_stab_iter - 2))) by lia.
    rewrite stab_while_enter; [| reflexivity | simpl; lia].
    rewrite Hl1. reflexivity.
Qed.

(** The loop of a call has left its condition behind when it is over: the
    fuel of the embedding is enough. *)
Lemma LSIIR_loop_over (l0 l : locals) :
  l_current_stab_iter l0 = 1%Z ->
  stab_while (Z.to_nat (max_stab_iter - 1)) l0 = Ok l ->
  l_unstable l = false \/ (max_stab_iter <= l_current_stab_iter l)%Z.
Proof.
  intros H1. apply stab_while_exit. rewrite H1. lia.
Qed.

(** Inside the loop the flag [unstable] is cleared when the refit has a pole
    outside the unit circle, and kept when the refit is stable. *)
Lemma stab_body_unstable (l l' : locals) :
  stab_body l = Ok l' ->
  l_unstable l' = (if check_stability (l_a l') then false else l_unstable l).
Proof.
  unfold FitFilter.stab_body.
  destruct (grpdelay _ _ _) as [g1 |]; cbn [bind]; [| discriminate].
  destruct (grpdelay_of _ _ _) as [g2 |]; cbn [bind]; [| discriminate].
  destruct (FitFilter.fit _ _ _ _ _ _ _) as [b a].
  intros [= <-]. reflexivity.
Qed.

End LSIIR_facts.

(** ** Worked examples for [LSIIR] on first-order data *)

(** bring the arguments of [exp], [cos], [sin] to 0 or to -PI and evaluate *)
Ltac eval_trig :=
  repeat match goal with
  | |- context [exp ?e] =>
      lazymatch e with 0 => fail | _ => replace e with 0 by lra end
  end;
  rewrite ?exp_0;
  repeat match goal with
  | |- context [cos ?e] =>
      lazymatch e with
      | 0 => fail
      | (- PI) => fail
      | _ => first [replace e with 0 by lra | replace e with (- PI) by lra]
      end
  | |- context [sin ?e] =>
      lazymatch e with
      | 0 => fail
      | (- PI) => fail
      | _ => first [replace e with 0 by lra | replace e with (- PI) by lra]
      end
  end;
  rewrite ?cos_neg, ?sin_neg, ?cos_0, ?sin_0, ?cos_PI, ?sin_PI.

Ltac eval_fit :=
  unfold FitFilter.fit, FitFilter._fitIIR, FitFilter.w_of, FitFilter.E_of; cbn;
  unfold Cmul, Cneg, Ci, RtoC, Cexp, Cconj, Cre, Cadd, Cinv; cbn;
  eval_trig;
  repeat f_equal; field.

Section LSIIR_examples.
Import FitFilter FirstOrder.

(** The response of 1 / (1 - 2 z^-1) at the frequencies 0 and Fs/2 is
    -1 and 1/3; the fit recovers the filter, whose pole is at z = 2. *)
Lemma fit_pole_at_2 :
  fit [(-1, 0); (1 / 3, 0)] 0 1 [0; 1 / 2] 1 false 0 = ([1], [1; -2]).
Proof. eval_fit. Qed.

(** A constant response fitted with orders 0: no pole at all. *)
Lemma fit_order_0 (tau : Z) :
  fit [(1, 0)] 0 0 [0] 1 false tau = ([1], [1]).
Proof. eval_fit. Qed.

Lemma UH2_accepted (h1 h2 : C) : covariance_accepted [h1; h2] UH2 1000.
Proof. split; reflexivity. Qed.

Lemma UH1_accepted (h : C) : covariance_accepted [h] UH1 1000.
Proof. split; reflexivity. Qed.

(** The response of 1 / (1 - z^-1 / 2) at the frequencies 0 and Fs/2 is
    2 and 2/3; the fit recovers the filter, whose pole is at z = 1/2. *)
Lemma fit_pole_at_half :
  fit [(2, 0); (2 / 3, 0)] 0 1 [0; 1 / 2] 1 false 0 = ([1], [1; -1 / 2]).
Proof.
  unfold FitFilter.fit, FitFilter._fitIIR, FitFilter.w_of, FitFilter.E_of; cbn;
    unfold Cmul, Cneg, Ci, RtoC, Cexp, Cconj, Cre, Cadd, Cinv; cbn;
    eval_trig.
  apply f_equal2; [apply f_equal2; [field | reflexivity] |].
  apply f_equal2; [reflexivity |]. apply f_equal2; [field | reflexivity].
Qed.

Lemma stable_pole_at_half : stable [1; -1 / 2].
Proof.
  intros r [<- | []]. unfold Cmod. cbn [fst snd].
  replace (- (-1 / 2) / 1 * (- (-1 / 2) / 1) + 0 * 0) with (1 / 2 * (1 / 2)) by field.
  rewrite sqrt_square; lra.
Qed.

Lemma mapinside_pole_at_half : mapinside [1; -1 / 2] = PArray [1; -1 / 2].
Proof.
  assert (Habs : Rabs (-1 / 2 / 1) = 1 / 2).
  { replace (-1 / 2 / 1) with (- (1 / 2)) by field.
    rewrite Rabs_Ropp, Rabs_pos_eq; lra. }
  cbn. destruct (Rlt_dec 1 (Rabs (-1 / 2 / 1))) as [Hlt | _]; [lra |].
  do 2 f_equal. apply f_equal2; [field | reflexivity].
Qed.

Lemma LSIIR_stability_test_inverted_witness :
  let H2 : list C := [(-1, 0); (1 / 3, 0)] in
  let Hh : list C := [(2, 0); (2 / 3, 0)] in
  let f : list R := [0; 1 / 2] in
  covariance_accepted H2 UH2 1000
  /\ covariance_accepted Hh UH2 1000
  /\ LSIIR H2 0 1 f 1 0 false true 50 false UH2 1000 = Ok ([1], [1; -2], 0%Z)
  /\ stable [1; -1 / 2]
  /\ stab_body Hh 0 1 f 1 false (mk_locals [1] [1; -1 / 2] 0 true 1)
     = Ok (mk_locals [1] [1; -1 / 2] 0 true 2)
  /\ stab_while Hh 0 1 f 1 50 false 48 (mk_locals [1] [1; -1 / 2] 0 true 2)
     = Ok (mk_locals [1] [1; -1 / 2] 0 true 50)
  /\ LSIIR Hh 0 1 f 1 0 false true 50 false UH2 1000 = Ok ([1], [1; -1 / 2], 0%Z).
Proof.
  intros H2 Hh f.
  assert (Hc : check_stability [1; -1 / 2] = false).
  { apply check_stability_false_iff. intros r Hr.
    apply Rlt_le, stable_pole_at_half, Hr. }
  assert (Hmed : median (map2 Rminus [0] [0]) = 0) by (cbn; lra).
  assert (Hbody : stab_body Hh 0 1 f 1 false (mk_locals [1] [1; -1 / 2] 0 true 1)
                  = Ok (mk_locals [1] [1; -1 / 2] 0 true 2)).
  { apply (stab_body_refits Hh 0 1 f 1 false [1] [1; -1 / 2] [0] 0 1 fit_pole_at_half Hc
             mapinside_pole_at_half eq_refl Hmed). }
  assert (Hloop : stab_while Hh 0 1 f 1 50 false 48 (mk_locals [1] [1; -1 / 2] 0 true 2)
                  = Ok (mk_locals [1] [1; -1 / 2] 0 true 50)).
  { apply (stab_while_refits Hh 0 1 f 1 50 false [1] [1; -1 / 2] [0] 0 fit_pole_at_half Hc
             mapinside_pole_at_half eq_refl Hmed 48 2); [discriminate | discriminate]. }
  split; [apply UH2_accepted |]. split; [apply UH2_accepted |]. split.
  - destruct (LSIIR_stability_test_inverted
                H2 0 1 f 1 50 false 0 true UH2 1000 eq_refl (UH2_accepted _ _))
      as [Hout _].
    unfold H2, f in Hout. rewrite fit_pole_at_2 in Hout. apply Hout.
    exists (- -2 / 1, 0). split; [left; reflexivity |].
    unfold Cmod; cbn [fst snd].
    replace (- -2 / 1 * (- -2 / 1) + 0 * 0) with (2 * 2) by field.
    rewrite sqrt_square; lra.
  - split; [exact stable_pole_at_half |]. split; [exact Hbody |]. split; [exact Hloop |].
    destruct (LSIIR_stability_test_inverted
                Hh 0 1 f 1 50 false 0 true UH2 1000 eq_refl (UH2_accepted _ _))
      as [_ Hin].
    unfold Hh, f in Hin. rewrite fit_pole_at_half in Hin. cbn [fst snd] in Hin.
    unfold Hh, f in Hbody, Hloop |- *.
    rewrite (Hin stable_pole_at_half eq_refl _ Hbody).
    change (Z.to_nat (50 - 2)) with 48%nat. rewrite Hloop. reflexivity.
Defined.

(** The constant response fitted with orders 0 is sent into the loop, where
    the call stops. *)
Lemma LSIIR_order_0_raises_TypeError :
  LSIIR [(1, 0)] 0 0 [0] 1 0 false true 50 false UH1 1000 = Raise TypeError.
Proof.
  apply (LSIIR_float_astab_raises [(1, 0)] 0 0 [0] 1 50 false 0 true UH1 1000 [1] [1] [0] 1).
  - reflexivity.
  - apply UH1_accepted.
  - apply fit_order_0.
  - reflexivity.
  - reflexivity.
  - reflexivity.
  - reflexivity.
Qed.

Lemma LSIIR_zero_budget_witness :
  covariance_accepted [(1, 0)] UH1 1000
  /\ (0 <= 1)%Z
  /\ LSIIR [(1, 0)] 0 0 [0] 1 5 false true 0 false UH1 1000 = Ok ([1], [1], 5%Z).
Proof.
  split; [apply UH1_accepted |]. split; [lia |].
  rewrite (LSIIR_zero_budget_returns_initial_tau
             [(1, 0)] 0 0 [0] 1 0 false 5 true UH1 1000 eq_refl (UH1_accepted _));
    [| lia].
  rewrite fit_order_0. reflexivity.
Defined.

End LSIIR_examples.

(** * Properties of [IIRuncFilter] and its helpers *)

(** decide a test on concrete real numbers *)
Ltac real_test :=
  match goal with
  | |- context [Req_dec_T ?x ?y] =>
      destruct (Req_dec_T x y); [try (exfalso; lra) | try (exfalso; lra)]
  | |- context [Rlt_dec ?x ?y] =>
      destruct (Rlt_dec x y); [try (exfalso; lra) | try (exfalso; lra)]
  end.

(** evaluate a call on concrete arguments *)
Ltac eval_nat :=
  repeat match goal with
  | |- context [Pos.to_nat ?p] =>
      let n := eval compute in (Pos.to_nat p) in change (Pos.to_nat p) with n
  end.

Ltac run := repeat first [progress (cbn; eval_nat) | real_test].

(** equality of two results that differ in the form of their real entries *)
Ltac real_values :=
  repeat match goal with
  | |- Ok _ = Ok _ => apply f_equal
  | |- Some _ = Some _ => apply f_equal
  | |- (_, _) = (_, _) => apply f_equal2
  | |- _ :: _ = _ :: _ => apply f_equal2
  | |- @eq R _ _ => first [reflexivity | field; lra | lra]
  | |- _ = _ => reflexivity
  end.

Section Kind.
Import PropagateFilter.
Context {scipy : SciPy}.

Lemma iir_loop_not_diag (kind : string) (a : list R) (p : Z)
  (A bs cT b0 : matrix) (corr_unc : R) (Uab : matrix) (Ux xs : list R)
  (n : nat) (st : loop_state) :
  String.eqb kind "diag"%string = false ->
  iir_loop kind a p A bs cT b0 corr_unc Uab Ux xs n st
  = iir_loop "corr"%string a p A bs cT b0 corr_unc Uab Ux xs n st.
Proof.
  intros Hk. revert n st. induction xs as [| xn xs IH]; intros n st; simpl.
  - reflexivity.
  - unfold iir_step. rewrite Hk. simpl String.eqb.
    destruct (index Ux 0) as [u0 |]; simpl; [| reflexivity].
    destruct (np_zeros2 (p - 1) p); simpl; [| reflexivity].
    rewrite IH. reflexivity.
Qed.

(** C5.  A tag other than "diag" is taken for "corr": nothing is checked and
    nothing is raised on account of the tag. *)
Theorem IIRuncFilter_unknown_kind_is_corr (x : list R) (Ux : uncert) (b a : list R)
  (Uab : option matrix) (init_internal_state : option internal_state)
  (return_state : bool) (kind : string) :
  kind <> "diag"%string ->
  IIRuncFilter x Ux b a Uab init_internal_state return_state kind
  = IIRuncFilter x Ux b a Uab init_internal_state return_state "corr"%string.
Proof.
  intros Hk. apply String.eqb_neq in Hk.
  unfold IIRuncFilter, initial_state. rewrite Hk. simpl String.eqb.
  destruct (match Uab with Some M => Ok M | None => _ end) as [U |]; simpl; [| reflexivity].
  destruct (pad_b b a) as [b' |]; simpl; [| reflexivity].
  destruct (match init_internal_state with Some st => Ok st | None => _ end) as [st |];
    simpl; [| reflexivity].
  destruct (st_system st) as [[[A bs] cT] b0].
  destruct (np_zeros2 _ 1); simpl; [| reflexivity].
  rewrite (iir_loop_not_diag kind) by exact Hk. reflexivity.
Qed.

(** The sibling [FIRuncFilter] does check the tag when [sigma_noise] is an
    array. *)
Lemma FIRuncFilter_unknown_kind_raises (s : list R) (kind : string) :
  kind <> "diag"%string -> kind <> "corr"%string ->
  FIRuncFilter_sigma2 (Some (UArray s)) kind = Raise ValueError.
Proof.
  intros H1 H2. apply String.eqb_neq in H1, H2.
  unfold FIRuncFilter_sigma2. rewrite H1, H2. reflexivity.
Qed.

Lemma get_initial_internal_state_system (b a : list R) (x0 U0 : R)
  (Ux : option (list R)) (st : internal_state) :
  get_initial_internal_state b a x0 U0 Ux = Ok st ->
  _tf2ss b a = Ok (st_system st).
Proof.
  unfold get_initial_internal_state.
  destruct (_tf2ss b a) as [[[[A B] C] D] |]; cbn [bind]; [| discriminate].
  destruct (solve _ B); cbn [bind]; [| discriminate].
  destruct (solve _ _); cbn [bind]; [| discriminate].
  destruct (solve_discrete_lyapunov _ _); cbn [bind]; [| discriminate].
  destruct (match Ux with Some u => _ | None => _ end); cbn [bind]; [| discriminate].
  intros H. injection H as <-. reflexivity.
Qed.

(** C7 (amended).  A numerator shorter than the denominator is filled with
    zeros up to the length of the denominator; the call is the call with
    the padded numerator, and a state-space realization computed in
    the call is the one of the padded numerator. *)
Theorem IIRuncFilter_pads_short_numerator (x : list R) (Ux : uncert) (b a : list R)
  (Uab : option matrix) (init_internal_state : option internal_state)
  (return_state : bool) (kind : string) :
  (length b < length a)%nat ->
  let b' := b ++ zeros1 (length a - length b) in
  length b' = length a
  /\ pad_b b a = Ok b'
  /\ IIRuncFilter x Ux b a Uab init_internal_state return_state kind
     = IIRuncFilter x Ux b' a Uab init_internal_state return_state kind
  /\ (forall y Uy st,
        IIRuncFilter x Ux b a Uab None true kind = Ok (y, Uy, Some st) ->
        _tf2ss b' a = Ok (st_system st)).
Proof.
  intros Hlen b'.
  assert (Hl : length b' = length a).
  { unfold b', zeros1. rewrite length_app, repeat_length. lia. }
  assert (Hp : pad_b b a = Ok b').
  { unfold pad_b. destruct (Nat.eqb_spec (length b) (length a)); [lia |].
    unfold np_zeros1. destruct (Z.ltb_spec (Z.of_nat (length a) - Z.of_nat (length b)) 0);
      [lia |]. simpl.
    replace (Z.to_nat (Z.of_nat (length a) - Z.of_nat (length b)))
      with (length a - length b)%nat by lia. reflexivity. }
  assert (Hp' : pad_b b' a = Ok b').
  { unfold pad_b. rewrite Hl, Nat.eqb_refl. reflexivity. }
  split; [exact Hl |]. split; [exact Hp |]. split.
  - unfold IIRuncFilter. rewrite Hp, Hp'. reflexivity.
  - intros y Uy st. unfold IIRuncFilter. rewrite Hp. cbn beta iota.
    destruct (match Uab with Some M => Ok M | None => _ end) as [U |]; cbn [bind];
      [| discriminate].
    destruct (initial_state b' a _ None kind) as [st0 |] eqn:E0; cbn [bind];
      [| discriminate].
    assert (Hsys : _tf2ss b' a = Ok (st_system st0)).
    { unfold initial_state in E0.
      destruct (String.eqb kind "diag"%string);
        exact (get_initial_internal_state_system _ _ _ _ _ _ E0). }
    destruct (st_system st0) as [[[A0 bs0] cT0] b00].
    destruct (np_zeros2 _ 1); cbn [bind]; [| discriminate].
    destruct (iir_loop _ _ _ _ _ _ _ _ _ _ _ _ _) as [[[y0 Uy0] fin] |]; cbn [bind];
      [| discriminate].
    intros H. injection H as _ _ <-. exact Hsys.
Qed.

End Kind.

(** ** Facts about lists and arrays *)

Section ListFacts.

Lemma nth_map_seq {A : Type} (f : nat -> A) (n i : nat) (d : A) :
  (i < n)%nat -> nth i (map f (seq 0 n)) d = f i.
Proof.
  intros H. rewrite (nth_indep _ d (f 0%nat)) by (rewrite length_map, length_seq; exact H).
  rewrite map_nth, seq_nth by exact H. reflexivity.
Qed.

Lemma nth_tl {A : Type} (l : list A) (k : nat) (d : A) :
  nth k (tl l) d = nth (S k) l d.
Proof. destruct l; [destruct k|]; reflexivity. Qed.

Lemma length_tl {A : Type} (l : list A) : length (tl l) = (length l - 1)%nat.
Proof. destruct l; simpl; lia. Qed.

Lemma length_map2 {U V W : Type} (f : U -> V -> W) (u : list U) (v : list V) :
  length (map2 f u v) = Nat.min (length u) (length v).
Proof.
  revert v. induction u as [| x u IH]; intros [| y v]; simpl; try reflexivity.
  rewrite IH. reflexivity.
Qed.

Lemma nth_map2 {U V W : Type} (f : U -> V -> W) (u : list U) (v : list V)
  (k : nat) (du : U) (dv : V) (dw : W) :
  (k < length u)%nat -> (k < length v)%nat ->
  nth k (map2 f u v) dw = f (nth k u du) (nth k v dv).
Proof.
  revert v k. induction u as [| x u IH]; intros [| y v] [| k]; simpl; try lia.
  - reflexivity.
  - intros. apply IH; lia.
Qed.

End ListFacts.

(** C9 (amended).  For coefficient vectors of one length, at least 2, the
    realization is: [A] with ones on the first superdiagonal above a last row
    that is the negated, reversed [a[1:]]; [B] the unit vector with its 1 in the
    last entry; [C] the reversed [b[1:] - b[0] * a[1:]]; [D] the scalar
    [b[0]].  ([a[0] == 1] is not used.) *)
Theorem tf2ss_realization (b a : list R) :
  length b = length a -> (2 <= length a)%nat ->
  let p := (length a - 1)%nat in
  exists (A : matrix) (Bv Cv : list R),
    PropagateFilter._tf2ss b a = Ok (A, Spec.col Bv, [Cv], [[hd 0 b]])
    /\ Spec.shaped p p A /\ length Bv = p /\ length Cv = p
    /\ (forall i j, (i < p - 1)%nat -> (j < p)%nat ->
          nth j (nth i A []) 0 = if Nat.eqb j (i + 1) then 1 else 0)
    /\ (forall j, (j < p)%nat -> nth j (nth (p - 1) A []) 0 = - nth (p - j) a 0)
    /\ (forall i, (i < p)%nat -> nth i Bv 0 = if Nat.eqb i (p - 1) then 1 else 0)
    /\ (forall j, (j < p)%nat ->
          nth j Cv 0 = nth (p - j) b 0 - hd 0 b * nth (p - j) a 0).
Proof.
  intros Hba Ha p.
  exists (eye_nat (p - 1) p 1 ++ [map Ropp (rev (tl a))]),
         (repeat 0 (p - 1) ++ [1]),
         (rev (map2 Rminus (tl b) (map (Rmult (hd 0 b)) (tl a)))).
  assert (Hla : length (tl a) = p) by (rewrite length_tl; reflexivity).
  assert (Hlb : length (tl b) = p) by (rewrite length_tl, Hba; reflexivity).
  split; [| split; [| split; [| split; [| split; [| split; [| split]]]]]].
  - unfold PropagateFilter._tf2ss, np_eye, np_zeros2.
    destruct (Z.ltb_spec (Z.of_nat (length a) - 1 - 1) 0); [lia |].
    destruct (Z.ltb_spec (Z.of_nat (length a) - 1) 0); [lia |].
    change (1 <? 0)%Z with false. cbn [orb bind].
    replace (Z.to_nat (Z.of_nat (length a) - 1 - 1)) with (p - 1)%nat by lia.
    replace (Z.to_nat (Z.of_nat (length a) - 1)) with (S (p - 1))%nat by lia.
    unfold PropagateFilter.set_last_row, zeros2. rewrite rev_repeat. cbn [repeat bind].
    rewrite rev_repeat.
    destruct b as [| b0 b]; [simpl in Hba; lia |]. cbn [PropagateFilter.first bind tl hd].
    unfold np_sub1. rewrite length_map. cbn [tl] in Hlb. rewrite Hlb, Hla, Nat.eqb_refl.
    cbn [bind]. unfold Spec.col. rewrite map_app, map_repeat. cbn [map].
    rewrite Rmult_1_l. replace (S (p - 1)) with p by lia. reflexivity.
  - split.
    + rewrite length_app. unfold eye_nat. rewrite length_map, length_seq. simpl. lia.
    + apply Forall_app. split.
      * unfold eye_nat. apply Forall_map, Forall_forall. intros i _.
        rewrite length_map, length_seq. reflexivity.
      * constructor; [| constructor]. rewrite length_map, length_rev. exact Hla.
  - rewrite length_app, repeat_length. simpl. lia.
  - rewrite length_rev, length_map2, length_map, Hla, Hlb. apply Nat.min_id.
  - intros i j Hi Hj. rewrite app_nth1.
    2: { unfold eye_nat. rewrite length_map, length_seq. exact Hi. }
    unfold eye_nat. rewrite (nth_map_seq _ _ _ _ Hi), (nth_map_seq _ _ _ _ Hj). reflexivity.
  - intros j Hj.
    assert (HE : length (eye_nat (p - 1) p 1) = (p - 1)%nat).
    { unfold eye_nat. rewrite length_map, length_seq. reflexivity. }
    rewrite app_nth2 by (rewrite HE; lia). rewrite HE, Nat.sub_diag. cbn [nth].
    rewrite (nth_indep _ 0 (- 0)) by (rewrite length_map, length_rev, Hla; exact Hj).
    rewrite map_nth. rewrite rev_nth by (rewrite Hla; exact Hj).
    rewrite nth_tl, Hla. f_equal. f_equal. lia.
  - intros i Hi. destruct (Nat.eqb_spec i (p - 1)) as [-> | Hne].
    + rewrite app_nth2 by (rewrite repeat_length; lia).
      rewrite repeat_length, Nat.sub_diag. reflexivity.
    + rewrite app_nth1 by (rewrite repeat_length; lia). apply nth_repeat.
  - intros j Hj.
    rewrite rev_nth by (rewrite length_map2, length_map, Hla, Hlb, Nat.min_id; exact Hj).
    rewrite length_map2, length_map, Hla, Hlb, Nat.min_id.
    rewrite (nth_map2 _ _ _ _ 0 0) by (rewrite ?length_map; lia).
    rewrite (nth_indep (map _ _) 0 (hd 0 b * 0)) by (rewrite length_map; lia).
    rewrite map_nth, !nth_tl. replace (S (p - S j)) with (p - j)%nat by lia. reflexivity.
Qed.

(** C9, as stated, fails for a denominator of order 0: [np.eye(-1, 0, k=1)]
    raises. *)
Lemma tf2ss_order_0_raises :
  let b : list R := [2] in
  let a : list R := [1] in
  length b = length a /\ hd 0 a = 1 /\ PropagateFilter._tf2ss b a = Raise ValueError.
Proof. repeat split. Qed.

Lemma tf2ss_realization_witness :
  let b : list R := [1 / 2; 0] in
  let a : list R := [1; -1 / 2] in
  length b = length a
  /\ (2 <= length a)%nat
  /\ exists (A : matrix) (Bv Cv : list R),
       PropagateFilter._tf2ss [1 / 2; 0] [1; -1 / 2]
       = Ok (A, Spec.col Bv, [Cv], [[1 / 2]])
       /\ Spec.shaped 1 1 A /\ length Bv = 1%nat /\ length Cv = 1%nat.
Proof.
  intros b a. split; [reflexivity |]. split; [apply le_n |].
  destruct (tf2ss_realization [1 / 2; 0] [1; -1 / 2] eq_refl (le_n 2))
    as [A [Bv [Cv [H1 [H2 [H3 [H4 _]]]]]]].
  exists A, Bv, Cv. repeat split; first [exact H1 | apply H2 | exact H3 | exact H4].
Defined.

Section MatrixFacts.

Lemma vecmat_w_mscale (c : R) (w : nat) (r : list R) (X : matrix) :
  vecmat_w 0 Rplus Rmult w r (mscale c X)
  = map (Rmult c) (vecmat_w 0 Rplus Rmult w r X).
Proof.
  revert X. induction r as [| x r IH]; intros [| row X]; cbn [vecmat_w mscale map].
  1-3: rewrite map_repeat, Rmult_0_r; reflexivity.
  fold (mscale c X). rewrite IH. clear IH.
  generalize (vecmat_w 0 Rplus Rmult w r X) as acc.
  induction row as [| e row IHr]; intros [| v acc]; cbn [map map2]; try reflexivity.
  rewrite IHr. f_equal. ring.
Qed.

Lemma vecmat_mscale (c : R) (r : list R) (X : matrix) :
  vecmat 0 Rplus Rmult r (mscale c X) = map (Rmult c) (vecmat 0 Rplus Rmult r X).
Proof.
  unfold vecmat. rewrite vecmat_w_mscale. f_equal. f_equal.
  destruct X; cbn [mscale map hd]; [reflexivity | apply length_map].
Qed.

Lemma map2_plus_zeros (v : list R) :
  map2 Rplus v (repeat 0 (length v)) = v.
Proof.
  induction v as [| x v IH]; cbn [map2 repeat length]; [reflexivity |].
  rewrite IH, Rplus_0_r. reflexivity.
Qed.

Lemma mmul_mscale (c : R) (M X : matrix) :
  mmul M (mscale c X) = mscale c (mmul M X).
Proof.
  unfold mmul, matmul, mscale. rewrite map_map.
  apply map_ext. intros r. apply vecmat_mscale.
Qed.

End MatrixFacts.

Section InitialState.
Import PropagateFilter.
Context {scipy : SciPy}.
Hypothesis solve_sound :
  forall M Rhs X, solve M Rhs = Ok X -> mmul M X = Rhs.
Hypothesis lyapunov_sound :
  forall A Q X, solve_discrete_lyapunov A Q = Ok X ->
                X = madd (mmul (mmul A X) (mT A)) Q.

(** C10 (amended).  When the realization exists, the three solves return
    and, for an autocovariance [Ux], the correlated contribution is computed,
    the function returns, and its [z], [dz], [P] satisfy
    [(I - A) z = B x0], [(I - A) dz = dA z] (the products [dA[k] z] side by
    side) and [P = A P A^T + U0^2 B B^T]. *)
Theorem get_initial_internal_state_equations (b a : list R) (x0 U0 : R)
  (Ux : option (list R)) (A B C D s d X : matrix) :
  _tf2ss b a = Ok (A, B, C, D) ->
  let IminusA := msub (eye_nat (length A) (length A) 0) A in
  let dA := _get_derivative_A (length A) in
  solve IminusA B = Ok s ->
  solve IminusA (hstack (map (fun dAk => mmul dAk (mscale x0 s)) dA)) = Ok d ->
  solve_discrete_lyapunov A (mscale (U0 ^ 2) (outer B B)) = Ok X ->
  (forall u, Ux = Some u -> exists c, _get_corr_unc b a u = Ok c) ->
  exists st,
    get_initial_internal_state b a x0 U0 Ux = Ok st
    /\ st_system st = (A, B, C, D)
    /\ mmul IminusA (st_z st) = mscale x0 B
    /\ mmul IminusA (st_dz st) = hstack (map (fun dAk => mmul dAk (st_z st)) dA)
    /\ st_P st = madd (mmul (mmul A (st_P st)) (mT A)) (mscale (U0 ^ 2) (outer B B)).
Proof.
  intros Hss IminusA dA Hs Hd HX HUx.
  assert (Hc : exists c, match Ux with
                         | Some u => _get_corr_unc b a u
                         | None => Ok 0
                         end = Ok c).
  { destruct Ux as [u |]; [apply HUx; reflexivity | exists 0; reflexivity]. }
  destruct Hc as [c Hc].
  eexists. split.
  - unfold get_initial_internal_state. rewrite Hss. cbn [bind].
    fold IminusA. fold dA. rewrite Hs. cbn [bind]. rewrite Hd. cbn [bind].
    rewrite HX. cbn [bind]. rewrite Hc. cbn [bind]. reflexivity.
  - cbn [st_system st_z st_dz st_P]. split; [reflexivity |]. split; [| split].
    + rewrite mmul_mscale, (solve_sound _ _ _ Hs). reflexivity.
    + exact (solve_sound _ _ _ Hd).
    + exact (lyapunov_sound _ _ _ HX).
Qed.
End InitialState.

Section InitialStateExamples.
Import PropagateFilter FirstOrder.

Lemma solve1_sound M Rhs X : solve1 M Rhs = Ok X -> mmul M X = Rhs.
Proof.
  unfold solve1.
  destruct M as [| [| m [| ? ?]] [| ? ?]]; try discriminate.
  destruct Rhs as [| row [| ? ?]]; try discriminate.
  destruct (Req_dec_T m 0) as [| Hm]; [discriminate |].
  intros [= <-]. unfold mmul, matmul, vecmat. cbn [map hd vecmat_w]. f_equal.
  rewrite map_map.
  replace (length (map (fun r => r / m) row))
    with (length (map (fun x => m * (x / m)) row)) by (rewrite !length_map; reflexivity).
  rewrite map2_plus_zeros. rewrite <- (map_id row) at 2.
  apply map_ext. intros e. field. exact Hm.
Qed.

Lemma lyapunov1_sound A Q X :
  lyapunov1 A Q = Ok X -> X = madd (mmul (mmul A X) (mT A)) Q.
Proof.
  unfold lyapunov1.
  destruct A as [| [| a [| ? ?]] [| ? ?]]; try discriminate.
  destruct Q as [| [| q [| ? ?]] [| ? ?]]; try discriminate.
  destruct (Req_dec_T (1 - a * a) 0) as [| Hm]; [discriminate |].
  intros [= <-]. cbn. do 2 f_equal. field. exact Hm.
Qed.

(** C10, as stated, fails for a filter with a pole at z = 1: [I - A] is
    singular and [solve] raises. *)
Lemma get_initial_internal_state_singular :
  get_initial_internal_state [1; 0] [1; -1] 1 1 None = Raise LinAlgError.
Proof.
  unfold get_initial_internal_state. run. reflexivity.
Qed.

Lemma get_initial_internal_state_equations_witness :
  let A := [[- (-1 / 2)]] in
  let B := [[1]] in
  let IminusA := msub (eye_nat 1 1 0) A in
  exists st,
    get_initial_internal_state [1 / 2; 0] [1; -1 / 2] 1 1 None = Ok st
    /\ mmul IminusA (st_z st) = mscale 1 B
    /\ mmul IminusA (st_dz st)
       = hstack (map (fun dAk => mmul dAk (st_z st)) (_get_derivative_A 1))
    /\ st_P st = madd (mmul (mmul A (st_P st)) (mT A)) (mscale (1 ^ 2) (outer B B)).
Proof.
  intros A B IminusA.
  destruct (@get_initial_internal_state_equations scipy1 solve1_sound lyapunov1_sound
              [1 / 2; 0] [1; -1 / 2] 1 1 None
              A B [[0 - 1 / 2 * (-1 / 2)]] [[1 * (1 / 2)]]
              [[2]] [[-4]] [[4 / 3]])
    as [st [H1 [_ [H2 [H3 H4]]]]].
  - run. reflexivity.
  - run. real_values.
  - run. real_values.
  - run. real_values.
  - intros u Hu. discriminate Hu.
  - exists st. repeat split; assumption.
Defined.

End InitialStateExamples.

(** ** Checkpoint and resume *)

Section Checkpoint.
Import PropagateFilter Chunked.
Context {scipy : SciPy}.

Section FixedSystem.
Variables (kind : string) (a : list R) (p : Z).
Variables (A bs cT b0 : matrix) (corr_unc : R) (Uab : matrix).

Local Abbreviation loop := (iir_loop kind a p A bs cT b0 corr_unc Uab).
Local Abbreviation step := (iir_step kind a p A bs cT b0 corr_unc Uab).

(** the loop over a concatenation is the loop over the first part followed,
    from the state reached, by the loop over the second part *)
Lemma iir_loop_app (Ux xs1 xs2 : list R) (n : nat) (st : loop_state) :
  loop Ux (xs1 ++ xs2) n st
  = '(y1, U1, st1) <- loop Ux xs1 n st ;;
    '(y2, U2, st2) <- loop Ux xs2 (n + length xs1) st1 ;;
    Ok (y1 ++ y2, U1 ++ U2, st2).
Proof.
  revert n st. induction xs1 as [| xn xs1 IH]; intros n st.
  - cbn [app iir_loop bind length]. rewrite Nat.add_0_r.
    destruct (loop Ux xs2 n st) as [[[y2 U2] st2] |]; reflexivity.
  - cbn [app iir_loop length].
    destruct (step Ux n xn st) as [[[yn Un] st1] |]; cbn [bind]; [| reflexivity].
    rewrite IH. replace (S n + length xs1)%nat with (n + S (length xs1))%nat by lia.
    destruct (loop Ux xs1 (S n) st1) as [[[y1 U1] st2] |]; cbn [bind]; [| reflexivity].
    destruct (loop Ux xs2 (n + S (length xs1)) st2) as [[[y2 U2] st3] |]; reflexivity.
Qed.

(** the loop reads [Ux] only at the indices it passes ("diag"), or at
    index 0 *)
Lemma iir_loop_ext (Ux Ux' xs : list R) (n n' : nat) (st : loop_state) :
  (if String.eqb kind "diag"%string
   then forall i, (i < length xs)%nat -> nth_error Ux (n + i) = nth_error Ux' (n' + i)
   else xs <> [] -> nth_error Ux 0 = nth_error Ux' 0) ->
  loop Ux xs n st = loop Ux' xs n' st.
Proof.
  revert n n' st. induction xs as [| xn xs IH]; intros n n' st H; [reflexivity |].
  cbn [iir_loop].
  assert (Hstep : step Ux n xn st = step Ux' n' xn st).
  { unfold iir_step, index. destruct (String.eqb kind "diag"%string).
    - specialize (H 0%nat). rewrite !Nat.add_0_r in H. rewrite H by (simpl; lia).
      reflexivity.
    - rewrite H by discriminate. reflexivity. }
  rewrite Hstep. destruct (step Ux' n' xn st) as [[[yn Un] st1] |]; cbn [bind];
    [| reflexivity].
  rewrite (IH (S n) (S n')); [reflexivity |].
  destruct (String.eqb kind "diag"%string).
  - intros i Hi. specialize (H (S i)). rewrite !Nat.add_succ_r in H. simpl.
    apply H. simpl. lia.
  - intros _. apply H. discriminate.
Qed.
End FixedSystem.

Lemma as_array_float_nth (u : R) (x : list R) (i : nat) :
  (i < length x)%nat -> nth_error (as_array (UFloat u) x) i = Some (u * 1).
Proof.
  intros Hi. unfold as_array. rewrite map_map.
  rewrite nth_error_map. destruct (nth_error x i) eqn:E; [reflexivity |].
  apply nth_error_None in E. lia.
Qed.

(** what the two calls and the single call read from [Ux] agrees *)
Lemma split_Ux_reads (kind : string) (Ux : uncert) (x : list R) (k : nat) :
  String.eqb kind "diag"%string = true \/ (exists us, Ux = UArray us) ->
  let Ux1 := as_array (fst (split_Ux kind Ux k)) (firstn k x) in
  let Ux2 := as_array (snd (split_Ux kind Ux k)) (skipn k x) in
  let Uxw := as_array Ux x in
  (if String.eqb kind "diag"%string
   then forall i, (i < length (firstn k x))%nat ->
                  nth_error Ux1 (0 + i) = nth_error Uxw (0 + i)
   else firstn k x <> [] -> nth_error Ux1 0 = nth_error Uxw 0)
  /\ (if String.eqb kind "diag"%string
      then forall i, (i < length (skipn k x))%nat ->
                     nth_error Ux2 (0 + i) = nth_error Uxw (0 + length (firstn k x) + i)
      else skipn k x <> [] -> nth_error Ux2 0 = nth_error Uxw 0)
  /\ (String.eqb kind "diag"%string = false -> Ux1 = Uxw).
Proof.
  intros H Ux1 Ux2 Uxw. subst Ux1 Ux2 Uxw.
  destruct Ux as [u | us]; unfold split_Ux.
  - destruct H as [H | [us H]]; [| discriminate]. rewrite H. cbn [fst snd].
    split; [| split; [| discriminate]].
    + intros i Hi. cbn [Nat.add]. rewrite !as_array_float_nth; [reflexivity | | exact Hi].
      rewrite length_firstn in Hi. lia.
    + intros i Hi. cbn [Nat.add]. rewrite !as_array_float_nth; [reflexivity | | exact Hi].
      rewrite length_firstn. rewrite length_skipn in Hi. lia.
  - destruct (String.eqb kind "diag"%string); cbn [fst snd as_array].
    + split; [| split; [| discriminate]].
      * intros i Hi. cbn [Nat.add]. rewrite length_firstn in Hi.
        rewrite nth_error_firstn. destruct (Nat.ltb_spec i k); [reflexivity | lia].
      * intros i Hi. cbn [Nat.add]. rewrite length_skipn in Hi.
        rewrite nth_error_skipn, length_firstn. f_equal. lia.
    + split; [reflexivity |]. split; reflexivity.
Qed.

(** The round trip of C4 in the "diag" mode, or with [Ux] given as an
    array: the two calls on [x[:k]] and [x[k:]], the second one started from
    the state the first one returned, give the outputs of the single call on
    [x]; this includes the case that a call raises. *)
Theorem checkpoint_round_trip (x : list R) (Ux : uncert) (b a : list R)
  (Uab : option matrix) (kind : string) (k : nat) :
  kind = "diag"%string \/ (exists us, Ux = UArray us) ->
  two_calls x Ux b a Uab kind k = one_call x Ux b a Uab kind.
Proof.
  intros H.
  assert (H' : String.eqb kind "diag"%string = true \/ (exists us, Ux = UArray us)).
  { destruct H as [-> | H]; [left; reflexivity | right; exact H]. }
  destruct (split_Ux_reads kind Ux x k H') as [R1 [R2 R3]].
  unfold two_calls, one_call, outputs.
  destruct (split_Ux kind Ux k) as [Ux1 Ux2]. cbn [fst snd] in R1, R2, R3.
  unfold IIRuncFilter.
  destruct (match Uab with Some M => Ok M | None => _ end) as [U |]; cbn [bind];
    [| reflexivity].
  destruct (pad_b b a) as [b' |]; cbn [bind]; [| reflexivity].
  assert (Hinit : initial_state b' a (as_array Ux1 (firstn k x)) None kind
                  = initial_state b' a (as_array Ux x) None kind).
  { unfold initial_state. destruct (String.eqb kind "diag"%string); [reflexivity |].
    rewrite R3 by reflexivity. reflexivity. }
  rewrite Hinit.
  destruct (initial_state b' a (as_array Ux x) None kind) as [st |]; cbn [bind];
    [| reflexivity].
  destruct (st_system st) as [[[A bs] cT] b0] eqn:Esys.
  destruct (np_zeros2 _ 1) as [e |]; cbn [bind]; [| reflexivity].
  pose proof (iir_loop_app kind a (Z.of_nat (length a) - 1) A bs cT b0
                (st_corr_unc st) U (as_array Ux x) (firstn k x) (skipn k x) 0
                (mk_loop (st_z st) (st_dz st) (st_P st))) as Happ.
  rewrite firstn_skipn in Happ. rewrite Happ. clear Happ.
  rewrite (iir_loop_ext _ _ _ _ _ _ _ _ _ (as_array Ux1 (firstn k x)) (as_array Ux x)
             (firstn k x) 0 0) by exact R1.
  destruct (iir_loop kind a _ A bs cT b0 _ U (as_array Ux x) (firstn k x) 0 _)
    as [[[y1 U1] st1] |]; cbn [bind]; [| reflexivity].
  cbn [initial_state bind st_system st_corr_unc st_z st_dz st_P].
  rewrite (iir_loop_ext _ _ _ _ _ _ _ _ _ (as_array Ux2 (skipn k x)) (as_array Ux x)
             (skipn k x) 0 (0 + length (firstn k x))) by exact R2.
  destruct st1 as [z1 dz1 P1]. cbn [cur_z cur_dz cur_P].
  destruct (iir_loop kind a _ A bs cT b0 _ U (as_array Ux x) (skipn k x) _ _)
    as [[[y2 U2] st2] |]; cbn [bind]; [| reflexivity].
  rewrite map_app. reflexivity.
Qed.

End Checkpoint.

(** ** Worked examples on the first-order filter b = [1, 0], a = [1, 0] *)

Section PropagateExamples.
Import PropagateFilter Chunked FirstOrder.

(** bring the argument of [Rabs] to the value [v] *)
Ltac abs_to v :=
  repeat match goal with
  | |- context [Rabs ?e] =>
      lazymatch e with v => fail | _ => replace e with v by (field; lra) end
  end.

Ltac unfold_call :=
  unfold two_calls, one_call, outputs, IIRuncFilter, initial_state,
    get_initial_internal_state.

(** C8.  In the "corr" mode, without coefficient uncertainty and with an
    autocovariance that is zero, the output uncertainty is not zero:
    [_get_corr_unc] adds the Toeplitz matrix of the impulse response to the
    one of [Ux]. *)
Theorem IIRuncFilter_corr_zero_Ux_nonzero_Uy :
  IIRuncFilter [0; 0] (UArray [0; 0]) [1; 0] [1; 0] None None false "corr"%string
  = Ok ([0; 0], [sqrt 2; sqrt 2], None)
  /\ sqrt 2 <> 0.
Proof.
  split.
  - unfold_call. run. abs_to 2. rewrite (Rabs_pos_eq 2) by lra. real_values.
  - intros H. apply sqrt_eq_0 in H; lra.
Qed.

Lemma one_call_corr_float :
  one_call [0; 0; 0; 0] (UFloat 0) [1; 0] [1; 0] None "corr"%string
  = Ok ([0; 0; 0; 0], [2; 2; 2; 2]).
Proof.
  unfold_call. run. abs_to (2 * 2). rewrite (Rabs_pos_eq (2 * 2)) by lra.
  rewrite sqrt_square by lra. real_values.
Qed.

Lemma two_calls_corr_float :
  two_calls [0; 0; 0; 0] (UFloat 0) [1; 0] [1; 0] None "corr"%string 2
  = Ok ([0; 0; 0; 0], [sqrt 2; sqrt 2; sqrt 2; sqrt 2]).
Proof.
  unfold_call. run. abs_to 2. rewrite (Rabs_pos_eq 2) by lra. real_values.
Qed.

(** C4.  In the "corr" mode with a float [Ux] the round trip fails: the
    cached correlated contribution is the sum that [_get_corr_unc] takes
    over [Ux * np.ones_like(x)] (see C8), whose length is the length of the
    chunk. *)
Lemma checkpoint_round_trip_fails_corr_float :
  two_calls [0; 0; 0; 0] (UFloat 0) [1; 0] [1; 0] None "corr"%string 2
  <> one_call [0; 0; 0; 0] (UFloat 0) [1; 0] [1; 0] None "corr"%string.
Proof.
  rewrite two_calls_corr_float, one_call_corr_float. intros H.
  injection H as H. assert (Hsq : sqrt 2 * sqrt 2 = 2) by (apply sqrt_sqrt; lra).
  rewrite H in Hsq. lra.
Qed.

Lemma checkpoint_round_trip_witness :
  ("diag" = "diag" \/ exists us, UFloat (1 / 10) = UArray us)%string
  /\ two_calls [1; 2; 3] (UFloat (1 / 10)) [1 / 2] [1; -1 / 2] None "diag"%string 1
     = one_call [1; 2; 3] (UFloat (1 / 10)) [1 / 2] [1; -1 / 2] None "diag"%string.
Proof.
  split; [left; reflexivity |].
  apply checkpoint_round_trip. left. reflexivity.
Defined.

Lemma IIRuncFilter_unknown_kind_witness :
  "gauss"%string <> "diag"%string
  /\ IIRuncFilter [0; 0] (UArray [0; 0]) [1; 0] [1; 0] None None false "gauss"%string
     = Ok ([0; 0], [sqrt 2; sqrt 2], None).
Proof.
  split; [discriminate |].
  rewrite (IIRuncFilter_unknown_kind_is_corr _ _ _ _ _ _ _ "gauss"%string);
    [| discriminate].
  unfold_call. run. abs_to 2. rewrite (Rabs_pos_eq 2) by lra. real_values.
Defined.

(** C7, as stated, fails for a numerator longer than the denominator:
    [np.zeros((len(a) - len(b),))] raises. *)
Lemma IIRuncFilter_long_numerator_raises :
  let b : list R := [1; 2; 3] in
  let a : list R := [1; 0] in
  length b <> length a
  /\ IIRuncFilter [0] (UFloat 0) b a None None false "diag"%string = Raise ValueError.
Proof.
  split; [discriminate | reflexivity].
Qed.

Lemma IIRuncFilter_pads_short_numerator_witness :
  let b : list R := [1 / 2] in
  let a : list R := [1; -1 / 2] in
  (length b < length a)%nat
  /\ pad_b b a = Ok [1 / 2; 0]
  /\ IIRuncFilter [1; 2] (UFloat 0) b a None None false "diag"%string
     = IIRuncFilter [1; 2] (UFloat 0) [1 / 2; 0] a None None false "diag"%string.
Proof.
  intros b a. split; [apply le_n |].
  destruct (IIRuncFilter_pads_short_numerator [1; 2] (UFloat 0) b a None None false
              "diag"%string (le_n 2)) as [_ [H1 [H2 _]]].
  split; [exact H1 | exact H2].
Defined.

End PropagateExamples.

(** ** The propagation loop and the recursion of the specification *)

Section ColumnFacts.
Import Spec.

Local Abbreviation vm := (vecmat 0 Rplus Rmult).
Local Abbreviation vmw := (vecmat_w 0 Rplus Rmult).

Lemma rev_col (v : list R) : rev (col v) = col (rev v).
Proof. unfold col. symmetry. apply map_rev. Qed.

Lemma mscale_col (c : R) (v : list R) : mscale c (col v) = col (map (Rmult c) v).
Proof. unfold mscale, col. rewrite !map_map. reflexivity. Qed.

Lemma mneg_row (v : list R) : mneg [v] = [map Ropp v].
Proof. reflexivity. Qed.

Lemma mT_row (w : list R) : mT [w] = col w.
Proof. reflexivity. Qed.

Lemma mT_col (v : list R) : v <> [] -> mT (col v) = [v].
Proof.
  induction v as [| x v IH]; [congruence |]. intros _.
  destruct v as [| y v]; [reflexivity |].
  unfold mT in *. cbn [col map transpose] in *. rewrite IH by discriminate.
  reflexivity.
Qed.

Lemma madd_col (u v : list R) : madd (col u) (col v) = col (map2 Rplus u v).
Proof.
  revert v. induction u as [| x u IH]; intros [| y v]; try reflexivity.
  unfold madd, col in *. cbn [map map2]. rewrite IH. reflexivity.
Qed.

Lemma vecmat_col (u v : list R) : v <> [] -> vm u (col v) = [dotR u v].
Proof.
  intros Hv. unfold vecmat.
  assert (Hw : length (hd [] (col v)) = 1%nat) by (destruct v; [congruence | reflexivity]).
  rewrite Hw. clear Hw Hv. revert v.
  induction u as [| x u IH]; intros [| y v]; try reflexivity.
  cbn [col map vecmat_w]. fold (col v). rewrite IH. reflexivity.
Qed.

Lemma mmul_col (A : matrix) (v : list R) :
  v <> [] -> mmul A (col v) = col (matvec A v).
Proof.
  intros Hv. unfold mmul, matmul, matvec, col. rewrite map_map.
  apply map_ext. intros r. apply vecmat_col. exact Hv.
Qed.

Lemma mmul_row (r : list R) (M : matrix) : mmul [r] M = [vm r M].
Proof. reflexivity. Qed.

Lemma concat_col (v : list R) : concat (col v) = v.
Proof.
  unfold col. induction v as [| x v IH]; [reflexivity |].
  cbn [map concat app]. rewrite IH. reflexivity.
Qed.

Lemma outer_col (u v : list R) : outer (col u) (col v) = outerv u v.
Proof. unfold outer, outerv. rewrite !concat_col. reflexivity. Qed.

(** dot products *)
Lemma dotR_zeros (w : nat) (x : list R) : dotR (repeat 0 w) x = 0.
Proof.
  revert x. induction w as [| w IH]; intros [| e x]; try reflexivity.
  unfold dotR in *. cbn [repeat dot]. rewrite IH. ring.
Qed.

Lemma dotR_scale (c : R) (r x : list R) : dotR (map (Rmult c) r) x = c * dotR r x.
Proof.
  revert x. induction r as [| e r IH]; intros [| y x]; unfold dotR in *; cbn [map dot];
    try ring.
  rewrite IH. ring.
Qed.

Lemma dotR_plus (u v x : list R) :
  length u = length v ->
  dotR (map2 Rplus u v) x = dotR u x + dotR v x.
Proof.
  revert v x. induction u as [| a u IH]; intros [| b v] [| y x] H; unfold dotR in *;
    cbn [map2 dot]; try discriminate; try ring.
  rewrite IH by (simpl in H; lia). ring.
Qed.

Lemma length_vecmat_w (w : nat) (r : list R) (M : matrix) :
  Forall (fun row => length row = w) M -> length (vmw w r M) = w.
Proof.
  revert M. induction r as [| c r IH]; intros [| row M] H; cbn [vecmat_w];
    try apply repeat_length.
  inversion H as [| ? ? Hrow HM]; subst.
  rewrite length_map2, length_map, IH by assumption. apply Nat.min_id.
Qed.

Lemma dotR_vecmat_w (w : nat) (v : list R) (M : matrix) (x : list R) :
  Forall (fun row => length row = w) M ->
  dotR (vmw w v M) x = dotR v (matvec M x).
Proof.
  revert M. induction v as [| c v IH]; intros [| row M] H; cbn [vecmat_w matvec map].
  1-3: rewrite dotR_zeros; reflexivity.
  inversion H as [| ? ? Hrow HM]; subst.
  rewrite dotR_plus by (rewrite length_map, length_vecmat_w by assumption; reflexivity).
  rewrite dotR_scale, IH by assumption. reflexivity.
Qed.

Lemma shaped_width (n m : nat) (M : matrix) :
  shaped n m M -> (1 <= n)%nat -> length (hd [] M) = m.
Proof.
  intros [Hn Hr] H1. destruct M as [| r M]; [simpl in Hn; lia |].
  inversion Hr; subst. reflexivity.
Qed.

Lemma dotR_vecmat (n m : nat) (v : list R) (M : matrix) (x : list R) :
  shaped n m M -> (1 <= n)%nat ->
  dotR (vm v M) x = dotR v (matvec M x).
Proof.
  intros HM H1. unfold vecmat. rewrite (shaped_width n m M HM H1).
  apply dotR_vecmat_w. apply HM.
Qed.

(** transposition *)
Lemma vecmat_w_map2_cons (n : nat) (u r : list R) (T : matrix) :
  length r = length T ->
  vmw (S n) u (map2 cons r T) = dotR u r :: vmw n u T.
Proof.
  revert r T. induction u as [| x u IH]; intros r T H.
  - destruct r, T; reflexivity.
  - destruct r as [| y r], T as [| t T]; try discriminate; [reflexivity |].
    cbn [map2 vecmat_w map]. rewrite IH by (simpl in H; lia). reflexivity.
Qed.

Lemma shaped_cons (n m : nat) (r : list R) (M : matrix) :
  shaped (S n) m (r :: M) <-> length r = m /\ shaped n m M.
Proof.
  unfold shaped. split.
  - intros [Hl Hr]. inversion Hr; subst. simpl in Hl. repeat split; [lia | assumption].
  - intros [Hr [Hl HM]]. split; [simpl; lia | constructor; assumption].
Qed.

Lemma shaped_map2_cons (n m : nat) (r : list R) (T : matrix) :
  length r = m -> shaped m n T -> shaped m (S n) (map2 cons r T).
Proof.
  intros Hr [Hl HT]. split.
  - rewrite length_map2, Hr, Hl. apply Nat.min_id.
  - clear Hr Hl. revert r. induction HT as [| t T Ht HT IH]; intros [| y r]; cbn [map2];
      constructor; [simpl; lia | apply IH].
Qed.

Lemma transpose_shaped (n m : nat) (A : matrix) :
  shaped n m A -> (1 <= n)%nat -> (1 <= m)%nat -> shaped m n (transpose A).
Proof.
  revert n. induction A as [| r A IH]; intros n HA Hn Hm.
  - destruct HA as [Hl _]. simpl in Hl. lia.
  - destruct n as [| n]; [lia |]. apply shaped_cons in HA. destruct HA as [Hr HA].
    cbn [transpose]. destruct A as [| r' A].
    + destruct HA as [Hl _]. simpl in Hl. subst n. cbn [transpose cons_col]. split.
      * rewrite length_map. exact Hr.
      * apply Forall_map, Forall_forall. reflexivity.
    + assert (Hn' : (1 <= n)%nat) by (destruct HA as [Hl _]; simpl in Hl; lia).
      specialize (IH n HA Hn' Hm).
      assert (HT : transpose (r' :: A) <> []).
      { destruct IH as [Hl _]. intros E. rewrite E in Hl. simpl in Hl. lia. }
      unfold cons_col. destruct (transpose (r' :: A)) as [| t T] eqn:E; [congruence |].
      apply shaped_map2_cons; assumption.
Qed.

Lemma vecmat_transpose (n m : nat) (u : list R) (A : matrix) :
  shaped n m A -> (1 <= n)%nat -> (1 <= m)%nat ->
  vm u (mT A) = map (dotR u) A.
Proof.
  unfold mT. revert n. induction A as [| r A IH]; intros n HA Hn Hm.
  - destruct HA as [Hl _]. simpl in Hl. lia.
  - destruct n as [| n]; [lia |]. apply shaped_cons in HA. destruct HA as [Hr HA].
    cbn [transpose map]. destruct A as [| r' A].
    + cbn [transpose cons_col]. fold (col r). apply vecmat_col.
      destruct r; [simpl in Hr; lia | discriminate].
    + assert (Hn' : (1 <= n)%nat) by (destruct HA as [Hl _]; simpl in Hl; lia).
      pose proof (transpose_shaped n m (r' :: A) HA Hn' Hm) as HT.
      specialize (IH n HA Hn' Hm).
      remember (transpose (r' :: A)) as T eqn:ET.
      destruct T as [| t T].
      { destruct HT as [Hl _]. simpl in Hl. lia. }
      unfold cons_col. unfold vecmat at 1.
      assert (Hw : length (hd [] (map2 cons r (t :: T))) = S n).
      { destruct r as [| y r]; [simpl in Hr; lia |]. cbn [map2 hd length].
        destruct HT as [_ HT]. inversion HT; subst. lia. }
      rewrite Hw, vecmat_w_map2_cons by (destruct HT as [Hl _]; lia).
      f_equal. rewrite <- IH. unfold vecmat.
      rewrite (shaped_width m n (t :: T) HT Hm). reflexivity.
Qed.

Lemma mmul_sandwich (p : nat) (A P : matrix) :
  shaped p p A -> shaped p p P -> (1 <= p)%nat ->
  mmul (mmul A P) (mT A) = sandwich A P.
Proof.
  intros HA HP Hp. unfold mmul, matmul, sandwich. rewrite map_map.
  apply map_ext. intros ri.
  rewrite (vecmat_transpose p p) by assumption.
  apply map_ext. intros rj. apply (dotR_vecmat p p); assumption.
Qed.

Lemma map_seq_const {A : Type} (f : nat -> A) (c : A) (s n : nat) :
  (forall i, (s <= i < s + n)%nat -> f i = c) -> map f (seq s n) = repeat c n.
Proof.
  revert s. induction n as [| n IH]; intros s H; [reflexivity |].
  cbn [seq map repeat]. rewrite H by lia. f_equal. apply IH. intros i Hi. apply H. lia.
Qed.

Lemma last_row_only_zeros (p : nat) (v : list R) :
  (1 <= p)%nat -> last_row_only p v = zeros2 (p - 1) p ++ [v].
Proof.
  intros Hp. unfold last_row_only, zeros2.
  assert (E : seq 0 p = seq 0 (p - 1) ++ [(p - 1)%nat]).
  { replace p with (p - 1 + 1)%nat at 1 by lia. rewrite seq_app. reflexivity. }
  rewrite E, map_app. cbn [map]. rewrite Nat.eqb_refl. f_equal.
  apply map_seq_const. intros i Hi.
  destruct (Nat.eqb_spec i (p - 1)); [lia | reflexivity].
Qed.

End ColumnFacts.

Section MoreListFacts.

Lemma nonempty_length {T : Type} (l : list T) : (1 <= length l)%nat -> l <> [].
Proof. destruct l; simpl; [lia | discriminate]. Qed.

Lemma skipn_nth_error {T : Type} (l : list T) (n : nat) :
  (n < length l)%nat ->
  exists u, nth_error l n = Some u /\ skipn n l = u :: skipn (S n) l.
Proof.
  revert l. induction n as [| n IH]; intros [| e l] H; simpl in H; try lia.
  - exists e. split; reflexivity.
  - destruct (IH l) as [u [H1 H2]]; [lia |]. exists u. split; [exact H1 | exact H2].
Qed.

End MoreListFacts.

Section DiagRefinement.
Import PropagateFilter Spec.
Variables (a : list R) (A : matrix) (B C : list R) (d : R) (Uab : matrix) (p : nat).
Hypothesis Hp : (1 <= p)%nat.
Hypothesis Ha : length a = S p.
Hypothesis HA : shaped p p A.
Hypothesis HB : length B = p.
Hypothesis HC : length C = p.
Hypothesis HU : shaped (2 * p + 1) (2 * p + 1) Uab.

Lemma phi_of_col (z : list R) (dz P : matrix) (xn : R) :
  length z = p ->
  phi_of a [C] [[d]] (col z) dz xn = col (phi C d a (mk z dz P) xn).
Proof.
  intros Hz. unfold phi_of, phi. cbn [Spec.z Spec.dz item hd].
  assert (Hz' : z <> []) by (apply nonempty_length; lia).
  rewrite rev_col, mscale_col, mT_col.
  2: { apply nonempty_length. rewrite length_map, length_rev. lia. }
  rewrite mmul_row. cbn [msub map2]. rewrite mT_row.
  rewrite vecmat_col by exact Hz'.
  unfold col. rewrite !map_app. reflexivity.
Qed.

Lemma phi_nonempty (s : state) (xn : R) : phi C d a s xn <> [].
Proof. unfold phi. intros E. apply app_eq_nil in E. destruct E as [_ E]. discriminate. Qed.

Lemma iir_step_diag (Ux : list R) (corr : R) (n : nat) (xn u : R)
  (z : list R) (dz P : matrix) :
  nth_error Ux n = Some u ->
  length z = p -> shaped p p P ->
  iir_step "diag"%string a (Z.of_nat (length a) - 1) A (col B) [C] [[d]] corr Uab Ux n xn
    (mk_loop (col z) dz P)
  = Ok (y C d (mk z dz P) xn,
        Uy2 C d a Uab (mk z dz P) xn u,
        let s' := next A B (mk z dz P) xn u in
        mk_loop (col (Spec.z s')) (Spec.dz s') (Spec.P s')).
Proof.
  intros Hu Hz HP.
  assert (Hz' : z <> []) by (apply nonempty_length; lia).
  assert (HC' : C <> []) by (apply nonempty_length; lia).
  unfold iir_step. cbn [String.eqb Ascii.eqb Bool.eqb cur_z cur_dz cur_P].
  unfold index. rewrite Hu. cbn [bind].
  rewrite (phi_of_col z dz P xn Hz).
  rewrite mT_col by apply phi_nonempty.
  rewrite !mmul_row, !mT_row, !vecmat_col by (first [exact Hz' | exact HC' | apply phi_nonempty]).
  rewrite (dotR_vecmat (2 * p + 1) (2 * p + 1)) by (first [exact HU | lia]).
  rewrite (dotR_vecmat p p) by (first [exact HP | lia]).
  rewrite (mmul_sandwich p) by assumption.
  rewrite outer_col, rev_col, mT_col by (apply nonempty_length; rewrite length_rev; lia).
  rewrite mneg_row, mmul_col, mscale_col, madd_col by exact Hz'.
  unfold np_zeros2.
  destruct (Z.ltb_spec (Z.of_nat (length a) - 1 - 1) 0); [lia |].
  destruct (Z.ltb_spec (Z.of_nat (length a) - 1) 0); [lia |].
  cbn [orb bind].
  replace (Z.to_nat (Z.of_nat (length a) - 1 - 1)) with (p - 1)%nat by lia.
  replace (Z.to_nat (Z.of_nat (length a) - 1)) with p by lia.
  rewrite <- (last_row_only_zeros p) by exact Hp.
  unfold y, Uy2, next, quad. cbn [Spec.z Spec.dz Spec.P madd mscale map map2 item hd].
  rewrite Hz.
  f_equal. f_equal; [f_equal |].
  - ring.
  - unfold Rsqr. ring.
  - f_equal. f_equal. f_equal. unfold Rsqr. ring.
Qed.

Lemma next_invariant (s : state) (xn u : R) :
  length (Spec.z s) = p -> shaped p p (Spec.P s) ->
  length (Spec.z (next A B s xn u)) = p /\ shaped p p (Spec.P (next A B s xn u)).
Proof.
  intros Hz HP. unfold next. cbn [Spec.z Spec.P]. destruct HA as [HAl HAr]. split.
  - unfold matvec. rewrite length_map2, !length_map, HAl, HB. apply Nat.min_id.
  - unfold madd, sandwich, mscale, outerv. split.
    + rewrite length_map2, !length_map, HAl, HB. apply Nat.min_id.
    + assert (H1 : Forall (fun r : list R => length r = p)
                     (map (fun ri => map (fun rj => dotR ri (matvec (Spec.P s) rj)) A) A)).
      { apply Forall_map, Forall_forall. intros r _. rewrite length_map. exact HAl. }
      assert (H2 : Forall (fun r : list R => length r = p)
                     (map (map (Rmult (u ^ 2))) (map (fun x => map (Rmult x) B) B))).
      { apply Forall_map, Forall_map, Forall_forall. intros r _.
        rewrite !length_map. exact HB. }
      revert H1 H2.
      generalize (map (fun ri => map (fun rj => dotR ri (matvec (Spec.P s) rj)) A) A) as M1.
      generalize (map (map (Rmult (u ^ 2))) (map (fun x => map (Rmult x) B) B)) as M2.
      intros M2 M1 H1. revert M2.
      induction H1 as [| r1 M1 Hr1 H1 IH]; intros [| r2 M2] H2; cbn [map2];
        constructor.
      * inversion H2; subst. rewrite length_map2. lia.
      * apply IH. inversion H2; assumption.
Qed.

Lemma iir_loop_diag (Ux : list R) (corr : R) (xs : list R) (n : nat) (s : state) :
  length (Spec.z s) = p -> shaped p p (Spec.P s) ->
  (n + length xs <= length Ux)%nat ->
  iir_loop "diag"%string a (Z.of_nat (length a) - 1) A (col B) [C] [[d]] corr Uab Ux xs n
    (mk_loop (col (Spec.z s)) (Spec.dz s) (Spec.P s))
  = let '(ys, us, fin) := run A B C d a Uab (combine xs (skipn n Ux)) s in
    Ok (ys, us, mk_loop (col (Spec.z fin)) (Spec.dz fin) (Spec.P fin)).
Proof.
  revert n s. induction xs as [| xn xs IH]; intros n s Hz HP Hn.
  - reflexivity.
  - cbn [length] in Hn.
    destruct (skipn_nth_error Ux n) as [u [Hu Hs]]; [lia |].
    rewrite Hs. cbn [combine run iir_loop].
    destruct s as [z dz P]. cbn [Spec.z Spec.dz Spec.P] in *.
    rewrite (iir_step_diag Ux corr n xn u z dz P Hu Hz HP). cbn [bind].
    destruct (next_invariant (mk z dz P) xn u Hz HP) as [Hz' HP'].
    rewrite (IH (S n) (next A B (mk z dz P) xn u) Hz' HP') by lia.
    destruct (run A B C d a Uab (combine xs (skipn (S n) Ux)) (next A B (mk z dz P) xn u))
      as [[ys us] fin].
    reflexivity.
Qed.

End DiagRefinement.

Section DiagTheorem.
Import PropagateFilter Spec.
Context {scipy : SciPy}.

Lemma zeros2_shaped (n m : nat) : shaped n m (zeros2 n m).
Proof.
  unfold zeros2, zeros1. split; [apply repeat_length |].
  apply Forall_forall. intros r Hr. apply repeat_spec in Hr. subst r. apply repeat_length.
Qed.

(** a float [Ux] stands for the same uncertainty at every sample *)
Lemma as_array_float (u : R) (x : list R) : as_array (UFloat u) x = map (fun _ => u) x.
Proof. unfold as_array. rewrite map_map. apply map_ext. intros _. ring. Qed.

(** C3.  In the "diag" mode the call computes the recursion of the
    specification: for each sample, [y[n] = C^T z + b0 x[n]], the squared
    uncertainty [phi^T Uab phi + C^T P C + (b0 Ux[n])^2], then
    [P <- A P A^T + Ux[n]^2 B B^T], [dz <- A dz + (the matrix whose last row is
    -reverse(z))], [z <- A z + B x[n]], in this order, all three from the old
    [z] and [P]; at the end [Uy <- sqrt(|Uy|)].  [us] holds the [Ux[n]]: the
    float [Ux] at every sample, or the array [Ux].  The starting state
    [(z, dz, P)] with its realization [(A, B, C, b0)] is the given one or
    the computed one; all of it has the shapes of a filter of order [p]. *)
Theorem IIRuncFilter_diag_recursion (x : list R) (Ux : uncert) (us b b' a : list R)
  (Uab : option matrix) (init : option internal_state) (return_state : bool)
  (p : nat) (A : matrix) (B C : list R) (d : R) (z : list R) (dz P : matrix) (corr : R) :
  (1 <= p)%nat -> length a = S p ->
  pad_b b a = Ok b' ->
  (forall M, Uab = Some M -> shaped (2 * p + 1) (2 * p + 1) M) ->
  match Ux with
  | UFloat u => us = map (fun _ => u) x
  | UArray v => us = v
  end ->
  initial_state b' a us init "diag"%string
  = Ok (mk_state (col z) dz P (A, col B, [C], [[d]]) corr) ->
  shaped p p A -> length B = p -> length C = p ->
  length z = p -> shaped p p dz -> shaped p p P ->
  (length x <= length us)%nat ->
  let U := match Uab with Some M => M | None => zeros2 (2 * p + 1) (2 * p + 1) end in
  let '(ys, uys, fin) := run A B C d a U (combine x us) (mk z dz P) in
  IIRuncFilter x Ux b a Uab init return_state "diag"%string
  = Ok (ys, map (fun v => sqrt (Rabs v)) uys,
        if return_state
        then Some (mk_state (col (Spec.z fin)) (Spec.dz fin) (Spec.P fin)
                     (A, col B, [C], [[d]]) corr)
        else None).
Proof.
  intros Hp Ha Hb HU Hus Hinit HA HB HC Hz Hdz HP Hx U.
  assert (Harr : as_array Ux x = us).
  { destruct Ux as [u | v]; subst us; [apply as_array_float | reflexivity]. }
  assert (HUab : match Uab with
                 | Some M => Ok M
                 | None => np_zeros2 (2 * (Z.of_nat (length a) - 1) + 1)
                             (2 * (Z.of_nat (length a) - 1) + 1)
                 end = Ok U).
  { subst U. destruct Uab as [M |]; [reflexivity |]. unfold np_zeros2.
    destruct (Z.ltb_spec (2 * (Z.of_nat (length a) - 1) + 1) 0); [lia |].
    cbn [orb]. f_equal. f_equal; lia. }
  assert (HUs : shaped (2 * p + 1) (2 * p + 1) U).
  { subst U. destruct Uab as [M |]; [apply HU; reflexivity | apply zeros2_shaped]. }
  pose proof (iir_loop_diag a A B C d U p Hp Ha HA HB HC HUs us corr x 0
                (mk z dz P) Hz HP) as Hloop.
  cbn [Spec.z Spec.dz Spec.P skipn] in Hloop. specialize (Hloop Hx).
  destruct (run A B C d a U (combine x us) (mk z dz P)) as [[ys uys] fin].
  unfold IIRuncFilter. rewrite HUab. cbn [bind]. rewrite Hb. cbn [bind].
  rewrite Harr, Hinit. cbn [bind st_system st_corr_unc st_z st_dz st_P].
  unfold np_zeros2 at 1.
  destruct (Z.ltb_spec (2 * (Z.of_nat (length a) - 1) + 1) 0); [lia |].
  change (1 <? 0)%Z with false. cbn [orb bind].
  rewrite Hloop. cbn [bind cur_z cur_dz cur_P].
  destruct return_state; reflexivity.
Qed.

End DiagTheorem.

(** ** Zero uncertainty in, zero uncertainty out *)

Section ZeroFacts.
Import Spec.

Lemma zero_row_repeat (w : nat) : Forall (fun v : R => v = 0) (repeat 0 w).
Proof. apply Forall_forall. intros v Hv. apply repeat_spec in Hv. exact Hv. Qed.

Lemma zero_row_map2_plus (u v : list R) :
  Forall (fun v => v = 0) u -> Forall (fun v => v = 0) v ->
  Forall (fun v => v = 0) (map2 Rplus u v).
Proof.
  intros Hu. revert v. induction Hu as [| x u Hx Hu IH]; intros v Hv; [constructor |].
  destruct Hv as [| y v Hy Hv]; cbn [map2]; constructor; [subst; ring | apply IH, Hv].
Qed.

Lemma zero_row_scale (c : R) (r : list R) :
  c = 0 \/ Forall (fun v => v = 0) r -> Forall (fun v => v = 0) (map (Rmult c) r).
Proof.
  intros H. apply Forall_map, Forall_forall. intros v Hv.
  destruct H as [-> | H]; [ring |].
  rewrite Forall_forall in H. rewrite (H v Hv). ring.
Qed.

Lemma vecmat_w_zero_right (w : nat) (r : list R) (M : matrix) :
  all_zero M -> Forall (fun v => v = 0) (vecmat_w 0 Rplus Rmult w r M).
Proof.
  intros HM. revert r. induction HM as [| row M Hrow HM IH]; intros [| x r];
    cbn [vecmat_w]; try apply zero_row_repeat.
  apply zero_row_map2_plus; [apply zero_row_scale; right; exact Hrow | apply IH].
Qed.

Lemma vecmat_w_zero_left (w : nat) (r : list R) (M : matrix) :
  Forall (fun v => v = 0) r -> Forall (fun v => v = 0) (vecmat_w 0 Rplus Rmult w r M).
Proof.
  intros Hr. revert M. induction Hr as [| x r Hx Hr IH]; intros [| row M];
    cbn [vecmat_w]; try apply zero_row_repeat.
  apply zero_row_map2_plus; [apply zero_row_scale; left; exact Hx | apply IH].
Qed.

Lemma mmul_zero_right (X Z : matrix) : all_zero Z -> all_zero (mmul X Z).
Proof.
  intros HZ. unfold all_zero, mmul, matmul. apply Forall_map, Forall_forall.
  intros r _. apply vecmat_w_zero_right. exact HZ.
Qed.

Lemma mmul_zero_left (X Z : matrix) : all_zero X -> all_zero (mmul X Z).
Proof.
  intros HX. unfold all_zero, mmul, matmul in *. apply Forall_map.
  eapply Forall_impl; [| exact HX]. intros r Hr. apply vecmat_w_zero_left. exact Hr.
Qed.

Lemma madd_zero (X Y : matrix) : all_zero X -> all_zero Y -> all_zero (madd X Y).
Proof.
  intros HX. revert Y. induction HX as [| r X Hr HX IH]; intros Y HY; [constructor |].
  destruct HY as [| s Y Hs HY]; cbn [madd map2]; constructor;
    [apply zero_row_map2_plus; assumption | apply IH, HY].
Qed.

Lemma mscale_zero (c : R) (M : matrix) : c = 0 -> all_zero (mscale c M).
Proof.
  intros Hc. unfold all_zero, mscale. apply Forall_map, Forall_forall. intros r _.
  apply zero_row_scale. left. exact Hc.
Qed.

Lemma map_Rsqr_zero (M : matrix) : all_zero M -> all_zero (map (map Rsqr) M).
Proof.
  intros HM. unfold all_zero in *. apply Forall_map.
  eapply Forall_impl; [| exact HM]. intros r Hr. apply Forall_map.
  eapply Forall_impl; [| exact Hr]. intros v ->. unfold Rsqr. ring.
Qed.

Lemma item_zero (M : matrix) : all_zero M -> item M = 0.
Proof.
  intros HM. unfold item. destruct HM as [| r M Hr _]; [reflexivity |].
  destruct Hr as [| v r Hv _]; [reflexivity | exact Hv].
Qed.

Lemma zeros2_all_zero (n m : nat) : all_zero (zeros2 n m).
Proof.
  unfold all_zero, zeros2, zeros1. apply Forall_forall. intros r Hr.
  apply repeat_spec in Hr. subst r. apply zero_row_repeat.
Qed.

End ZeroFacts.

Section DiagZero.
Import PropagateFilter Spec.
Context {scipy : SciPy}.
Hypothesis lyapunov_zero :
  forall A Q X, solve_discrete_lyapunov A Q = Ok X -> all_zero Q -> all_zero X.

Lemma iir_loop_diag_zero (a : list R) (p : Z) (A bs cT b0 : matrix) (corr : R)
  (Uab : matrix) (Ux xs : list R) (n : nat) (st : loop_state) :
  (1 <= p)%Z ->
  all_zero Uab -> Forall (fun v => v = 0) Ux -> (n + length xs <= length Ux)%nat ->
  all_zero (cur_P st) ->
  exists ys Uys fin,
    iir_loop "diag"%string a p A bs cT b0 corr Uab Ux xs n st = Ok (ys, Uys, fin)
    /\ Forall (fun v => v = 0) Uys /\ length Uys = length xs.
Proof.
  intros Hp HU HUx. revert n st. induction xs as [| xn xs IH]; intros n st Hn HP.
  - exists [], [], st. repeat split. constructor.
  - cbn [length] in Hn. cbn [iir_loop]. unfold iir_step.
    cbn [String.eqb Ascii.eqb Bool.eqb]. unfold index.
    destruct (nth_error Ux n) as [u |] eqn:Eu.
    2: { apply nth_error_None in Eu. lia. }
    assert (Hu : u = 0).
    { rewrite Forall_forall in HUx. apply HUx. eapply nth_error_In. exact Eu. }
    cbn [bind]. unfold np_zeros2.
    destruct (Z.ltb_spec (p - 1) 0); [lia |].
    destruct (Z.ltb_spec p 0); [lia |]. cbn [orb bind].
    match goal with
    | |- context [iir_loop _ _ _ _ _ _ _ _ _ _ xs (S n) ?st1] =>
        destruct (IH (S n) st1) as [ys [Uys [fin [Hl [Hz Hlen]]]]]
    end.
    + lia.
    + cbn [cur_P]. apply madd_zero.
      * apply mmul_zero_left, mmul_zero_right. exact HP.
      * apply mscale_zero. subst u. unfold Rsqr. ring.
    + rewrite Hl. cbn [bind]. eexists _, _, _. split; [reflexivity |]. split.
      * constructor; [| exact Hz]. apply item_zero. apply madd_zero; [apply madd_zero |].
        -- apply mmul_zero_left, mmul_zero_right. exact HU.
        -- apply mmul_zero_left, mmul_zero_right. exact HP.
        -- apply map_Rsqr_zero, mscale_zero. exact Hu.
      * cbn [length]. rewrite Hlen. reflexivity.
Qed.

(** X6.  In the "diag" mode, started afresh, with exact coefficients and zero
    input uncertainty, the call returns zero uncertainties, provided that
    [b] can be padded, the initial state can be computed and has the shapes
    of the filter, and a given [Uab] is (2p+1) x (2p+1); the "corr" mode does
    not, see C8. *)
Lemma IIRuncFilter_diag_zero (x : list R) (Ux : uncert) (b a : list R)
  (Uab : option matrix) (return_state : bool) (b' : list R) (st0 : internal_state) :
  (2 <= length a)%nat ->
  pad_b b a = Ok b' ->
  get_initial_internal_state b' a 0 0 None = Ok st0 ->
  state_shaped (length a - 1) st0 ->
  (forall M, Uab = Some M ->
             shaped (2 * (length a - 1) + 1) (2 * (length a - 1) + 1) M) ->
  (forall M, Uab = Some M -> all_zero M) ->
  Forall (fun v => v = 0) (as_array Ux x) ->
  (length x <= length (as_array Ux x))%nat ->
  exists y Uy st,
    IIRuncFilter x Ux b a Uab None return_state "diag"%string = Ok (y, Uy, st)
    /\ Forall (fun v => v = 0) Uy /\ length Uy = length x.
Proof.
  intros Ha Hb Hinit _ _ HU HUx Hx.
  assert (HP0 : all_zero (st_P st0)).
  { unfold get_initial_internal_state in Hinit.
    destruct (_tf2ss b' a) as [[[[A B] C] D] |]; cbn [bind] in Hinit; [| discriminate].
    destruct (solve _ B) as [s |]; cbn [bind] in Hinit; [| discriminate].
    destruct (solve _ _) as [dzs |]; cbn [bind] in Hinit; [| discriminate].
    destruct (solve_discrete_lyapunov _ _) as [Ps |] eqn:EP; cbn [bind] in Hinit;
      [| discriminate].
    injection Hinit as <-. cbn [st_P]. apply (lyapunov_zero _ _ _ EP).
    apply mscale_zero. ring. }
  unfold IIRuncFilter.
  assert (HUab : exists U, match Uab with
                 | Some M => Ok M
                 | None => np_zeros2 (2 * (Z.of_nat (length a) - 1) + 1)
                             (2 * (Z.of_nat (length a) - 1) + 1)
                 end = Ok U /\ all_zero U).
  { destruct Uab as [M |].
    - exists M. split; [reflexivity | apply HU; reflexivity].
    - unfold np_zeros2.
      destruct (Z.ltb_spec (2 * (Z.of_nat (length a) - 1) + 1) 0); [lia |].
      cbn [orb]. eexists. split; [reflexivity | apply zeros2_all_zero]. }
  destruct HUab as [U [-> HUz]]. cbn [bind]. rewrite Hb. cbn [bind].
  unfold initial_state. cbn [String.eqb Ascii.eqb Bool.eqb]. rewrite Hinit. cbn [bind].
  destruct (st_system st0) as [[[A bs] cT] b0].
  unfold np_zeros2 at 1.
  destruct (Z.ltb_spec (2 * (Z.of_nat (length a) - 1) + 1) 0); [lia |].
  change (1 <? 0)%Z with false. cbn [orb bind].
  destruct (iir_loop_diag_zero a (Z.of_nat (length a) - 1) A bs cT b0 (st_corr_unc st0)
              U (as_array Ux x) x 0 (mk_loop (st_z st0) (st_dz st0) (st_P st0)))
    as [ys [Uys [fin [Hl [Hz Hlen]]]]]; try assumption; [lia |].
  rewrite Hl. cbn [bind].
  exists ys, (map (fun v => sqrt (Rabs v)) Uys).
  destruct return_state; (eexists; split; [reflexivity |]; split).
  1, 3: apply Forall_map; (eapply Forall_impl; [| exact Hz]);
        intros v ->; rewrite Rabs_R0; apply sqrt_0.
  1, 2: rewrite length_map; exact Hlen.
Qed.

End DiagZero.

Section DiagExamples.
Import PropagateFilter Spec FirstOrder.

(** the first-order low-pass b = [1/2], a = [1, -1/2], started afresh *)
Lemma initial_state_low_pass (Ux : list R) :
  initial_state [1 / 2; 0] [1; -1 / 2] Ux None "diag"%string
  = Ok (mk_state (col [0]) [[0]] [[0]] ([[1 / 2]], col [1], [[1 / 4]], [[1 / 2]]) 0).
Proof.
  unfold initial_state, get_initial_internal_state. run.
  apply f_equal. apply f_equal5; real_values.
Qed.

Lemma IIRuncFilter_diag_recursion_witness :
  let x : list R := [1; 2] in
  let us : list R := [1 / 10; 1 / 10] in
  let a : list R := [1; -1 / 2] in
  (1 <= 1)%nat
  /\ length a = 2%nat
  /\ pad_b [1 / 2] a = Ok [1 / 2; 0]
  /\ us = map (fun _ => 1 / 10) x
  /\ (length x <= length us)%nat
  /\ let '(ys, uys, fin) :=
       run [[1 / 2]] [1] [1 / 4] (1 / 2) a (zeros2 3 3) (combine x us)
         (mk [0] [[0]] [[0]]) in
     IIRuncFilter x (UFloat (1 / 10)) [1 / 2] a None None true "diag"%string
     = Ok (ys, map (fun v => sqrt (Rabs v)) uys,
           Some (mk_state (col (Spec.z fin)) (Spec.dz fin) (Spec.P fin)
                   ([[1 / 2]], col [1], [[1 / 4]], [[1 / 2]]) 0)).
Proof.
  intros x us a.
  split; [apply le_n |]. split; [reflexivity |]. split; [reflexivity |].
  split; [reflexivity |]. split; [apply le_n |].
  apply (IIRuncFilter_diag_recursion x (UFloat (1 / 10)) us [1 / 2] [1 / 2; 0] a None None
           true 1 [[1 / 2]] [1] [1 / 4] (1 / 2) [0] [[0]] [[0]] 0).
  - apply le_n.
  - reflexivity.
  - reflexivity.
  - intros M HM. discriminate HM.
  - reflexivity.
  - apply initial_state_low_pass.
  - split; [reflexivity | repeat constructor].
  - reflexivity.
  - reflexivity.
  - reflexivity.
  - split; [reflexivity | repeat constructor].
  - split; [reflexivity | repeat constructor].
  - apply le_n.
Defined.

(** The same call, evaluated: the outputs of the low-pass on the samples
    1, 2 with standard uncertainty 1/10. *)
Lemma IIRuncFilter_low_pass_values :
  IIRuncFilter [1; 2] (UFloat (1 / 10)) [1 / 2] [1; -1 / 2] None None false "diag"%string
  = Ok ([1 / 2; 5 / 4], [1 / 20; sqrt (1 / 320)], None).
Proof.
  unfold IIRuncFilter, initial_state, get_initial_internal_state. run. unfold Rsqr.
  match goal with
  | |- Ok (_, [sqrt (Rabs ?e1); sqrt (Rabs ?e2)], _) = _ =>
      replace e1 with (1 / 20 * (1 / 20)) by (field; lra);
      replace e2 with (1 / 320) by (field; lra)
  end.
  rewrite !Rabs_pos_eq by lra. rewrite sqrt_square by lra.
  real_values.
Qed.

End DiagExamples.

(** ** The shapes of the fitted coefficients *)

Section RectFacts.

Lemma length_vecmat_w_gen {T : Type} (zero : T) (add mul : T -> T -> T)
  (w : nat) (r : list T) (M : list (list T)) :
  rect w M -> length (vecmat_w zero add mul w r M) = w.
Proof.
  revert M. induction r as [| c r IH]; intros [| row M] H; cbn [vecmat_w];
    try apply repeat_length.
  inversion H as [| ? ? Hrow HM]; subst.
  rewrite length_map2, length_map, IH by assumption. apply Nat.min_id.
Qed.

Lemma rect_width {T : Type} (w : nat) (M : list (list T)) :
  rect w M -> M <> [] -> length (hd [] M) = w.
Proof. intros H HM. destruct H; [congruence | assumption]. Qed.

Lemma rect_matmul {T : Type} (zero : T) (add mul : T -> T -> T)
  (w : nat) (X M : list (list T)) :
  rect w M -> M <> [] -> rect w (matmul zero add mul X M).
Proof.
  intros HM Hne. unfold rect, matmul. apply Forall_map, Forall_forall. intros r _.
  unfold vecmat. rewrite (rect_width w M HM Hne). apply length_vecmat_w_gen, HM.
Qed.

Lemma rect_map {T U : Type} (g : list T -> list U) (w w' : nat) (M : list (list T)) :
  (forall r, length r = w -> length (g r) = w') -> rect w M -> rect w' (map g M).
Proof.
  intros Hg HM. unfold rect in *. apply Forall_map. eapply Forall_impl; [| exact HM].
  exact Hg.
Qed.

Lemma rect_map2_app {T : Type} (w1 w2 : nat) (M1 M2 : list (list T)) :
  rect w1 M1 -> rect w2 M2 -> rect (w1 + w2) (map2 (@app T) M1 M2).
Proof.
  intros H1. revert M2. induction H1 as [| r1 M1 Hr1 H1 IH]; intros M2 H2; [constructor |].
  destruct H2 as [| r2 M2 Hr2 H2]; cbn [map2]; constructor.
  - rewrite length_app. lia.
  - apply IH, H2.
Qed.

Lemma transpose_nonempty {T : Type} (M : list (list T)) :
  hd [] M <> [] -> transpose M <> [].
Proof.
  destruct M as [| r M]; [intros H; exfalso; apply H; reflexivity |].
  cbn [hd transpose]. intros Hr. unfold cons_col.
  destruct r as [| x r]; [congruence |].
  destruct (transpose M); discriminate.
Qed.

End RectFacts.

Section FitShapes.
Import FitFilter.
Context {numlib : NumLib}.
(** [np.linalg.lstsq(M, v)] returns one value per column of [M] *)
Hypothesis lstsq_length : forall M v, length (lstsq M v) = length (hd [] M).

Variables (Hvals : list C) (Nb Na : nat) (f : list R) (Fs : R).
Variables (max_stab_iter : Z) (inv : bool).
Hypothesis Hf : f <> [].
Hypothesis HH : length Hvals = length f.

Lemma E_of_rect : rect (Nat.max Nb Na + 1) (E_of Nb Na f Fs).
Proof.
  unfold E_of. apply (rect_map _ (Nat.max Nb Na + 1));
    [intros r Hr; rewrite length_map; exact Hr |].
  apply rect_matmul; [| discriminate].
  constructor; [| constructor]. rewrite length_map, length_seq. reflexivity.
Qed.

Lemma E_of_length : length (E_of Nb Na f Fs) = length f.
Proof. unfold E_of, w_of, mmul, matmul. rewrite !length_map. reflexivity. Qed.

Lemma _fitIIR_shapes (tau : Z) :
  let ba := fit Hvals Nb Na f Fs inv tau in
  length (fst ba) = (Nb + 1)%nat /\ length (snd ba) = (Na + 1)%nat /\ hd 0 (snd ba) = 1.
Proof.
  assert (HHne : Hvals <> []).
  { intros E0. rewrite E0 in HH. destruct f; [congruence | discriminate]. }
  unfold fit, _fitIIR. cbn [fst snd hd length].
  set (E := E_of Nb Na f Fs).
  set (Htau := map2 Cmul _ _).
  set (D := map2 (@app C) _ _).
  assert (HE : rect (Nat.max Nb Na + 1) E) by apply E_of_rect.
  assert (HEl : length E = length f) by apply E_of_length.
  assert (HEne : E <> []).
  { intros E0. rewrite E0 in HEl. destruct f; [congruence | discriminate]. }
  assert (HHt : Htau <> []).
  { subst Htau. unfold w_of. destruct f; [congruence |].
    destruct Hvals; [congruence |]. discriminate. }
  assert (HEa : rect Na (map (fun row : list C => firstn Na (skipn 1 row)) E)).
  { apply (rect_map _ (Nat.max Nb Na + 1)); [| exact HE].
    intros r Hr. rewrite length_firstn, length_skipn. lia. }
  assert (HEb : rect (Nb + 1) (map (map Cneg) (map (firstn (Nb + 1)) E))).
  { apply (rect_map _ (Nb + 1)); [intros r Hr; rewrite length_map; exact Hr |].
    apply (rect_map _ (Nat.max Nb Na + 1)); [| exact HE].
    intros r Hr. rewrite length_firstn. lia. }
  assert (HD : rect (Na + (Nb + 1)) D).
  { subst D. apply rect_map2_app; [| exact HEb].
    apply rect_matmul; [exact HEa |]. destruct E; [congruence | discriminate]. }
  assert (HDne : D <> []).
  { subst D. unfold cmmul, matmul, cdiag. destruct Htau; [congruence |].
    destruct E; [congruence |]. discriminate. }
  assert (Hab : length (lstsq (map (map Cre) (cmmul (map (map Cconj) (transpose D)) D))
                          (map (fun row => Cre (cdot row (map Cneg Htau)))
                               (map (map Cconj) (transpose D))))
                = (Na + (Nb + 1))%nat).
  { rewrite lstsq_length.
    assert (HT : transpose D <> []).
    { apply transpose_nonempty. intros E0.
      pose proof (rect_width _ _ HD HDne) as Hw. rewrite E0 in Hw. simpl in Hw. lia. }
    destruct (transpose D) as [| t T]; [congruence |].
    cbn [map hd cmmul matmul]. rewrite length_map. unfold vecmat.
    rewrite (rect_width _ _ HD HDne). apply length_vecmat_w_gen, HD. }
  split; [| split; [| reflexivity]].
  - rewrite length_skipn, Hab. lia.
  - rewrite length_firstn, Hab. lia.
Qed.

Lemma stab_while_is_fit (fuel : nat) (l l' : locals) :
  stab_while Hvals Nb Na f Fs max_stab_iter inv fuel l = Ok l' ->
  (exists t, (l_b l, l_a l) = fit Hvals Nb Na f Fs inv t) ->
  exists t, (l_b l', l_a l') = fit Hvals Nb Na f Fs inv t.
Proof.
  revert l. induction fuel as [| fuel IH]; intros l; cbn [stab_while].
  - destruct (l_unstable l && (l_current_stab_iter l <? max_stab_iter)%Z);
      intros [= <-] Hl; exact Hl.
  - destruct (l_unstable l && (l_current_stab_iter l <? max_stab_iter)%Z).
    2: { intros [= <-] Hl. exact Hl. }
    destruct (stab_body Hvals Nb Na f Fs inv l) as [l1 |] eqn:Eb; cbn [bind];
      [| discriminate].
    intros Hw _. apply (IH l1 Hw). unfold stab_body in Eb.
    destruct (grpdelay _ _ _) as [g1 |]; cbn [bind] in Eb; [| discriminate].
    destruct (grpdelay_of _ _ _) as [g2 |]; cbn [bind] in Eb; [| discriminate].
    match type of Eb with
    | context [fit Hvals Nb Na f Fs inv ?t] =>
        exists t; destruct (fit Hvals Nb Na f Fs inv t) as [b a]
    end.
    injection Eb as <-. reflexivity.
Qed.

End FitShapes.

Section CallShapes.
Import FitFilter.
Context {numlib : NumLib}.
Hypothesis lstsq_length : forall M v, length (lstsq M v) = length (hd [] M).

(** a covariance that is accepted belongs to at least one response value *)
Lemma accepted_nonempty (Hvals : list C) (UHvals : pyobj) (mc_runs : Z) :
  covariance_accepted Hvals UHvals mc_runs -> Hvals <> [].
Proof.
  intros [Ht Hmc] ->. unfold multivariate_normal in Hmc. cbn [map app length] in Hmc.
  assert (Hrows : rows_of UHvals <> []).
  { destruct UHvals as [| rows | rows]; cbn [truthy rows_of] in *.
    - discriminate.
    - destruct rows; [discriminate Ht | discriminate].
    - destruct rows; [discriminate Ht | discriminate]. }
  destruct (rows_of UHvals); [congruence | discriminate Hmc].
Qed.

(** X10.  Whenever [LSIIR] returns, the coefficient vectors have the lengths
    [Nb + 1] and [Na + 1], and [a[0] == 1]. *)
Lemma LSIIR_shapes (Hvals : list C) (Nb Na : nat) (f : list R) (Fs : R) (tau : Z)
  (justFit verbose : bool) (max_stab_iter : Z) (inv : bool) (UHvals : pyobj)
  (mc_runs : Z) (b a : list R) (tau' : Z) :
  LSIIR Hvals Nb Na f Fs tau justFit verbose max_stab_iter inv UHvals mc_runs
  = Ok (b, a, tau') ->
  length b = (Nb + 1)%nat /\ length a = (Na + 1)%nat /\ hd 0 a = 1.
Proof.
  unfold LSIIR.
  destruct (truthy UHvals) as [[|] |] eqn:Ht; cbn [bind].
  2: { destruct verbose; discriminate. }
  2: { discriminate. }
  destruct (multivariate_normal _ _ _) as [[] |] eqn:Hmc; cbn [bind]; [| discriminate].
  destruct (Nat.eqb_spec (length Hvals) (length f)) as [HH |]; cbn [negb];
    [| discriminate].
  assert (Hf : f <> []).
  { pose proof (accepted_nonempty Hvals UHvals mc_runs (conj Ht Hmc)) as Hne.
    intros ->. destruct Hvals; [congruence | discriminate HH]. }
  pose proof (_fitIIR_shapes lstsq_length Hvals Nb Na f Fs inv Hf HH) as Hfit.
  pose proof (Hfit tau) as Hfit0. cbv zeta in Hfit0.
  destruct (fit Hvals Nb Na f Fs inv tau) as [b0 a0] eqn:Efit. cbn [fst snd] in Hfit0.
  destruct justFit.
  - intros [= <- <- _]. exact Hfit0.
  - destruct (stab_while _ _ _ _ _ _ _ _ _) as [l |] eqn:Ew; cbn [bind]; [| discriminate].
    intros [= <- <- _].
    destruct (stab_while_is_fit Hvals Nb Na f Fs max_stab_iter inv _ _ _ Ew) as [t Ht'].
    + exists tau. cbn [l_b l_a]. symmetry. exact Efit.
    + pose proof (Hfit t) as Hfit'. cbv zeta in Hfit'.
      rewrite <- Ht' in Hfit'. exact Hfit'.
Qed.

End CallShapes.

(** ** The derivative of the realization *)

Section Derivative.
Import PropagateFilter Spec.

Lemma length_upd {T : Type} (l : list T) (i : nat) (f : T -> T) :
  length (upd l i f) = length l.
Proof.
  revert i. induction l as [| x l IH]; intros [| i]; cbn [upd length]; try reflexivity.
  rewrite IH. reflexivity.
Qed.

Lemma nth_upd {T : Type} (l : list T) (i k : nat) (f : T -> T) (d : T) :
  (k < length l)%nat ->
  nth i (upd l k f) d = if Nat.eqb i k then f (nth i l d) else nth i l d.
Proof.
  revert i k. induction l as [| x l IH]; intros i k H; [simpl in H; lia |].
  destruct k as [| k], i as [| i]; cbn [upd nth Nat.eqb]; try reflexivity.
  apply IH. simpl in H. lia.
Qed.

Lemma upd_repeat_last {T : Type} (c : T) (n : nat) (f : T -> T) :
  upd (repeat c (S n)) n f = repeat c n ++ [f c].
Proof.
  induction n as [| n IH]; [reflexivity |].
  cbn [repeat upd app] in *. rewrite IH. reflexivity.
Qed.

Lemma tl_upd {T : Type} (l : list T) (k : nat) (f : T -> T) :
  tl (upd l (S k) f) = upd (tl l) k f.
Proof. destruct l; [destruct k |]; reflexivity. Qed.

Lemma map2_app {U V W : Type} (f : U -> V -> W) (u1 u2 : list U) (v1 v2 : list V) :
  length u1 = length v1 ->
  map2 f (u1 ++ u2) (v1 ++ v2) = map2 f u1 v1 ++ map2 f u2 v2.
Proof.
  revert v1. induction u1 as [| x u1 IH]; intros [| y v1] H; try discriminate;
    [reflexivity |].
  cbn [app map2]. rewrite IH by (simpl in H; lia). reflexivity.
Qed.

Lemma madd_scaled_zeros (t : R) (n m : nat) (E : matrix) :
  Spec.shaped n m E -> madd E (mscale t (zeros2 n m)) = E.
Proof.
  revert n. induction E as [| r E IH]; intros n HE.
  - destruct n; reflexivity.
  - destruct HE as [Hl Hr]. destruct n as [| n]; [simpl in Hl; lia |].
    inversion Hr as [| ? ? Hrow HE]; subst.
    unfold madd, mscale, zeros2 in *. cbn [repeat map map2].
    rewrite (IH n) by (split; [simpl in Hl; lia | assumption]). f_equal.
    unfold zeros1. clear. induction r as [| x r IHr]; [reflexivity |].
    cbn [length repeat map map2]. rewrite IHr. f_equal. ring.
Qed.

Lemma eye_nat_shaped (n m k : nat) : Spec.shaped n m (eye_nat n m k).
Proof.
  unfold eye_nat. split; [rewrite length_map, length_seq; reflexivity |].
  apply Forall_map, Forall_forall. intros i _. rewrite length_map, length_seq. reflexivity.
Qed.

Lemma A_of_eq (b a : list R) :
  length b = length a -> (2 <= length a)%nat ->
  A_of b a = eye_nat (length a - 2) (length a - 1) 1 ++ [map Ropp (rev (tl a))].
Proof.
  intros Hb Ha. unfold A_of, _tf2ss, np_eye, np_zeros2.
  destruct (Z.ltb_spec (Z.of_nat (length a) - 1 - 1) 0); [lia |].
  destruct (Z.ltb_spec (Z.of_nat (length a) - 1) 0); [lia |].
  change (1 <? 0)%Z with false. cbn [orb bind].
  replace (Z.to_nat (Z.of_nat (length a) - 1 - 1)) with (length a - 2)%nat by lia.
  replace (Z.to_nat (Z.of_nat (length a) - 1)) with (S (length a - 2))%nat by lia.
  unfold set_last_row, zeros2. rewrite rev_repeat. cbn [repeat bind].
  destruct b as [| b0 b]; [simpl in Hb; lia |]. cbn [first bind tl].
  unfold np_sub1. rewrite length_map, length_tl.
  assert (E : Nat.eqb (length b) (length a - 1) = true)
    by (apply Nat.eqb_eq; simpl in Hb; lia).
  rewrite E. cbn [bind].
  replace (S (length a - 2)) with (length a - 1)%nat by lia. reflexivity.
Qed.

(** X8.  [_get_derivative_A p] holds the partial derivatives of [A] with respect
    to the denominator coefficients [a[1]], ..., [a[p]]: [A] is affine in [a],
    and moving [a[k+1]] by [t] moves [A] by [t * dA[k]]. *)
Lemma derivative_A_is_partial_derivative (b a : list R) (k : nat) (t : R) :
  length b = length a -> (2 <= length a)%nat -> (k < length a - 1)%nat ->
  A_of b (perturb a (S k) t)
  = madd (A_of b a) (mscale t (nth k (_get_derivative_A (length a - 1)) [])).
Proof.
  intros Hb Ha Hk. set (p := (length a - 1)%nat).
  unfold perturb. rewrite !A_of_eq by (rewrite ?length_upd; assumption).
  rewrite length_upd, tl_upd. fold p.
  replace (length a - 2)%nat with (p - 1)%nat by lia.
  unfold _get_derivative_A. rewrite nth_map_seq by exact Hk.
  unfold set_entry, zeros2.
  assert (E : repeat (zeros1 p) p = repeat (zeros1 p) (S (p - 1))) by (f_equal; lia).
  rewrite E, upd_repeat_last. clear E. unfold mscale, madd. rewrite map_app, map2_app.
  2: { rewrite length_map, repeat_length. apply eye_nat_shaped. }
  fold (zeros2 (p - 1) p). fold (mscale t (zeros2 (p - 1) p)).
  fold (madd (eye_nat (p - 1) p 1) (mscale t (zeros2 (p - 1) p))).
  rewrite madd_scaled_zeros by apply eye_nat_shaped.
  f_equal. cbn [map map2]. f_equal.
  assert (Hl : length (tl a) = p) by (rewrite length_tl; reflexivity).
  apply (nth_ext _ _ 0 0).
  - rewrite length_map2, !length_map, !length_rev, !length_upd, Hl.
    unfold zeros1. rewrite repeat_length. lia.
  - intros j Hj. rewrite length_map, length_rev, length_upd, Hl in Hj.
    rewrite (nth_map2 _ _ _ _ 0 0).
    2: rewrite length_map, length_rev, Hl; exact Hj.
    2: rewrite length_map, length_upd; unfold zeros1; rewrite repeat_length; exact Hj.
    rewrite (nth_indep (map Ropp (rev (upd _ _ _))) 0 (- 0))
      by (rewrite length_map, length_rev, length_upd, Hl; exact Hj).
    rewrite (nth_indep (map Ropp (rev (tl a))) 0 (- 0))
      by (rewrite length_map, length_rev, Hl; exact Hj).
    rewrite (nth_indep (map (Rmult t) _) 0 (t * 0))
      by (rewrite length_map, length_upd; unfold zeros1; rewrite repeat_length; exact Hj).
    rewrite !map_nth.
    rewrite !rev_nth by (rewrite ?length_upd, Hl; exact Hj).
    rewrite length_upd, Hl.
    rewrite !nth_upd by (unfold zeros1; rewrite ?repeat_length, ?Hl; lia).
    unfold zeros1. rewrite nth_repeat.
    destruct (Nat.eqb_spec (p - S j) k) as [E1 | E1];
      destruct (Nat.eqb_spec j (p - (k + 1))) as [E2 | E2]; try lia; ring.
Qed.

End Derivative.

Section SparseDerivative.
Import PropagateFilter Spec.

Lemma map_nth_seq {T U : Type} (g : T -> U) (w : list T) (d : T) :
  map (fun i => g (nth i w d)) (seq 0 (length w)) = map g w.
Proof.
  apply (nth_ext _ _ (g d) (g d)).
  - rewrite !length_map, length_seq. reflexivity.
  - intros i Hi. rewrite length_map, length_seq in Hi.
    rewrite (nth_map_seq (fun i => g (nth i w d))) by exact Hi.
    rewrite map_nth. reflexivity.
Qed.

Lemma map2_map_map {T U V W : Type} (h : U -> V -> W) (g1 : T -> U) (g2 : T -> V)
  (l : list T) :
  map2 h (map g1 l) (map g2 l) = map (fun i => h (g1 i) (g2 i)) l.
Proof. induction l as [| x l IH]; [reflexivity |]. cbn [map map2]. rewrite IH. reflexivity. Qed.

(** the columns [w] side by side: row [i] collects the entries [w[i]] *)
Lemma hstack_cols (ws : list (list R)) (n : nat) :
  ws <> [] -> Forall (fun w => length w = n) ws ->
  hstack (map col ws) = map (fun i => map (fun w => nth i w 0) ws) (seq 0 n).
Proof.
  induction ws as [| w ws IH]; [congruence |]. intros _ H.
  inversion H as [| ? ? Hw Hws]; subst.
  destruct ws as [| w' ws].
  - cbn [map hstack]. unfold col. symmetry.
    apply (map_nth_seq (fun e => [e])).
  - change (hstack (map col (w :: w' :: ws)))
      with (map2 (@app R) (col w) (hstack (map col (w' :: ws)))).
    rewrite IH by (try discriminate; exact Hws).
    unfold col. rewrite <- (map_nth_seq (fun e => [e]) w 0).
    rewrite map2_map_map. reflexivity.
Qed.

Lemma dotR_unit (n j : nat) (c : R) (v : list R) :
  (j < n)%nat -> length v = n ->
  dotR (upd (repeat 0 n) j (fun _ => c)) v = c * nth j v 0.
Proof.
  revert j v. induction n as [| n IH]; intros j v Hj Hv; [lia |].
  destruct v as [| e v]; [discriminate |]. unfold dotR in *.
  destruct j as [| j]; cbn [repeat upd dot nth].
  - fold (dotR (repeat 0 n) v). rewrite dotR_zeros. ring.
  - rewrite IH by (simpl in Hv; lia). ring.
Qed.

Lemma matvec_derivative (p k : nat) (zv : list R) :
  (k < p)%nat -> length zv = p ->
  matvec (nth k (_get_derivative_A p) []) zv
  = repeat 0 (p - 1) ++ [-1 * nth (p - (k + 1)) zv 0].
Proof.
  intros Hk Hz. unfold _get_derivative_A. rewrite nth_map_seq by exact Hk.
  unfold set_entry, zeros2.
  assert (E : repeat (zeros1 p) p = repeat (zeros1 p) (S (p - 1))) by (f_equal; lia).
  rewrite E, upd_repeat_last. clear E.
  unfold matvec. rewrite map_app, map_repeat. cbn [map]. unfold zeros1.
  rewrite dotR_zeros. rewrite dotR_unit; [reflexivity | lia | exact Hz].
Qed.

(** The products [dA[k] z] side by side are the matrix that the loop of
    [IIRuncFilter] builds directly: zero but for the last row [-reverse(z)]. *)
Lemma hstack_derivative_sparse (zv : list R) :
  (1 <= length zv)%nat ->
  hstack (map (fun dAk => mmul dAk (col zv)) (_get_derivative_A (length zv)))
  = zeros2 (length zv - 1) (length zv) ++ [map Ropp (rev zv)].
Proof.
  intros Hp.
  assert (Hz : zv <> []) by (destruct zv; [simpl in Hp; lia | discriminate]).
  set (p := length zv) in *.
  assert (Hws : map (fun dAk => mmul dAk (col zv)) (_get_derivative_A p)
                = map col (map (fun k => repeat 0 (p - 1)
                                          ++ [-1 * nth (p - (k + 1)) zv 0]) (seq 0 p))).
  { unfold _get_derivative_A at 1. rewrite !map_map. apply map_ext_in. intros k Hk.
    apply in_seq in Hk. rewrite mmul_col by exact Hz. f_equal.
    rewrite <- (matvec_derivative p k zv) by (first [lia | reflexivity]).
    unfold _get_derivative_A. rewrite nth_map_seq by lia. reflexivity. }
  rewrite Hws. rewrite (hstack_cols _ p).
  2: { destruct p; [lia | discriminate]. }
  2: { apply Forall_map, Forall_forall. intros k _.
       rewrite length_app, repeat_length. simpl. lia. }
  rewrite <- last_row_only_zeros by exact Hp. unfold last_row_only.
  apply map_ext_in. intros i Hi. apply in_seq in Hi. rewrite map_map.
  destruct (Nat.eqb_spec i (p - 1)) as [-> | Hne].
  - apply (nth_ext _ _ 0 0).
    + rewrite !length_map, length_seq, length_rev. reflexivity.
    + intros k Hk. rewrite length_map, length_seq in Hk.
      rewrite (nth_map_seq _ p k 0 Hk).
      rewrite app_nth2 by (rewrite repeat_length; lia).
      rewrite repeat_length, Nat.sub_diag. cbn [nth].
      rewrite (nth_indep (map Ropp (rev zv)) 0 (- 0)) by (rewrite length_map, length_rev; exact Hk).
      rewrite map_nth, rev_nth by exact Hk. fold p.
      replace (p - (k + 1))%nat with (p - S k)%nat by lia. ring.
  - unfold zeros1. apply map_seq_const. intros k Hk.
    rewrite app_nth1 by (rewrite repeat_length; lia). apply nth_repeat.
Qed.

End SparseDerivative.

(** * The FIR fits and the callers of [LSIIR] *)

Section Callers.
Import Complex FitFilter FitFIR.
Context {numlib : NumLib}.

(** X13.  [invLSIIR] passes no covariance on to [LSIIR]: every call raises. *)
Theorem invLSIIR_always_raises (Hvals : list C) (Nb Na : nat) (f : list R) (Fs : R)
  (tau : Z) (justFit verbose : bool) :
  invLSIIR Hvals Nb Na f Fs tau justFit verbose = Raise UnboundLocalError.
Proof.
  unfold invLSIIR, LSIIR. simpl. destruct verbose; reflexivity.
Qed.

Lemma multivariate_normal_raises (mean : list R) (cov : matrix) (size : Z) (e : exn) :
  multivariate_normal mean cov size = Raise e -> e = ValueError.
Proof.
  unfold multivariate_normal.
  destruct (_ && _); [destruct (size <? 0)%Z |]; congruence.
Qed.

Lemma broadcast1_raises {U V W : Type} (g : U -> V -> W) (u : list U) (v : list V) (e : exn) :
  broadcast1 g u v = Raise e -> e = ValueError.
Proof.
  unfold broadcast1. destruct (Nat.eqb _ _); [discriminate |].
  destruct u as [| x [| x' u]]; destruct v as [| y [| y' v]]; congruence.
Qed.

Lemma mapM_raises {A B : Type} (g : A -> result B) (P : exn -> Prop) (l : list A) (e : exn) :
  (forall x e', g x = Raise e' -> P e') -> mapM g l = Raise e -> P e.
Proof.
  intros Hg. induction l as [| x l IH]; cbn [mapM]; [discriminate |].
  destruct (g x) as [y |] eqn:Ey; cbn [bind].
  - destruct (mapM g l); cbn [bind]; [discriminate |].
    intros [= <-]. apply IH. reflexivity.
  - intros [= <-]. eapply Hg. exact Ey.
Qed.

(** X14.  [invLSIIR_unc] never returns: when the draws are made, the first pass of
    the Monte Carlo loop calls [invLSIIR], which raises. *)
Theorem invLSIIR_unc_never_returns (HRI : matrix) (H : list C) (UH : matrix)
  (Nb Na : nat) (f : list R) (Fs : R) (tau : Z) :
  invLSIIR_unc HRI H UH Nb Na f Fs tau = Raise ValueError
  \/ invLSIIR_unc HRI H UH Nb Na f Fs tau = Raise IndexError
  \/ invLSIIR_unc HRI H UH Nb Na f Fs tau = Raise UnboundLocalError.
Proof.
  unfold invLSIIR_unc.
  destruct (multivariate_normal _ _ _) as [[] | e] eqn:Emc; cbn [bind].
  2: { left. apply multivariate_normal_raises in Emc. subst e. reflexivity. }
  destruct (mapM (complex_of_draw (length f)) HRI) as [HH | e] eqn:EHH; cbn [bind].
  2: { left. f_equal.
       apply (mapM_raises _ (fun e => e = ValueError) _ _
                (fun x e' => broadcast1_raises _ _ _ e') EHH). }
  replace (Z.to_nat 1000) with (S (Z.to_nat 999)) by (rewrite <- Z2Nat.inj_succ; [reflexivity | lia]).
  cbn [seq mapM nth_error].
  destruct HH as [| Hk HH]; cbn [bind].
  - right. left. reflexivity.
  - right. right. unfold invLSIIR, LSIIR. reflexivity.
Qed.

End Callers.

Section FIRFits.
Import Complex FitFilter FitFIR.
Context {numlib : NumLib}.

(** X19.  In [invLSFIR_uncMC] a weight vector given as an ndarray is never used:
    [wt.shape != 2 * Nf] compares a tuple with an [int], so the call raises
    [ValueError] whatever the length of [wt] is. *)
Theorem invLSFIR_uncMC_weights_always_raise (HRI : matrix) (H : list C) (UH : matrix)
  (N : nat) (tau : R) (f : list R) (Fs : R) (w : list R) :
  invLSFIR_uncMC HRI H UH N tau f Fs (Some w) = Raise ValueError.
Proof.
  unfold invLSFIR_uncMC.
  destruct (multivariate_normal _ _ _) as [[] | e] eqn:Emc; cbn [bind].
  - reflexivity.
  - apply multivariate_normal_raises in Emc. subst e. reflexivity.
Qed.

(** X15.  [LSFIR] computes what [invLSFIR] computes, the fit to the reciprocal
    [1 / H]: a call of one returns [b] exactly when the call of the other
    does (and [b] has [N + 1] entries). *)
Theorem LSFIR_is_invLSFIR (H : list C) (N : nat) (tau : R) (f : list R) (Fs : R)
  (Wt : option weights) (b : list R) :
  LSFIR H N tau f Fs Wt = Ok b
  <-> invLSFIR H N tau f Fs Wt = Ok b /\ length b = (N + 1)%nat.
Proof.
  unfold LSFIR, invLSFIR.
  destruct (weighted Wt f _) as [X |]; cbn [bind]; [| split; [| intros []]; discriminate].
  destruct (reciprocal_rhs H tau f Fs) as [iRI |]; cbn [bind];
    [| split; [| intros []]; discriminate].
  destruct (np_lstsq X iRI) as [bFIR |]; cbn [bind]; [| split; [| intros []]; discriminate].
  destruct (Nat.eqb_spec (length bFIR) (N + 1)) as [E | E].
  - split; [intros [= <-]; split; [reflexivity | exact E] | intros [[= <-] _]; reflexivity].
  - split; [discriminate | intros [[= <-] E']; contradiction].
Qed.

Lemma length_design (N : nat) (f : list R) (Fs : R) :
  length (design N f Fs) = length f.
Proof. unfold design, mmul, matmul. rewrite !length_map. reflexivity. Qed.

Lemma length_np_diag2 (W : matrix) :
  length (np_diag2 W) = Nat.min (length W) (length (hd [] W)).
Proof. unfold np_diag2. rewrite length_map, length_seq. reflexivity. Qed.

Lemma length_broadcast1_same {U V W : Type} (g : U -> V -> W) (u : list U) (v : list V) :
  length u = length v ->
  exists r, broadcast1 g u v = Ok r /\ length r = length v.
Proof.
  intros E. unfold broadcast1. rewrite E, Nat.eqb_refl.
  eexists. split; [reflexivity |]. rewrite length_map2, E. apply Nat.min_id.
Qed.

(** X18.  A weight matrix, which the docstring of [LSFIR] allows, makes the fit
    raise as soon as there are two frequencies: [np.diag(Wt)] is the
    diagonal of [Wt], a vector, the weighted design matrix has two rows,
    and [lstsq] refuses it against the 2M right-hand sides. *)
Theorem LSFIR_matrix_weights_raise (H : list C) (N : nat) (tau : R) (f : list R) (Fs : R)
  (W : matrix) :
  length H = length f -> length W = length f -> length (hd [] W) = length f ->
  (2 <= length f)%nat ->
  LSFIR H N tau f Fs (Some (W2 W)) = Raise LinAlgError
  /\ invLSFIR H N tau f Fs (Some (W2 W)) = Raise LinAlgError.
Proof.
  intros HH HW HW' Hf.
  assert (HX : weighted (Some (W2 W)) f (design N f Fs)
               = Ok [map Cre (vecmat (RtoC 0) Cadd Cmul (map RtoC (np_diag2 W)) (design N f Fs));
                     map Cim (vecmat (RtoC 0) Cadd Cmul (map RtoC (np_diag2 W)) (design N f Fs))]).
  { unfold weighted. rewrite length_np_diag2, HW, HW', Nat.min_id.
    rewrite length_design, Nat.eqb_refl. reflexivity. }
  assert (Hrhs : exists iRI, reciprocal_rhs H tau f Fs = Ok iRI
                             /\ length iRI = (2 * length f)%nat).
  { unfold reciprocal_rhs.
    destruct (length_broadcast1_same Cmul H
                (map (fun wi => Cexp (Cmul (Cmul Ci (RtoC wi)) (RtoC tau)))
                     (map (fun fi => 2 * PI * fi / Fs) f))) as [Hs [-> HHs]].
    { rewrite !length_map. exact HH. }
    cbn [bind]. eexists. split; [reflexivity |].
    rewrite length_app, !length_map, HHs, !length_map. lia. }
  destruct Hrhs as [iRI [Hrhs Hlen]].
  unfold LSFIR, invLSFIR. rewrite HX, Hrhs. cbn [bind].
  unfold np_lstsq. cbn [length]. rewrite Hlen.
  destruct (Nat.eqb_spec 2 (2 * length f)); [lia |]. split; reflexivity.
Qed.

End FIRFits.

Section UnitRows.
Context {T : Type} (zero : T) (add mul : T -> T -> T).
Hypothesis add_zero_r : forall x, add x zero = x.
Hypothesis add_zero_l : forall x, add zero x = x.

Lemma map2_add_zeros_r (row : list T) :
  map2 add row (repeat zero (length row)) = row.
Proof. induction row as [| x row IH]; cbn; [reflexivity |]. rewrite add_zero_r, IH. reflexivity. Qed.

Lemma map2_add_zeros_l (row : list T) :
  map2 add (repeat zero (length row)) row = row.
Proof. induction row as [| x row IH]; cbn; [reflexivity |]. rewrite add_zero_l, IH. reflexivity. Qed.

Lemma map_null (c : T) (row : list T) :
  (forall x, mul c x = zero) -> map (mul c) row = repeat zero (length row).
Proof.
  intros Hc. induction row as [| x row IH]; cbn; [reflexivity |].
  rewrite Hc, IH. reflexivity.
Qed.

Lemma map_unit (c : T) (row : list T) :
  (forall x, mul c x = x) -> map (mul c) row = row.
Proof.
  intros Hc. induction row as [| x row IH]; cbn; [reflexivity |].
  rewrite Hc, IH. reflexivity.
Qed.

(** a row of factors that annihilate gives the zero row *)
Lemma vecmat_w_null (w : nat) (r : list T) (E : list (list T)) :
  rect w E -> Forall (fun c => forall x, mul c x = zero) r ->
  vecmat_w zero add mul w r E = repeat zero w.
Proof.
  intros HE Hr. revert E HE. induction Hr as [| c r Hc Hr IH]; intros E HE.
  - destruct E; reflexivity.
  - destruct E as [| row E]; [reflexivity |]. inversion HE as [| ? ? Hrow HE' Heq].
    cbn [vecmat_w]. rewrite (IH E HE'), (map_null c row Hc), Hrow.
    pose proof (map2_add_zeros_l (repeat zero w)) as Hz.
    rewrite repeat_length in Hz. exact Hz.
Qed.

(** a row of factors of which the one at [i] is a unit and the others
    annihilate selects the row [i] *)
Lemma vecmat_w_unit (w : nat) (E : list (list T)) :
  rect w E ->
  forall (i : nat) (r : list T),
  length r = length E -> (i < length E)%nat ->
  (forall j c, nth_error r j = Some c ->
     if Nat.eqb j i then forall x, mul c x = x else forall x, mul c x = zero) ->
  vecmat_w zero add mul w r E = nth i E [].
Proof.
  induction 1 as [| row E Hrow HE IH]; intros i r Hlen Hi Hr; [cbn in Hi; lia |].
  destruct r as [| c r]; [discriminate |]. cbn [vecmat_w].
  destruct i as [| i].
  - pose proof (Hr 0%nat c eq_refl) as Hc. cbn in Hc.
    rewrite (map_unit c row Hc), vecmat_w_null, <- Hrow; [apply map2_add_zeros_r | exact HE |].
    apply Forall_forall. intros c' Hin. apply In_nth_error in Hin. destruct Hin as [j Hj].
    exact (Hr (S j) c' Hj).
  - pose proof (Hr 0%nat c eq_refl) as Hc. cbn in Hc.
    rewrite (map_null c row Hc), (IH i r).
    + cbn [nth]. rewrite Hrow.
      assert (Hw : length (nth i E []) = w).
      { rewrite Forall_forall in HE. apply HE. apply nth_In. cbn in Hi. lia. }
      rewrite <- Hw. apply map2_add_zeros_l.
    + cbn in Hlen. lia.
    + cbn in Hi. lia.
    + intros j c' Hj. exact (Hr (S j) c' Hj).
Qed.

(** a matrix whose row [i] is such a row for every [i] is an identity *)
Lemma matmul_unit (W E : list (list T)) (w : nat) :
  rect w E -> length W = length E ->
  (forall i r, nth_error W i = Some r ->
     length r = length E /\
     forall j c, nth_error r j = Some c ->
       if Nat.eqb j i then forall x, mul c x = x else forall x, mul c x = zero) ->
  matmul zero add mul W E = E.
Proof.
  intros HE Hlen HW.
  destruct E as [| row0 E0] eqn:EE.
  { destruct W; [reflexivity | discriminate]. }
  rewrite <- EE in *. 
  assert (Hw : length (hd [] E) = w).
  { rewrite EE. cbn. rewrite EE in HE. inversion HE. assumption. }
  unfold matmul, vecmat. rewrite Hw.
  apply nth_ext with (d := []) (d' := []); [rewrite length_map; exact Hlen |].
  intros i Hi. rewrite length_map in Hi.
  destruct (nth_error W i) as [r |] eqn:Er; [| apply nth_error_None in Er; lia].
  rewrite (nth_indep _ [] (vecmat_w zero add mul w [] E)) by (rewrite length_map; exact Hi).
  rewrite (map_nth (fun r => vecmat_w zero add mul w r E)).
  rewrite (nth_error_nth _ _ _ Er).
  destruct (HW i r Er) as [Hr Hrow].
  apply vecmat_w_unit; [exact HE | exact Hr | lia | exact Hrow].
Qed.

End UnitRows.

Section SeqMatrices.
Context {T : Type} (zero : T) (add mul : T -> T -> T).
Hypothesis add_zero_r : forall x, add x zero = x.
Hypothesis add_zero_l : forall x, add zero x = x.

Lemma nth_error_map_seq {U : Type} (h : nat -> U) (n i : nat) (u : U) :
  nth_error (map h (seq 0 n)) i = Some u -> (i < n)%nat /\ u = h i.
Proof.
  intros Hn.
  assert (Hi : (i < n)%nat).
  { assert (H' : nth_error (map h (seq 0 n)) i <> None) by congruence.
    apply nth_error_Some in H'. rewrite length_map, length_seq in H'. exact H'. }
  split; [exact Hi |].
  rewrite nth_error_map, nth_error_seq in Hn.
  destruct (Nat.ltb_spec i n); [| lia]. cbn in Hn. congruence.
Qed.

Lemma matmul_seq_unit (e : nat -> nat -> T) (n w : nat) (E : list (list T)) :
  rect w E -> length E = n ->
  (forall i j, (i < n)%nat -> (j < n)%nat ->
     if Nat.eqb j i then forall x, mul (e i j) x = x else forall x, mul (e i j) x = zero) ->
  matmul zero add mul (map (fun i => map (e i) (seq 0 n)) (seq 0 n)) E = E.
Proof.
  intros HE Hn He.
  apply (matmul_unit zero add mul add_zero_r add_zero_l _ _ w HE).
  - rewrite length_map, length_seq. symmetry. exact Hn.
  - intros i r Hr. apply nth_error_map_seq in Hr. destruct Hr as [Hi ->]. split.
    + rewrite length_map, length_seq. symmetry. exact Hn.
    + intros j c Hc. apply nth_error_map_seq in Hc. destruct Hc as [Hj ->].
      apply He; assumption.
Qed.

End SeqMatrices.

Section FIRFitWeights.
Import Complex FitFilter FitFIR.
Context {numlib : NumLib}.

Lemma mapM_ok {A B : Type} (g : A -> result B) (g' : A -> B) (l : list A) :
  (forall x, In x l -> g x = Ok (g' x)) -> mapM g l = Ok (map g' l).
Proof.
  induction l as [| x l IH]; intros Hg; [reflexivity |].
  cbn [mapM map]. rewrite (Hg x (or_introl eq_refl)). cbn [bind].
  rewrite IH; [reflexivity |]. intros y Hy. apply Hg. right. exact Hy.
Qed.

Lemma mapM_ext {A B : Type} (g g' : A -> result B) (l : list A) :
  (forall x, g x = g' x) -> mapM g l = mapM g' l.
Proof.
  intros Hg. induction l as [| x l IH]; [reflexivity |].
  cbn [mapM]. rewrite Hg, IH. reflexivity.
Qed.

Lemma map2_repeat {U V W : Type} (g : U -> V -> W) (h : nat -> U) (c : V) (s n : nat) :
  map2 g (map h (seq s n)) (repeat c n) = map (fun j => g (h j) c) (seq s n).
Proof.
  revert s. induction n as [| n IH]; intros s; [reflexivity |].
  cbn. rewrite IH. reflexivity.
Qed.

(** the outer product of a column and a row *)
Lemma mmul_col_row (g : R -> R) (f ords : list R) :
  mmul (map (fun x => [g x]) f) [ords] = map (fun x => map (fun o => g x * o + 0) ords) f.
Proof.
  unfold mmul, matmul. rewrite map_map. apply map_ext. intros x.
  unfold vecmat. cbn [hd vecmat_w].
  induction ords as [| o ords IH]; [reflexivity |].
  cbn. rewrite IH. reflexivity.
Qed.

Lemma design_eq (N : nat) (f : list R) (Fs : R) :
  design N f Fs
  = map (fun fi => map (fun o => Cexp (Cmul (Cneg Ci) (RtoC (2 * PI * fi / Fs * o + 0))))
                       (map INR (seq 0 (N + 1)))) f.
Proof.
  unfold design. rewrite (mmul_col_row (fun fi => 2 * PI * fi / Fs)).
  rewrite map_map. apply map_ext. intros fi. rewrite map_map. reflexivity.
Qed.

Lemma design_rect (N : nat) (f : list R) (Fs : R) : rect (N + 1) (design N f Fs).
Proof.
  rewrite design_eq. unfold rect. apply Forall_map. apply Forall_forall. intros fi _.
  rewrite !length_map, length_seq. reflexivity.
Qed.

Lemma Cmul_unit (c : R) (x : C) : c = 1 -> Cmul (RtoC c) x = x.
Proof. intros ->. destruct x as [u v]. unfold Cmul, RtoC. cbn. f_equal; ring. Qed.

Lemma Cmul_null (c : R) (x : C) : c = 0 -> Cmul (RtoC c) x = RtoC 0.
Proof. intros ->. destruct x as [u v]. unfold Cmul, RtoC. cbn. f_equal; ring. Qed.

Lemma Cadd_zero_r (x : C) : Cadd x (RtoC 0) = x.
Proof. destruct x as [u v]. unfold Cadd, RtoC. cbn. f_equal; ring. Qed.

Lemma Cadd_zero_l (x : C) : Cadd (RtoC 0) x = x.
Proof. destruct x as [u v]. unfold Cadd, RtoC. cbn. f_equal; ring. Qed.

Lemma eye_times_ones (n : nat) :
  eye_times n (repeat 1 n)
  = Ok (map (fun i => map (fun j => (if Nat.eqb j (i + 0) then 1 else 0) * 1) (seq 0 n))
            (seq 0 n)).
Proof.
  unfold eye_times. rewrite repeat_length.
  assert (Hg : (Nat.eqb n 0 && negb (Nat.leb n 1) = false)%bool).
  { destruct n as [| [| n]]; reflexivity. }
  rewrite Hg. unfold eye_nat.
  rewrite (mapM_ok _ (fun row => map2 Rmult row (repeat 1 n))).
  - rewrite map_map. f_equal. apply map_ext. intros i. apply map2_repeat.
  - intros row Hin. apply in_map_iff in Hin. destruct Hin as [i [<- _]].
    unfold broadcast1. rewrite length_map, length_seq, repeat_length, Nat.eqb_refl.
    reflexivity.
Qed.

Lemma weighted_ones (N : nat) (f : list R) (Fs : R) :
  weighted (Some (W1 (repeat 1 (length f)))) f (design N f Fs)
  = Ok (real_over_imag (design N f Fs)).
Proof.
  unfold weighted. rewrite eye_times_ones. cbn [bind]. unfold dot_real_complex.
  assert (Hw : length (hd [] (map (fun i => map (fun j => (if Nat.eqb j (i + 0) then 1 else 0) * 1)
                                                 (seq 0 (length f))) (seq 0 (length f))))
               = length (design N f Fs)).
  { rewrite length_design. destruct (length f) as [| n]; [reflexivity |].
    change (seq 0 (S n)) with (0%nat :: seq 1 n) at 2. cbn [map hd].
    rewrite length_map, length_seq. reflexivity. }
  rewrite Hw, Nat.eqb_refl. cbn [bind]. do 2 f_equal.
  rewrite map_map. unfold cmmul.
  rewrite (map_ext _ (fun i => map (fun j => RtoC ((if Nat.eqb j (i + 0) then 1 else 0) * 1))
                                  (seq 0 (length f))))
    by (intros i; apply map_map).
  apply (matmul_seq_unit (RtoC 0) Cadd Cmul Cadd_zero_r Cadd_zero_l
           (fun i j => RtoC ((if Nat.eqb j (i + 0) then 1 else 0) * 1))
           (length f) (N + 1)).
  - apply design_rect.
  - apply length_design.
  - intros i j _ _. rewrite Nat.add_0_r.
    destruct (Nat.eqb j i); intros x; [apply Cmul_unit | apply Cmul_null]; ring.
Qed.

(** X17.  A weight vector of ones changes nothing. *)
Theorem LSFIR_unit_weights (H : list C) (N : nat) (tau : R) (f : list R) (Fs : R) :
  LSFIR H N tau f Fs (Some (W1 (repeat 1 (length f)))) = LSFIR H N tau f Fs None
  /\ invLSFIR H N tau f Fs (Some (W1 (repeat 1 (length f)))) = invLSFIR H N tau f Fs None.
Proof.
  unfold LSFIR, invLSFIR. rewrite weighted_ones. split; reflexivity.
Qed.

End FIRFitWeights.

Section MonteCarlo.
Import Complex FitFilter FitFIR.
Context {numlib : NumLib}.

Lemma length_real_over_imag (M : cmatrix) :
  length (real_over_imag M) = (2 * length M)%nat.
Proof. unfold real_over_imag. rewrite length_app, !length_map. lia. Qed.

Lemma real_over_imag_rect (w : nat) (M : cmatrix) : rect w M -> rect w (real_over_imag M).
Proof.
  intros HM. unfold real_over_imag, rect. apply Forall_app. split;
    apply Forall_map; (eapply Forall_impl; [| exact HM]); intros r Hr;
    rewrite length_map; exact Hr.
Qed.

Lemma designMC_ones (N : nat) (f : list R) (Fs : R) :
  designMC N f Fs (repeat 1 (2 * length f)) = Ok (real_over_imag (design N f Fs)).
Proof.
  unfold designMC.
  assert (HE : map (map (fun v => Cexp (Cmul (Cmul (Cmul (Cneg Ci) (RtoC 2)) (RtoC PI))
                                             (RtoC v))))
                   (mmul (map (fun fi => [fi / Fs]) f) [map INR (seq 0 (N + 1))])
               = design N f Fs).
  { rewrite design_eq, (mmul_col_row (fun fi => fi / Fs)), map_map.
    apply map_ext. intros fi. rewrite map_map. apply map_ext. intros o.
    f_equal. unfold Cmul, Cneg, Ci, RtoC. cbn [fst snd]. f_equal; unfold Rdiv; ring. }
  rewrite HE, repeat_length, length_real_over_imag, length_design, Nat.eqb_refl.
  f_equal. unfold np_diag1. rewrite repeat_length.
  apply (matmul_seq_unit 0 Rplus Rmult Rplus_0_r Rplus_0_l
           (fun i j => if Nat.eqb i j then nth i (repeat 1 (2 * length f)) 0 else 0)
           (2 * length f) (N + 1)).
  - apply real_over_imag_rect, design_rect.
  - rewrite length_real_over_imag, length_design. reflexivity.
  - intros i j Hi Hj. rewrite (Nat.eqb_sym j i).
    destruct (Nat.eqb i j); intros x; [| ring].
    rewrite (nth_indep _ 0 1) by (rewrite repeat_length; exact Hi).
    rewrite nth_repeat. ring.
Qed.

Lemma fitMC_is_LSFIR (HRI : matrix) (N : nat) (tau : R) (f : list R) (Fs : R) (k : nat) :
  fitMC HRI (real_over_imag (design N f Fs)) N tau f Fs k
  = (row <- draw HRI k ;;
     Hk <- complex_of_draw (length f) row ;;
     LSFIR Hk N tau f Fs None).
Proof.
  unfold fitMC, LSFIR, weighted, reciprocal_rhs.
  destruct (draw HRI k) as [row |]; cbn [bind]; [| reflexivity].
  destruct (complex_of_draw (length f) row) as [Hk |]; cbn [bind]; [| reflexivity].
  rewrite map_map.
  rewrite (map_ext (fun fi => Cexp (Cmul (Cdivr (Cmul (Cmul (Cmul Ci (RtoC 2)) (RtoC PI))
                                                      (RtoC fi)) Fs) (RtoC tau)))
                   (fun fi => Cexp (Cmul (Cmul Ci (RtoC (2 * PI * fi / Fs))) (RtoC tau)))).
  - destruct (broadcast1 _ _ _); reflexivity.
  - intros fi. f_equal. unfold Cmul, Cdivr, Ci, RtoC. cbn [fst snd].
    f_equal; unfold Rdiv; ring.
Qed.

(** X20.  Without weights, the Monte Carlo fit is the mean and the covariance of
    the [LSFIR] fits to the draws. *)
Theorem invLSFIR_uncMC_is_mean_of_fits (HRI : matrix) (H : list C) (UH : matrix)
  (N : nat) (tau : R) (f : list R) (Fs : R) :
  invLSFIR_uncMC HRI H UH N tau f Fs None
  = (_ <- multivariate_normal (map Cre H ++ map Cim H) UH 10000 ;;
     fits <- mapM (fun k => row <- draw HRI k ;;
                            Hk <- complex_of_draw (length f) row ;;
                            LSFIR Hk N tau f Fs None)
                  (seq 0 (Z.to_nat 10000)) ;;
     Ok (map mean (transpose fits), cov (transpose fits))).
Proof.
  unfold invLSFIR_uncMC. rewrite Z2Nat.id by lia.
  destruct (multivariate_normal _ _ _) as [[] |]; cbn [bind]; [| reflexivity].
  rewrite designMC_ones. cbn [bind].
  rewrite (mapM_ext _ _ _ (fitMC_is_LSFIR HRI N tau f Fs)). reflexivity.
Qed.

(** [np.linalg.lstsq(M, v)] returns one value per column of [M] *)
Hypothesis lstsq_length : forall M v, length (lstsq M v) = length (hd [] M).

Lemma weighted_shape (N : nat) (f : list R) (Fs : R) (Wt : option weights) :
  f <> [] ->
  Wt = None \/ (exists w, Wt = Some (W1 w) /\ length w = length f) ->
  exists X, weighted Wt f (design N f Fs) = Ok X
            /\ length X = (2 * length f)%nat /\ length (hd [] X) = (N + 1)%nat.
Proof.
  intros Hf [-> | [w [-> Hw]]].
  - eexists. split; [reflexivity |]. split.
    + rewrite length_real_over_imag, length_design. reflexivity.
    + pose proof (design_rect N f Fs) as HR. pose proof (length_design N f Fs) as HL.
      destruct (design N f Fs) as [| r E].
      * destruct f; [contradiction | discriminate].
      * cbn. inversion HR. rewrite length_map. assumption.
  - unfold weighted, eye_times.
    assert (Hg : (Nat.eqb (length f) 0 && negb (Nat.leb (length w) 1) = false)%bool).
    { destruct f; [contradiction | reflexivity]. }
    rewrite Hg.
    rewrite (mapM_ok _ (fun row => map2 Rmult row w)).
    2: { intros row Hin. unfold eye_nat in Hin. apply in_map_iff in Hin.
         destruct Hin as [i [<- _]]. unfold broadcast1.
         rewrite length_map, length_seq, Hw, Nat.eqb_refl. reflexivity. }
    cbn [bind]. unfold dot_real_complex.
    assert (Hh : length (hd [] (map (fun row => map2 Rmult row w) (eye_nat (length f) (length f) 0)))
                 = length (design N f Fs)).
    { rewrite length_design. unfold eye_nat. destruct (length f) as [| n] eqn:En.
      - destruct f; [contradiction | discriminate].
      - change (seq 0 (S n)) with (0%nat :: seq 1 n) at 2. cbn [map hd].
        rewrite length_map2, length_map, length_seq, Hw. apply Nat.min_id. }
    rewrite Hh, Nat.eqb_refl. cbn [bind]. eexists. split; [reflexivity |].
    assert (HR : rect (N + 1) (cmmul (map (map RtoC) (map (fun row => map2 Rmult row w)
                                                      (eye_nat (length f) (length f) 0)))
                                     (design N f Fs))).
    { apply rect_matmul; [apply design_rect |].
      intros E0. pose proof (length_design N f Fs) as HL. rewrite E0 in HL.
      destruct f; [contradiction | discriminate]. }
    split.
    + rewrite length_real_over_imag. unfold cmmul, matmul, eye_nat.
      rewrite !length_map, length_seq. reflexivity.
    + unfold real_over_imag.
      destruct (cmmul _ _) as [| r E] eqn:EE.
      * apply (f_equal (@length _)) in EE. unfold cmmul, matmul, eye_nat in EE.
        rewrite !length_map, length_seq in EE. destruct f; [contradiction | discriminate].
      * cbn. inversion HR. rewrite length_map. assumption.
Qed.

(** X16.  With no weights or a weight vector of the length of [f], and one
    response value per frequency, [LSFIR] and [invLSFIR] return [N + 1]
    coefficients. *)
Theorem LSFIR_returns_coefficients (H : list C) (N : nat) (tau : R) (f : list R) (Fs : R)
  (Wt : option weights) :
  f <> [] -> length H = length f ->
  Wt = None \/ (exists w, Wt = Some (W1 w) /\ length w = length f) ->
  exists b, LSFIR H N tau f Fs Wt = Ok b /\ invLSFIR H N tau f Fs Wt = Ok b
            /\ length b = (N + 1)%nat.
Proof.
  intros Hf HH HW.
  destruct (weighted_shape N f Fs Wt Hf HW) as [X [HX [HXl HXw]]].
  unfold LSFIR, invLSFIR. rewrite HX. cbn [bind]. unfold reciprocal_rhs.
  destruct (length_broadcast1_same Cmul H
              (map (fun wi => Cexp (Cmul (Cmul Ci (RtoC wi)) (RtoC tau)))
                   (map (fun fi => 2 * PI * fi / Fs) f))) as [Hs [-> HHs]].
  { rewrite !length_map. exact HH. }
  cbn [bind]. unfold np_lstsq.
  rewrite length_app, !length_map, HHs, !length_map, HXl.
  replace (length f + length f)%nat with (2 * length f)%nat by lia.
  rewrite Nat.eqb_refl. cbn [bind]. rewrite lstsq_length, HXw, Nat.eqb_refl.
  eexists. split; [reflexivity |]. split; [reflexivity |].
  rewrite lstsq_length. exact HXw.
Qed.

End MonteCarlo.

(** * Further properties of [IIRuncFilter] *)

Section CallShape.
Import PropagateFilter.
Context {scipy : SciPy}.

Lemma iir_loop_length (kind : string) (a : list R) (p : Z) (A bs cT b0 : matrix)
  (corr : R) (Uab : matrix) (Ux xs : list R) (n : nat) (st : loop_state)
  (ys Uys : list R) (fin : loop_state) :
  iir_loop kind a p A bs cT b0 corr Uab Ux xs n st = Ok (ys, Uys, fin) ->
  length ys = length xs /\ length Uys = length xs.
Proof.
  revert n st ys Uys fin. induction xs as [| xn xs IH]; intros n st ys Uys fin;
    cbn [iir_loop].
  - intros [= <- <- _]. split; reflexivity.
  - destruct (iir_step _ _ _ _ _ _ _ _ _ _ _ _ _) as [[[yn Uyn] st1] |]; cbn [bind];
      [| discriminate].
    destruct (iir_loop _ _ _ _ _ _ _ _ _ _ xs (S n) st1) as [[[ys' Uys'] st2] |] eqn:El;
      cbn [bind]; [| discriminate].
    intros [= <- <- _]. destruct (IH _ _ _ _ _ El) as [H1 H2].
    cbn [length]. split; congruence.
Qed.

(** X1.  A call that returns gives one output value and one uncertainty per
    input sample, no uncertainty is negative, and the state is returned
    exactly when it is asked for. *)
Theorem IIRuncFilter_output_shape (x : list R) (Ux : uncert) (b a : list R)
  (Uab : option matrix) (init : option internal_state) (return_state : bool)
  (kind : string) (y Uy : list R) (st : option internal_state) :
  IIRuncFilter x Ux b a Uab init return_state kind = Ok (y, Uy, st) ->
  length y = length x /\ length Uy = length x
  /\ Forall (fun u => 0 <= u) Uy
  /\ (if return_state then st <> None else st = None).
Proof.
  unfold IIRuncFilter.
  destruct (match Uab with Some M => Ok M | None => _ end) as [U |]; cbn [bind];
    [| discriminate].
  destruct (pad_b b a) as [b' |]; cbn [bind]; [| discriminate].
  destruct (initial_state _ _ _ _ _) as [s |]; cbn [bind]; [| discriminate].
  destruct (st_system s) as [[[A bs] cT] b0].
  destruct (np_zeros2 _ 1); cbn [bind]; [| discriminate].
  destruct (iir_loop _ _ _ _ _ _ _ _ _ _ _ _ _) as [[[ys Uys] fin] |] eqn:El; cbn [bind];
    [| discriminate].
  destruct (iir_loop_length _ _ _ _ _ _ _ _ _ _ _ _ _ _ _ _ El) as [H1 H2].
  assert (Hpos : Forall (fun u => 0 <= u) (map (fun v => sqrt (Rabs v)) Uys)).
  { apply Forall_map. apply Forall_forall. intros u0 _. apply sqrt_pos. }
  destruct return_state; intros [= <- <- <-]; rewrite length_map;
    repeat split; try assumption; discriminate.
Qed.

(** The loop runs out of an uncertainty array that is shorter than the
    signal. *)
Lemma iir_loop_short_Ux (a : list R) (p : Z) (A bs cT b0 : matrix)
  (corr : R) (Uab : matrix) (Ux xs : list R) (n : nat) (st : loop_state) :
  (1 <= p)%Z -> (n <= length Ux)%nat -> (length Ux < n + length xs)%nat ->
  iir_loop "diag"%string a p A bs cT b0 corr Uab Ux xs n st = Raise IndexError.
Proof.
  intros Hp. revert n st. induction xs as [| xn xs IH]; intros n st Hn Hlen.
  - cbn [length] in Hlen. lia.
  - cbn [iir_loop]. unfold iir_step. cbn [String.eqb Ascii.eqb Bool.eqb]. unfold index.
    destruct (nth_error Ux n) as [u |] eqn:Eu.
    + assert (Hn' : (n < length Ux)%nat).
      { apply nth_error_Some. congruence. }
      cbn [bind]. unfold np_zeros2.
      destruct (Z.ltb_spec (p - 1) 0); [lia |].
      destruct (Z.ltb_spec p 0); [lia |]. cbn [orb bind].
      rewrite IH; [reflexivity | lia | cbn [length] in Hlen; lia].
    + reflexivity.
Qed.

(** X3.  In the "diag" mode an array [Ux] shorter than the signal makes the
    call raise [IndexError], when [b] can be padded, the state it starts from
    is there with the shapes of the filter, and a given [Uab] is
    (2p+1) x (2p+1). *)
Theorem IIRuncFilter_short_Ux_raises (x us b a b' : list R) (Uab : option matrix)
  (init : option internal_state) (return_state : bool) (st : internal_state) :
  (2 <= length a)%nat -> pad_b b a = Ok b' ->
  initial_state b' a us init "diag" = Ok st ->
  Spec.state_shaped (length a - 1) st ->
  (forall M, Uab = Some M ->
             Spec.shaped (2 * (length a - 1) + 1) (2 * (length a - 1) + 1) M) ->
  (length us < length x)%nat ->
  IIRuncFilter x (UArray us) b a Uab init return_state "diag" = Raise IndexError.
Proof.
  intros Ha Hb Hst _ _ Hlen. unfold IIRuncFilter. cbn [as_array].
  assert (HU : exists U, match Uab with
                 | Some M => Ok M
                 | None => np_zeros2 (2 * (Z.of_nat (length a) - 1) + 1)
                             (2 * (Z.of_nat (length a) - 1) + 1)
                 end = Ok U).
  { destruct Uab as [M |]; [eexists; reflexivity |]. unfold np_zeros2.
    destruct (Z.ltb_spec (2 * (Z.of_nat (length a) - 1) + 1) 0); [lia |].
    eexists. reflexivity. }
  destruct HU as [U ->]. cbn [bind]. rewrite Hb. cbn [bind]. rewrite Hst. cbn [bind].
  destruct (st_system st) as [[[A bs] cT] b0].
  unfold np_zeros2 at 1.
  destruct (Z.ltb_spec (2 * (Z.of_nat (length a) - 1) + 1) 0); [lia |].
  change (1 <? 0)%Z with false. cbn [orb bind].
  rewrite iir_loop_short_Ux; [reflexivity | lia | lia | cbn; lia].
Qed.

(** X4.  An empty signal leaves a given state as it is. *)
Theorem IIRuncFilter_empty_signal (Ux : uncert) (b a : list R) (Uab : option matrix)
  (st : internal_state) (kind : string) :
  (1 <= length a)%nat -> (length b <= length a)%nat ->
  IIRuncFilter [] Ux b a Uab (Some st) true kind = Ok ([], [], Some st).
Proof.
  intros Ha Hb. unfold IIRuncFilter.
  assert (HU : exists U, match Uab with
                 | Some M => Ok M
                 | None => np_zeros2 (2 * (Z.of_nat (length a) - 1) + 1)
                             (2 * (Z.of_nat (length a) - 1) + 1)
                 end = Ok U).
  { destruct Uab as [M |]; [eexists; reflexivity |]. unfold np_zeros2.
    destruct (Z.ltb_spec (2 * (Z.of_nat (length a) - 1) + 1) 0); [lia |].
    eexists. reflexivity. }
  destruct HU as [U ->]. cbn [bind].
  assert (Hpad : exists b', pad_b b a = Ok b').
  { unfold pad_b. destruct (Nat.eqb _ _); [eexists; reflexivity |].
    unfold np_zeros1. destruct (Z.ltb_spec (Z.of_nat (length a) - Z.of_nat (length b)) 0);
      [lia |]. eexists. reflexivity. }
  destruct Hpad as [b' ->]. cbn [bind initial_state].
  destruct st as [z dz P [[[A bs] cT] b0] corr]. cbn [st_system st_z st_dz st_P st_corr_unc].
  unfold np_zeros2.
  destruct (Z.ltb_spec (2 * (Z.of_nat (length a) - 1) + 1) 0); [lia |].
  change (1 <? 0)%Z with false. cbn [orb bind iir_loop]. reflexivity.
Qed.

(** X5.  A denominator of order 0 (or an empty one) cannot be used without a
    state: the call raises [ValueError]. *)
Theorem IIRuncFilter_order_0_raises (x : list R) (Ux : uncert) (b a : list R)
  (Uab : option matrix) (return_state : bool) (kind : string) :
  (length a <= 1)%nat ->
  IIRuncFilter x Ux b a Uab None return_state kind = Raise ValueError.
Proof.
  intros Ha. unfold IIRuncFilter.
  assert (Htf : forall b', _tf2ss b' a = Raise ValueError).
  { intros b'. unfold _tf2ss, np_eye.
    destruct (Z.ltb_spec (Z.of_nat (length a) - 1 - 1) 0); [reflexivity | lia]. }
  assert (Hinit : forall b' u k, initial_state b' a u None k = Raise ValueError).
  { intros b' u k. unfold initial_state, get_initial_internal_state.
    rewrite Htf. destruct (String.eqb k "diag"); reflexivity. }
  destruct (match Uab with Some M => Ok M | None => _ end) as [U | e] eqn:EU; cbn [bind].
  - unfold pad_b. destruct (Nat.eqb _ _); cbn [bind].
    + rewrite Hinit. reflexivity.
    + unfold np_zeros1. destruct (_ <? 0)%Z; cbn [bind]; [reflexivity |].
      rewrite Hinit. reflexivity.
  - destruct Uab; [discriminate |]. unfold np_zeros2 in EU.
    destruct (_ || _)%bool; congruence.
Qed.

Section SameSignal.
Variables (a : list R) (p : Z) (A bs cT b0 : matrix).

Lemma iir_loop_signal (kind kind' : string) (corr corr' : R) (Uab Uab' : matrix)
  (Ux Ux' xs : list R) (n n' : nat) (st st' : loop_state)
  (ys Uys ys' Uys' : list R) (fin fin' : loop_state) :
  cur_z st = cur_z st' ->
  iir_loop kind a p A bs cT b0 corr Uab Ux xs n st = Ok (ys, Uys, fin) ->
  iir_loop kind' a p A bs cT b0 corr' Uab' Ux' xs n' st' = Ok (ys', Uys', fin') ->
  ys = ys' /\ cur_z fin = cur_z fin'.
Proof.
  revert n n' st st' ys Uys ys' Uys' fin fin'.
  induction xs as [| xn xs IH]; intros n n' st st' ys Uys ys' Uys' fin fin' Hz;
    cbn [iir_loop].
  - intros [= <- _ <-] [= <- _ <-]. split; [reflexivity | exact Hz].
  - unfold iir_step.
    destruct (if String.eqb kind "diag" then _ else _) as [Uyn |]; cbn [bind];
      [| discriminate].
    destruct (if String.eqb kind "diag" then _ else _) as [P1 |]; cbn [bind];
      [| discriminate].
    destruct (np_zeros2 (p - 1) p) as [Z0 |]; cbn [bind]; [| intros; discriminate].
    destruct (iir_loop kind _ _ _ _ _ _ _ _ _ xs (S n) _) as [[[ys1 Uys1] fin1] |] eqn:E1;
      cbn [bind]; [| discriminate].
    intros [= <- _ <-].
    destruct (if String.eqb kind' "diag" then _ else _) as [Uyn' |]; cbn [bind];
      [| discriminate].
    destruct (if String.eqb kind' "diag" then _ else _) as [P1' |]; cbn [bind];
      [| discriminate].
    destruct (iir_loop kind' _ _ _ _ _ _ _ _ _ xs (S n') _) as [[[ys2 Uys2] fin2] |] eqn:E2;
      cbn [bind]; [| discriminate].
    intros [= <- _ <-].
    assert (Hr : ys1 = ys2 /\ cur_z fin1 = cur_z fin2).
    { eapply IH; [| exact E1 | exact E2]. cbn [cur_z]. rewrite Hz. reflexivity. }
    destruct Hr as [Hy Hf].
    rewrite Hz, Hy. split; [reflexivity | exact Hf].
Qed.
End SameSignal.

(** X2.  The filtered signal does not depend on the uncertainties: two calls
    that differ in [Ux], [Uab], [kind] and [return_state] return the same
    [y]. *)
Theorem IIRuncFilter_signal_independent_of_uncertainty (x : list R) (Ux Ux' : uncert)
  (b a : list R) (Uab Uab' : option matrix) (rs rs' : bool) (kind kind' : string)
  (y Uy y' Uy' : list R) (st st' : option internal_state) :
  IIRuncFilter x Ux b a Uab None rs kind = Ok (y, Uy, st) ->
  IIRuncFilter x Ux' b a Uab' None rs' kind' = Ok (y', Uy', st') ->
  y = y'.
Proof.
  unfold IIRuncFilter.
  destruct (match Uab with Some M => Ok M | None => _ end) as [U |]; cbn [bind];
    [| discriminate].
  destruct (match Uab' with Some M => Ok M | None => _ end) as [U' |]; cbn [bind];
    [| intros; discriminate].
  destruct (pad_b b a) as [b1 |]; cbn [bind]; [| discriminate].
  assert (Hinit : forall u k s, initial_state b1 a u None k = Ok s ->
            exists sys sol dzs Ps c,
              _tf2ss b1 a = Ok sys /\ s = mk_state (mscale 0 sol) dzs Ps sys c
              /\ solve (msub (eye_nat (length (fst (fst (fst sys)))) (length (fst (fst (fst sys)))) 0)
                             (fst (fst (fst sys)))) (snd (fst (fst sys))) = Ok sol).
  { intros u k s. unfold initial_state, get_initial_internal_state.
    destruct (_tf2ss b1 a) as [[[[A B] C] D] |]; cbn [bind].
    2: { destruct (String.eqb k "diag"); discriminate. }
    destruct (solve _ B) as [sol |] eqn:Es; cbn [bind].
    2: { destruct (String.eqb k "diag"); discriminate. }
    destruct (String.eqb k "diag");
      (destruct (solve _ (hstack _)) as [dzs |]; cbn [bind]; [| discriminate]);
      (destruct (solve_discrete_lyapunov _ _) as [Ps |]; cbn [bind]; [| discriminate]);
      try (destruct (_get_corr_unc _ _ _) as [c0 |]; cbn [bind]; [| discriminate]);
      intros [= <-]; exists (A, B, C, D), sol; eexists _, _, _;
      (split; [reflexivity | split; [reflexivity | exact Es]]). }
  destruct (initial_state b1 a (as_array Ux x) None kind) as [s |] eqn:Es; cbn [bind];
    [| discriminate].
  destruct (initial_state b1 a (as_array Ux' x) None kind') as [s' |] eqn:Es'; cbn [bind];
    [| intros; discriminate].
  destruct (Hinit _ _ _ Es) as [sys [sol [dzs [Ps [c [Htf [-> Hsol]]]]]]].
  destruct (Hinit _ _ _ Es') as [sys' [sol' [dzs' [Ps' [c' [Htf' [-> Hsol']]]]]]].
  rewrite Htf in Htf'. injection Htf' as <-. rewrite Hsol in Hsol'. injection Hsol' as <-.
  cbn [st_system st_z st_dz st_P st_corr_unc].
  destruct sys as [[[A bs] cT] b0].
  destruct (np_zeros2 _ 1); cbn [bind]; [| discriminate].
  destruct (iir_loop kind _ _ _ _ _ _ _ _ _ _ _ _) as [[[ys Uys] fin] |] eqn:El; cbn [bind];
    [| discriminate].
  destruct (iir_loop kind' _ _ _ _ _ _ _ _ _ _ _ _) as [[[ys' Uys'] fin'] |] eqn:El'; cbn [bind];
    [| intros; discriminate].
  assert (Hy : ys = ys' /\ cur_z fin = cur_z fin').
  { eapply iir_loop_signal; [| exact El | exact El']. reflexivity. }
  destruct Hy as [Hy _].
  intros H1 H2.
  assert (y = ys) by (destruct rs; congruence).
  assert (y' = ys') by (destruct rs'; congruence).
  congruence.
Qed.

End CallShape.

(** * Properties of [FIRuncFilter] *)

Section FIRArguments.
Import PropagateFilter FitFIR FIRFilter.
Context {firlib : FIRLib}.

(** X21.  [FIRuncFilter] refuses a [sigma_noise] that is neither a float nor an
    array, and an array [sigma_noise] with an unknown [kind]. *)
Theorem FIRuncFilter_rejects_noise (y : list R) (sigma_noise : option uncert)
  (theta : list R) (Utheta : option matrix) (shift : Z) (blow : option (list R))
  (kind : string) :
  sigma_noise = None
  \/ (exists s, sigma_noise = Some (UArray s))
     /\ kind <> "diag"%string /\ kind <> "corr"%string ->
  FIRuncFilter y sigma_noise theta Utheta shift blow kind = Raises (Exn ValueError).
Proof.
  intros [-> | [[s ->] [H1 H2]]]; unfold FIRuncFilter, FIRuncFilter_sigma2.
  - reflexivity.
  - apply String.eqb_neq in H1, H2. rewrite H1, H2. reflexivity.
Qed.

(** X22.  With a float [sigma_noise], a [kind] other than "diag" is not looked at. *)
Theorem FIRuncFilter_float_kind_ignored (y : list R) (s : R) (theta : list R)
  (Utheta : option matrix) (shift : Z) (blow : option (list R)) (kind : string) :
  kind <> "diag"%string ->
  FIRuncFilter y (Some (UFloat s)) theta Utheta shift blow kind
  = FIRuncFilter y (Some (UFloat s)) theta Utheta shift blow "corr".
Proof.
  intros Hk. apply String.eqb_neq in Hk.
  unfold FIRuncFilter, FIRuncFilter_sigma2, lowpass. rewrite Hk.
  change (String.eqb "corr" "diag") with false. reflexivity.
Qed.

(** X23.  With a float [sigma_noise] and [kind="diag"] the call gets as far as
    [len(sigma2)] and raises [TypeError]. *)
Theorem FIRuncFilter_float_diag_raises (y : list R) (s : R) (theta : list R)
  (Utheta : option matrix) (shift : Z) (blow : option (list R))
  (U : matrix) (xlow x : list R) :
  lowpass y (UFloat (s ^ 2)) (length theta) blow "diag" = Ok (U, xlow) ->
  lfilter theta xlow = Ok x ->
  FIRuncFilter y (Some (UFloat s)) theta Utheta shift blow "diag" = Raises TypeError.
Proof.
  intros Hlow Hx. unfold FIRuncFilter, FIRuncFilter_sigma2.
  rewrite Hlow. cbn [bind fst snd]. rewrite Hx. cbn [bind]. reflexivity.
Qed.

End FIRArguments.

Section FIRFacts.
Import PropagateFilter Spec FitFIR FIRFilter.
Context {firlib : FIRLib}.

Lemma dotR_comm (u v : list R) : dotR u v = dotR v u.
Proof.
  revert v. induction u as [| x u IH]; intros [| y v]; unfold dotR in *; cbn [dot];
    try reflexivity.
  rewrite IH. ring.
Qed.

Lemma dotR_nonneg (v : list R) : 0 <= dotR v v.
Proof.
  induction v as [| x v IH]; unfold dotR in *; cbn [dot]; [lra |]. nra.
Qed.

(** a row with one entry that counts selects that entry *)
Lemma dotR_seq_select (g : nat -> R) (n s i : nat) (v : list R) :
  (i < n)%nat -> length v = n ->
  (forall j, (j < n)%nat -> j <> i -> g (s + j)%nat = 0) ->
  dotR (map g (seq s n)) v = g (s + i)%nat * nth i v 0.
Proof.
  revert s i v. induction n as [| n IH]; intros s i v Hi Hv Hg; [lia |].
  destruct v as [| e v]; [discriminate |]. unfold dotR in *. cbn [seq map dot].
  destruct i as [| i].
  - rewrite Nat.add_0_r. cbn [nth].
    assert (Hz : dot 0 Rplus Rmult (map g (seq (S s) n)) v = 0).
    { clear IH Hi Hv. assert (Hg' : forall j, (j < n)%nat -> g (S s + j)%nat = 0).
      { intros j Hj. replace (S s + j)%nat with (s + S j)%nat by lia. apply Hg; lia. }
      clear Hg. revert v Hg'. generalize (S s). induction n as [| n IH]; intros s' v Hg'.
      - destruct v; reflexivity.
      - destruct v as [| e' v]; [reflexivity |]. cbn [seq map dot].
        rewrite (IH (S s') v).
        + specialize (Hg' 0%nat). rewrite Nat.add_0_r in Hg'. rewrite Hg' by lia. ring.
        + intros j Hj. replace (S s' + j)%nat with (s' + S j)%nat by lia. apply Hg'. lia. }
    rewrite Hz. ring.
  - cbn [nth]. rewrite (IH (S s) i v).
    + replace (S s + i)%nat with (s + S i)%nat by lia.
      specialize (Hg 0%nat). rewrite Nat.add_0_r in Hg. rewrite Hg by lia. ring.
    + lia.
    + simpl in Hv. lia.
    + intros j Hj Hji. replace (S s + j)%nat with (s + S j)%nat by lia. apply Hg; lia.
Qed.

Lemma sum1_zero (v : list R) : Forall (fun e => e = 0) v -> sum1 0 Rplus v = 0.
Proof.
  induction 1 as [| e v He Hv IH]; unfold sum1 in *; cbn [fold_right]; [reflexivity |].
  rewrite IH, He. ring.
Qed.

Lemma trace_zero (M : matrix) : all_zero M -> trace M = 0.
Proof.
  intros HM. unfold trace. apply sum1_zero. apply Forall_map, Forall_forall.
  intros i _. unfold all_zero in HM. rewrite Forall_forall in HM.
  destruct (Nat.lt_ge_cases i (length M)) as [Hi | Hi].
  - pose proof (HM (nth i M []) (nth_In M [] Hi)) as Hr. rewrite Forall_forall in Hr.
    destruct (Nat.lt_ge_cases i (length (nth i M []))) as [Hj | Hj].
    + apply Hr. apply nth_In. exact Hj.
    + apply nth_overflow. exact Hj.
  - rewrite (nth_overflow M [] Hi). destruct i; reflexivity.
Qed.

Lemma length_col (v : list R) : length (col v) = length v.
Proof. unfold col. apply length_map. Qed.

Lemma length_backwards (v : list R) (m n : nat) :
  (n <= m)%nat -> (m < length v)%nat -> length (backwards v m n) = n.
Proof.
  intros Hn Hm. unfold backwards. rewrite length_rev, length_firstn, length_skipn. lia.
Qed.

Lemma upd_zeros (L m : nat) : upd (repeat 0 L) m (fun _ => 0) = repeat 0 L.
Proof.
  revert m. induction L as [| L IH]; intros [| m]; cbn [repeat upd]; try reflexivity.
  rewrite IH. reflexivity.
Qed.

Lemma hd_zeros2 (n : nat) : (1 <= n)%nat -> length (hd [] (zeros2 n n)) = n.
Proof.
  intros Hn. destruct n; [lia |]. cbn [zeros2 repeat hd]. apply repeat_length.
Qed.

(** With an exact filter, the pass for the sample [m] leaves [unc] zero. *)
Lemma dynamic_part_exact (xlow : list R) (n L m : nat) :
  (1 <= n)%nat -> (n <= m)%nat -> (m < length xlow)%nat -> (m < L)%nat ->
  dynamic_part xlow n (zeros2 n n) (repeat 0 L) m = Ok (repeat 0 L).
Proof.
  intros Hn Hnm Hm HL. unfold dynamic_part, np_dot.
  fold (col (backwards xlow m n)).
  assert (Hlen : length (backwards xlow m n) = n) by (apply length_backwards; assumption).
  assert (Hne : backwards xlow m n <> []).
  { intros E. rewrite E in Hlen. simpl in Hlen. lia. }
  rewrite (hd_zeros2 n Hn), length_col, Hlen, Nat.eqb_refl.
  cbn [bind]. rewrite (mT_col _ Hne). cbn [hd].
  assert (Hrows : length (mmul (zeros2 n n) (col (backwards xlow m n))) = n).
  { unfold mmul, matmul, zeros2. rewrite length_map, repeat_length. reflexivity. }
  rewrite Hrows, Hlen, Nat.eqb_refl. cbn [bind].
  rewrite repeat_length. destruct (Nat.ltb_spec m L); [| lia].
  rewrite item_zero.
  - rewrite upd_zeros. reflexivity.
  - apply mmul_zero_right, mmul_zero_left, zeros2_all_zero.
Qed.

Lemma for_each_exact (xlow : list R) (n L : nat) (range : list nat) :
  (1 <= n)%nat ->
  Forall (fun m => (n <= m)%nat /\ (m < length xlow)%nat /\ (m < L)%nat) range ->
  for_each (dynamic_part xlow n (zeros2 n n)) (repeat 0 L) range = Ok (repeat 0 L).
Proof.
  intros Hn. induction 1 as [| m range [H1 [H2 H3]] Hr IH]; [reflexivity |].
  cbn [for_each]. rewrite dynamic_part_exact by assumption. cbn [bind]. exact IH.
Qed.

Lemma unc_exact (y : list R) (n : nat) :
  (1 <= n)%nat ->
  for_each (dynamic_part y n (zeros2 n n)) (map (fun _ => 0) y)
    (seq n (length y - n)) = Ok (repeat 0 (length y)).
Proof.
  intros Hn.
  assert (Hz : map (fun _ : R => 0) y = repeat 0 (length y)).
  { induction y as [| e y IH]; [reflexivity |]. cbn. rewrite IH. reflexivity. }
  rewrite Hz. apply for_each_exact; [exact Hn |].
  apply Forall_forall. intros m Hm. apply in_seq in Hm. lia.
Qed.

Lemma broadcast_scalar (c : R) (L : nat) :
  broadcast1 Rplus [c] (repeat 0 L) = Ok (repeat (c + 0) L).
Proof.
  unfold broadcast1. rewrite repeat_length. cbn [length].
  destruct L as [| [| L]]; cbn [Nat.eqb repeat map2 map]; try reflexivity.
  rewrite map_repeat. reflexivity.
Qed.

Lemma skipn_repeat' {T : Type} (v : T) (k n : nat) :
  skipn k (repeat v n) = repeat v (n - k).
Proof.
  revert k. induction n as [| n IH]; intros [| k]; cbn [repeat skipn Nat.sub];
    try reflexivity. apply IH.
Qed.

Lemma firstn_repeat' {T : Type} (v : T) (k n : nat) :
  firstn k (repeat v n) = repeat v (Nat.min k n).
Proof.
  revert k. induction n as [| n IH]; intros [| k]; cbn [repeat firstn Nat.min];
    try reflexivity. rewrite IH. reflexivity.
Qed.

Lemma roll_back_repeat (v : R) (L : nat) (shift : Z) :
  roll_back (repeat v L) shift = repeat v L.
Proof.
  unfold roll_back. destruct L as [| L]; [reflexivity |].
  change (match repeat v (S L) with [] => [] | _ :: _ => ?X end) with X.
  rewrite repeat_length.
  set (k := Z.to_nat (shift mod Z.of_nat (S L))).
  assert (Hk : (k < S L)%nat).
  { subst k. pose proof (Z.mod_pos_bound shift (Z.of_nat (S L)) ltac:(lia)). lia. }
  rewrite skipn_repeat', firstn_repeat', <- repeat_app.
  f_equal. lia.
Qed.

End FIRFacts.

Section FIRStatic.
Import PropagateFilter Spec FitFIR FIRFilter.
Context {firlib : FIRLib}.

(** the static part of the uncertainty for an exact filter and a diagonal
    noise covariance *)
Lemma static_part_diagonal (theta : list R) (g : nat -> nat -> R) (n : nat) :
  length theta = n -> (1 <= n)%nat ->
  (forall i j, (i < n)%nat -> (j < n)%nat -> j <> i -> g i j = 0) ->
  exists c,
    static_part theta (map (fun i => map (g i) (seq 0 n)) (seq 0 n)) (zeros2 n n) = Ok [[c]]
    /\ c = dotR theta (map (fun i => g i i * nth i theta 0) (seq 0 n)).
Proof.
  intros Hlen Hn Hg. unfold static_part, np_dot. fold (col theta).
  set (U := map (fun i => map (g i) (seq 0 n)) (seq 0 n)).
  assert (Hne : theta <> []) by (intros E; rewrite E in Hlen; simpl in Hlen; lia).
  assert (HU : length (hd [] U) = n).
  { subst U. destruct n; [lia |]. change (seq 0 (S n)) with (0%nat :: seq 1 n) at 2.
    cbn [map hd]. rewrite length_map, length_seq. reflexivity. }
  rewrite HU, length_col, Hlen, Nat.eqb_refl. cbn [bind].
  rewrite (mmul_col U theta Hne), (mT_col theta Hne). cbn [hd].
  unfold matvec at 1. rewrite length_col, length_map. subst U. rewrite length_map, length_seq.
  rewrite Hlen, Nat.eqb_refl. cbn [bind].
  unfold zeros2 at 1. rewrite repeat_length, Nat.eqb_refl. cbn [bind].
  rewrite mmul_row. 
  assert (Hmv : matvec (map (fun i => map (g i) (seq 0 n)) (seq 0 n)) theta
                = map (fun i => g i i * nth i theta 0) (seq 0 n)).
  { unfold matvec. rewrite map_map. apply map_ext_in. intros i Hi. apply in_seq in Hi.
    rewrite (dotR_seq_select (g i) n 0 i theta); [reflexivity | lia | exact Hlen |].
    intros j Hj Hji. apply Hg; [lia | exact Hj | exact Hji]. }
  rewrite Hmv.
  assert (Hne' : map (fun i => g i i * nth i theta 0) (seq 0 n) <> []).
  { destruct n; [lia | discriminate]. }
  rewrite (vecmat_col _ _ Hne'). cbn [map].
  rewrite trace_zero by (apply mmul_zero_right, zeros2_all_zero).
  rewrite Rabs_R0. eexists. split; [reflexivity |]. ring.
Qed.

End FIRStatic.

Section FIRWhite.
Import PropagateFilter Spec FitFIR FIRFilter.
Context {firlib : FIRLib}.

(** X24.  White noise of standard deviation [s] through an exactly known FIR
    filter, without a low-pass filter: every output sample has the
    uncertainty [|s| * ||theta||]. *)
Theorem FIRuncFilter_white_noise_exact_filter (y : list R) (s : R) (theta : list R)
  (shift : Z) (kind : string) (x : list R) :
  theta <> [] -> kind <> "diag"%string -> lfilter theta y = Ok x ->
  FIRuncFilter y (Some (UFloat s)) theta None shift None kind
  = Returns (roll_back x shift, repeat (Rabs s * sqrt (dotR theta theta)) (length y)).
Proof.
  intros Hne Hk Hx. apply String.eqb_neq in Hk.
  assert (Hn : (1 <= length theta)%nat) by (destruct theta; [congruence | simpl; lia]).
  unfold FIRuncFilter, FIRuncFilter_sigma2, lowpass. cbn [bind fst snd].
  rewrite Hx. cbn [bind]. rewrite Hk.
  unfold eye_nat. rewrite map_map.
  rewrite (map_ext (fun i => map (fun e => e * s ^ 2)
                               (map (fun j => if Nat.eqb j (i + 0) then 1 else 0)
                                    (seq 0 (length theta))))
                   (fun i => map (fun j => (if Nat.eqb j (i + 0) then 1 else 0) * s ^ 2)
                                 (seq 0 (length theta))))
    by (intros i; apply map_map).
  destruct (static_part_diagonal theta
              (fun i j => (if Nat.eqb j (i + 0) then 1 else 0) * s ^ 2)
              (length theta) eq_refl Hn) as [c [Hc Hcv]].
  { intros i j _ _ Hji. rewrite Nat.add_0_r.
    destruct (Nat.eqb_spec j i); [contradiction | ring]. }
  rewrite Hc. cbn [bind lift item hd].
  rewrite unc_exact by exact Hn. cbn [bind]. rewrite broadcast_scalar. cbn [bind lift].
  rewrite map_repeat, roll_back_repeat. do 3 f_equal.
  assert (Hq : c = s ^ 2 * dotR theta theta).
  { rewrite Hcv.
    rewrite (map_ext (fun i => (if Nat.eqb i (i + 0) then 1 else 0) * s ^ 2 * nth i theta 0)
                     (fun i => s ^ 2 * nth i theta 0)).
    - rewrite (map_nth_seq (Rmult (s ^ 2)) theta 0).
      rewrite dotR_comm, dotR_scale. reflexivity.
    - intros i. rewrite Nat.add_0_r, Nat.eqb_refl. ring. }
  rewrite Hq, Rplus_0_r.
  pose proof (dotR_nonneg theta) as Hpos.
  rewrite Rabs_pos_eq by nra.
  rewrite sqrt_mult by nra.
  replace (s ^ 2) with (Rsqr s) by (unfold Rsqr; ring).
  rewrite sqrt_Rsqr_abs. reflexivity.
Qed.

End FIRWhite.

Section FIRDiag.
Import PropagateFilter Spec FitFIR FIRFilter.
Context {firlib : FIRLib}.

Lemma firstn_seq' (n s m : nat) : firstn n (seq s m) = seq s (Nat.min n m).
Proof.
  revert s m. induction n as [| n IH]; intros s [| m]; cbn [firstn seq Nat.min];
    try reflexivity. rewrite IH. reflexivity.
Qed.

Lemma seq_from (k n : nat) : seq k n = map (fun i => (k + i)%nat) (seq 0 n).
Proof.
  revert k. induction n as [| n IH]; intros k; [reflexivity |].
  cbn [seq map]. rewrite Nat.add_0_r. f_equal.
  rewrite (IH (S k)), <- seq_shift, map_map. apply map_ext. intros i. lia.
Qed.

(** a window on the diagonal of a diagonal matrix *)
Lemma window_diag (d : list R) (k n : nat) :
  (k + n <= length d)%nat ->
  window (np_diag1 d) k n
  = map (fun i => map (fun j => if Nat.eqb (k + i) (k + j) then nth (k + i) d 0 else 0)
                      (seq 0 n))
        (seq 0 n).
Proof.
  intros Hk. unfold window, np_diag1.
  rewrite skipn_map, firstn_map, skipn_seq, firstn_seq', map_map.
  replace (Nat.min n (length d - k)) with n by lia. cbn [Nat.add].
  rewrite (seq_from k n), map_map. apply map_ext. intros i.
  rewrite skipn_map, firstn_map, skipn_seq, firstn_seq'.
  replace (Nat.min n (length d - k)) with n by lia. cbn [Nat.add].
  rewrite (seq_from k n), map_map. reflexivity.
Qed.

Lemma last_entry_app (v : list R) (e : R) : last_entry (v ++ [e]) = Ok e.
Proof. unfold last_entry. rewrite rev_unit. reflexivity. Qed.

Lemma extended_eq (s2 : list R) (n : nat) :
  s2 <> [] -> extended s2 n = Ok (s2 ++ repeat (last s2 0) n).
Proof.
  intros Hne. destruct (exists_last Hne) as [v [e ->]].
  unfold extended. rewrite last_entry_app. cbn [bind]. rewrite last_last.
  rewrite map_repeat. do 3 f_equal. ring.
Qed.

(** X25.  Non-stationary white noise with the standard deviations [sigma], one per
    sample, through an exactly known FIR filter, without a low-pass filter:
    the variance of the output sample [k] is the sum of
    [theta[i]^2 sigma[k + i]^2] over the filter taps, the last variance
    standing in beyond the end of [sigma]. *)
Theorem FIRuncFilter_diag_exact_filter (y sigma theta : list R) (shift : Z) (x : list R) :
  theta <> [] -> sigma <> [] -> length sigma = length y -> lfilter theta y = Ok x ->
  let n := length theta in
  let sigma2 := map (fun v => v ^ 2) sigma in
  let ext := sigma2 ++ repeat (last sigma2 0) n in
  FIRuncFilter y (Some (UArray sigma)) theta None shift None "diag"
  = Returns (roll_back x shift,
             roll_back (map (fun k => sqrt (Rabs (dotR theta
                                  (map (fun i => nth (k + i) ext 0 * nth i theta 0)
                                       (seq 0 n)))))
                            (seq 0 (length y))) shift).
Proof.
  intros Hne Hs Hlen Hx n sigma2 ext.
  assert (Hn : (1 <= n)%nat) by (subst n; destruct theta; [congruence | simpl; lia]).
  assert (Hs2 : sigma2 <> []) by (subst sigma2; destruct sigma; [congruence | discriminate]).
  unfold FIRuncFilter, FIRuncFilter_sigma2, lowpass.
  change (String.eqb "diag" "diag") with true. cbn match. fold sigma2. fold n.
  rewrite (extended_eq sigma2 n Hs2). fold ext. cbn [bind fst snd].
  rewrite Hx. cbn [bind].
  assert (HL : length sigma2 = length y) by (subst sigma2; rewrite length_map; exact Hlen).
  assert (Hext : length ext = (length y + n)%nat).
  { subst ext. rewrite length_app, repeat_length, HL. reflexivity. }
  rewrite (mapM_ok _ (fun k => dotR theta (map (fun i => nth (k + i) ext 0 * nth i theta 0)
                                              (seq 0 n)))).
  - cbn [lift]. rewrite unc_exact by exact Hn. cbn [bind].
    unfold broadcast1. rewrite length_map, length_seq, repeat_length, HL, Nat.eqb_refl.
    cbn [bind lift]. rewrite map2_repeat, map_map. do 3 f_equal.
    apply map_ext. intros k. rewrite Rplus_0_r. reflexivity.
  - intros k Hk. apply in_seq in Hk. rewrite window_diag by lia.
    destruct (static_part_diagonal theta
                (fun i j => if Nat.eqb (k + i) (k + j) then nth (k + i) ext 0 else 0)
                n eq_refl Hn) as [c [Hc Hcv]].
    { intros i j _ _ Hji. destruct (Nat.eqb_spec (k + i) (k + j)); [lia | reflexivity]. }
    rewrite Hc. cbn [bind item hd]. f_equal. rewrite Hcv. f_equal.
    apply map_ext. intros i. rewrite Nat.eqb_refl. reflexivity.
Qed.

End FIRDiag.

(** * The stationary state and the DC gain *)

Section DCGainFacts.
Import PropagateFilter Spec.

Lemma tf2ss_eq (b0 a0 : R) (b' a' : list R) :
  length b' = length a' -> (1 <= length a')%nat ->
  _tf2ss (b0 :: b') (a0 :: a')
  = Ok (eye_nat (length a' - 1) (length a') 1 ++ [map Ropp (rev a')],
        col (repeat 0 (length a' - 1) ++ [1]),
        [rev (map2 Rminus b' (map (Rmult b0) a'))],
        [[1 * b0]]).
Proof.
  intros Hb Ha. unfold _tf2ss, np_eye, np_zeros2. cbn [length tl first].
  destruct (Z.ltb_spec (Z.of_nat (S (length a')) - 1 - 1) 0); [lia |].
  destruct (Z.ltb_spec (Z.of_nat (S (length a')) - 1) 0); [lia |].
  change (1 <? 0)%Z with false. cbn [orb bind].
  replace (Z.to_nat (Z.of_nat (S (length a')) - 1 - 1)) with (length a' - 1)%nat by lia.
  replace (Z.to_nat (Z.of_nat (S (length a')) - 1)) with (S (length a' - 1))%nat by lia.
  unfold set_last_row, zeros2. rewrite rev_repeat. cbn [repeat bind].
  unfold np_sub1. rewrite length_map, Hb, Nat.eqb_refl. cbn [bind].
  replace (S (length a' - 1)) with (length a') by lia.
  unfold col. rewrite map_app, map_repeat, rev_repeat. reflexivity.
Qed.

Lemma shaped_col (p : nat) (X : matrix) :
  shaped p 1 X -> X = col (map (hd 0) X) /\ length (map (hd 0) X) = p.
Proof.
  intros [Hl Hr]. split; [| rewrite length_map; exact Hl].
  clear Hl. induction Hr as [| r X Hrow Hr IH]; [reflexivity |].
  cbn [map col]. fold (col (map (hd 0) X)). rewrite <- IH.
  destruct r as [| e [| e' r]]; try discriminate. reflexivity.
Qed.

Lemma col_inj (u v : list R) : col u = col v -> u = v.
Proof.
  revert v. induction u as [| x u IH]; intros [| y v] H; try discriminate; [reflexivity |].
  injection H as -> H. f_equal. apply IH. exact H.
Qed.

Lemma dotR_minus (u v x : list R) :
  length u = length v ->
  dotR (map2 Rminus u v) x = dotR u x - dotR v x.
Proof.
  revert v x. induction u as [| a u IH]; intros [| b v] [| y x] H; unfold dotR in *;
    cbn [map2 dot]; try discriminate; try ring.
  rewrite IH by (simpl in H; lia). ring.
Qed.

Lemma dotR_opp (u x : list R) : dotR (map Ropp u) x = - dotR u x.
Proof.
  revert x. induction u as [| a u IH]; intros [| y x]; unfold dotR in *; cbn [map dot];
    try ring.
  rewrite IH. ring.
Qed.

Lemma dotR_repeat (v : list R) (c : R) :
  dotR v (repeat c (length v)) = c * sum1 0 Rplus v.
Proof.
  induction v as [| e v IH]; unfold dotR, sum1 in *; cbn [length repeat dot fold_right];
    [ring |]. rewrite IH. ring.
Qed.

Lemma sum1_app (u v : list R) : sum1 0 Rplus (u ++ v) = sum1 0 Rplus u + sum1 0 Rplus v.
Proof.
  induction u as [| e u IH]; unfold sum1 in *; cbn [app fold_right]; [ring |].
  rewrite IH. ring.
Qed.

Lemma sum1_rev (v : list R) : sum1 0 Rplus (rev v) = sum1 0 Rplus v.
Proof.
  induction v as [| e v IH]; [reflexivity |].
  cbn [rev]. rewrite sum1_app, IH. unfold sum1. cbn [fold_right]. ring.
Qed.

Lemma sum1_difference (u v : list R) (c : R) :
  length u = length v ->
  sum1 0 Rplus (map2 Rminus u (map (Rmult c) v)) = sum1 0 Rplus u - c * sum1 0 Rplus v.
Proof.
  revert v. induction u as [| a u IH]; intros [| b v] H; try discriminate;
    unfold sum1 in *; cbn [map map2 fold_right]; [ring |].
  rewrite IH by (simpl in H; lia). ring.
Qed.

(** a vector whose neighbouring entries are equal is constant *)
Lemma constant_vector (sv : list R) :
  (forall i, (S i < length sv)%nat -> nth i sv 0 = nth (S i) sv 0) ->
  sv = repeat (last sv 0) (length sv).
Proof.
  induction sv as [| e sv IH]; intros H; [reflexivity |].
  destruct sv as [| e' sv]; [reflexivity |].
  assert (IH' : e' :: sv = repeat (last (e' :: sv) 0) (length (e' :: sv))).
  { apply IH. intros i Hi. apply (H (S i)). simpl in *. lia. }
  change (last (e :: e' :: sv) 0) with (last (e' :: sv) 0).
  change (length (e :: e' :: sv)) with (S (length (e' :: sv))).
  cbn [repeat]. rewrite <- IH'. f_equal.
  pose proof (H 0%nat ltac:(simpl; lia)) as H0. cbn [nth] in H0. rewrite H0.
  cbn [length repeat] in IH'. injection IH' as He' _. exact He'.
Qed.

End DCGainFacts.

Section DCGain.
Import PropagateFilter Spec.
Context {scipy : SciPy}.
Hypothesis solve_sound :
  forall M Rhs X, solve M Rhs = Ok X -> mmul M X = Rhs.
Hypothesis solve_shape :
  forall M Rhs X, solve M Rhs = Ok X -> shaped (length M) (length (hd [] Rhs)) X.

(** X7.  The stationary state reproduces the DC gain of the filter: for a
    constant input [x0] the output [C z + D x0] is [x0 * sum(b) / sum(a)]. *)
Theorem stationary_output_is_dc_gain (b a : list R) (x0 U0 : R) (Ux : option (list R))
  (st : internal_state) :
  length b = length a -> (2 <= length a)%nat -> hd 0 a = 1 ->
  get_initial_internal_state b a x0 U0 Ux = Ok st ->
  let '(A, B, C, D) := st_system st in
  sum1 0 Rplus a <> 0
  /\ item (madd (mmul C (st_z st)) (mscale x0 D)) = x0 * sum1 0 Rplus b / sum1 0 Rplus a.
Proof.
  intros Hb Ha Ha0 Hst.
  destruct a as [| a0 a']; [simpl in Ha; lia |].
  destruct b as [| b0 b']; [discriminate |].
  cbn [hd] in Ha0. subst a0.
  assert (Hb' : length b' = length a') by (simpl in Hb; lia).
  assert (Hp : (1 <= length a')%nat) by (simpl in Ha; lia).
  set (p := length a') in *.
  unfold get_initial_internal_state in Hst.
  rewrite (tf2ss_eq b0 1 b' a' Hb' Hp) in Hst. fold p in Hst. cbn [bind] in Hst.
  assert (HlenA : length (eye_nat (p - 1) p 1 ++ [map Ropp (rev a')]) = p).
  { rewrite length_app. unfold eye_nat. rewrite length_map, length_seq. simpl. lia. }
  rewrite HlenA in Hst.
  revert Hst.
  destruct (solve _ (col _)) as [s |] eqn:Es; cbn [bind]; [| discriminate].
  destruct (solve _ (hstack _)) as [dzs |]; cbn [bind]; [| discriminate].
  destruct (solve_discrete_lyapunov _ _) as [Ps |]; cbn [bind]; [| discriminate].
  destruct (match Ux with Some u => _ | None => _ end) as [c |]; cbn [bind];
    [| discriminate].
  intros [= <-]. cbn [st_system st_z].
  pose proof (solve_sound _ _ _ Es) as Hsound.
  pose proof (solve_shape _ _ _ Es) as Hshape.
  assert (Hw : length (hd [] (col (repeat 0 (p - 1) ++ [1]))) = 1%nat).
  { destruct (p - 1)%nat; reflexivity. }
  rewrite Hw in Hshape.
  assert (HlenI : length (msub (eye_nat p p 0) (eye_nat (p - 1) p 1 ++ [map Ropp (rev a')])) = p).
  { unfold msub. rewrite length_map2, HlenA. unfold eye_nat.
    rewrite length_map, length_seq. apply Nat.min_id. }
  rewrite HlenI in Hshape.
  destruct (shaped_col p s Hshape) as [Hs Hsv].
  set (sv := map (hd 0) s) in *.
  assert (Hsvne : sv <> []) by (intros E; rewrite E in Hsv; simpl in Hsv; lia).
  rewrite Hs in Hsound. rewrite (mmul_col _ sv Hsvne) in Hsound.
  apply col_inj in Hsound.
  (* the equations, row by row *)
  assert (Hrow : forall i, (i < p)%nat ->
            dotR (map2 Rminus (nth i (eye_nat p p 0) [])
                              (nth i (eye_nat (p - 1) p 1 ++ [map Ropp (rev a')]) [])) sv
            = nth i (repeat 0 (p - 1) ++ [1]) 0).
  { intros i Hi. rewrite <- Hsound. unfold matvec.
    rewrite (nth_indep _ 0 (dotR [] sv)) by (rewrite length_map, HlenI; exact Hi).
    rewrite (map_nth (fun r => dotR r sv)). f_equal. unfold msub. symmetry.
    apply nth_map2; [unfold eye_nat; rewrite length_map, length_seq; exact Hi |].
    rewrite HlenA. exact Hi. }
  assert (Heye : forall i k, (i + k < p)%nat ->
            dotR (map (fun j => if Nat.eqb j (i + k) then 1 else 0) (seq 0 p)) sv
            = nth (i + k) sv 0).
  { intros i k Hik.
    rewrite (dotR_seq_select (fun j => if Nat.eqb j (i + k) then 1 else 0) p 0 (i + k) sv);
      [| exact Hik | exact Hsv |].
    - cbn [Nat.add]. rewrite Nat.eqb_refl. ring.
    - intros j _ Hj. cbn [Nat.add]. destruct (Nat.eqb_spec j (i + k)); [contradiction | reflexivity]. }
  assert (Hstep : forall i, (S i < p)%nat -> nth i sv 0 = nth (S i) sv 0).
  { intros i Hi. pose proof (Hrow i ltac:(lia)) as H.
    rewrite app_nth1 in H by (unfold eye_nat; rewrite length_map, length_seq; lia).
    rewrite app_nth1 in H by (rewrite repeat_length; lia).
    unfold eye_nat in H. rewrite !nth_map_seq in H by lia.
    rewrite dotR_minus in H by (rewrite !length_map; reflexivity).
    rewrite (Heye i 0%nat) in H by lia. rewrite (Heye i 1%nat) in H by lia.
    rewrite nth_repeat in H. rewrite Nat.add_0_r in H.
    replace (i + 1)%nat with (S i) in H by lia. lra. }
  assert (Hlast : nth (p - 1) sv 0 + dotR (rev a') sv = 1).
  { pose proof (Hrow (p - 1)%nat ltac:(lia)) as H.
    rewrite app_nth2 in H by (unfold eye_nat; rewrite length_map, length_seq; lia).
    rewrite app_nth2 in H by (rewrite repeat_length; lia).
    unfold eye_nat in H at 2. rewrite length_map, length_seq, repeat_length in H.
    rewrite Nat.sub_diag in H. cbn [nth] in H.
    unfold eye_nat in H. rewrite nth_map_seq in H by lia.
    rewrite dotR_minus in H by (rewrite !length_map, length_seq, length_rev; reflexivity).
    rewrite (Heye (p - 1)%nat 0%nat) in H by lia. rewrite dotR_opp, Nat.add_0_r in H. lra. }
  pose proof (constant_vector sv) as Hconst. rewrite Hsv in Hconst.
  specialize (Hconst Hstep).
  set (zeta := last sv 0) in *.
  assert (Hz : nth (p - 1) sv 0 = zeta).
  { rewrite Hconst. apply nth_repeat_lt. lia. }
  assert (Hsum : zeta * (1 + sum1 0 Rplus a') = 1).
  { rewrite Hz in Hlast. rewrite Hconst in Hlast.
    replace p with (length (rev a')) in Hlast at 1 by (rewrite length_rev; reflexivity).
    rewrite dotR_repeat, sum1_rev in Hlast. lra. }
  assert (Hsa : sum1 0 Rplus (1 :: a') = 1 + sum1 0 Rplus a') by reflexivity.
  assert (Hsb : sum1 0 Rplus (b0 :: b') = b0 + sum1 0 Rplus b') by reflexivity.
  assert (Hnz : 1 + sum1 0 Rplus a' <> 0) by (intros E; rewrite E in Hsum; lra).
  split; [rewrite Hsa; exact Hnz |].
  rewrite Hs, mscale_col, mmul_row.
  rewrite vecmat_col by (destruct sv; [congruence | discriminate]).
  cbn [madd map2 mscale map item hd].
  rewrite Hconst, map_repeat.
  replace p with (length (rev (map2 Rminus b' (map (Rmult b0) a')))).
  2: { rewrite length_rev, length_map2, length_map, Hb'. apply Nat.min_id. }
  rewrite dotR_repeat, sum1_rev, sum1_difference by exact Hb'.
  rewrite Hsa, Hsb.
  set (Sa := sum1 0 Rplus a') in *. set (Sb := sum1 0 Rplus b') in *.
  apply (Rmult_eq_reg_r (1 + Sa)); [| exact Hnz].
  replace (x0 * (b0 + Sb) / (1 + Sa) * (1 + Sa)) with (x0 * (b0 + Sb)) by (field; exact Hnz).
  replace ((x0 * zeta * (Sb - b0 * Sa) + x0 * (1 * b0)) * (1 + Sa))
    with (x0 * (Sb - b0 * Sa) * (zeta * (1 + Sa)) + x0 * b0 * (1 + Sa)) by ring.
  rewrite Hsum. ring.
Qed.

End DCGain.

(** * The loop of [IIRuncFilter] and the shape of [FIRuncFilter]'s results *)

Section SparseLoop.
Import PropagateFilter Spec.

(** X9.  The matrix [dA_z] that the loop of [IIRuncFilter] builds directly, zero
    rows above the row [-reverse(z)], is [np.hstack(dA @ z)], which it
    replaces and which [get_initial_internal_state] computes. *)
Theorem loop_dA_z_is_hstack (zv : list R) (Z0 : matrix) :
  (1 <= length zv)%nat ->
  np_zeros2 (Z.of_nat (length zv) - 1) (Z.of_nat (length zv)) = Ok Z0 ->
  Z0 ++ mneg (mT (rev (col zv)))
  = hstack (map (fun dAk => mmul dAk (col zv)) (_get_derivative_A (length zv))).
Proof.
  intros Hz HZ0. rewrite hstack_derivative_sparse by exact Hz.
  unfold np_zeros2 in HZ0.
  destruct (Z.ltb_spec (Z.of_nat (length zv) - 1) 0); [lia |].
  destruct (Z.ltb_spec (Z.of_nat (length zv)) 0); [lia |].
  cbn [orb] in HZ0. injection HZ0 as <-.
  replace (Z.to_nat (Z.of_nat (length zv) - 1)) with (length zv - 1)%nat by lia.
  rewrite Nat2Z.id, rev_col, mT_col, mneg_row; [reflexivity |].
  apply nonempty_length. rewrite length_rev. exact Hz.
Qed.

End SparseLoop.

Section CorrStationary.
Import PropagateFilter Spec.
Context {scipy : SciPy}.

Lemma dotR_zero_left (u x : list R) : Forall (fun v => v = 0) u -> dotR u x = 0.
Proof.
  intros Hu. revert x. induction Hu as [| e u He Hu IH]; intros [| y x]; unfold dotR in *;
    cbn [dot]; try reflexivity.
  rewrite IH, He. ring.
Qed.

(** In the "corr" mode with exact coefficients, a pass of the loop gives the
    cached [corr_unc] as squared uncertainty. *)
Lemma iir_loop_corr_exact (a : list R) (A : matrix) (B C : list R) (d : R) (p : nat)
  (corr : R) (Uab : matrix) (Ux xs : list R) (n : nat) (z : list R) (dz P : matrix) :
  (1 <= p)%nat -> length a = S p -> shaped p p A -> length B = p -> length C = p ->
  all_zero Uab -> Ux <> [] -> length z = p ->
  exists ys fin,
    iir_loop "corr"%string a (Z.of_nat (length a) - 1) A (col B) [C] [[d]] corr Uab Ux xs n
      (mk_loop (col z) dz P)
    = Ok (ys, repeat (0 + corr) (length xs), fin).
Proof.
  intros Hp Ha HA HB HC HU HUx. revert n z dz P.
  induction xs as [| xn xs IH]; intros n z dz P Hz.
  - eexists _, _. reflexivity.
  - cbn [iir_loop]. unfold iir_step. cbn [String.eqb Ascii.eqb Bool.eqb cur_z cur_dz cur_P].
    unfold index. destruct Ux as [| u0 Ux']; [congruence |]. cbn [nth_error bind].
    unfold np_zeros2.
    destruct (Z.ltb_spec (Z.of_nat (length a) - 1 - 1) 0); [lia |].
    destruct (Z.ltb_spec (Z.of_nat (length a) - 1) 0); [lia |].
    cbn [orb bind].
    assert (Hz' : z <> []) by (apply nonempty_length; lia).
    rewrite (phi_of_col a B C d p Hp Ha HB HC z dz P xn Hz).
    rewrite mT_col by apply phi_nonempty.
    rewrite !mmul_row, !vecmat_col by (first [exact Hz' | apply phi_nonempty]).
    assert (Hq : dotR (vecmat 0 Rplus Rmult (phi C d a (mk z dz P) xn) Uab)
                      (phi C d a (mk z dz P) xn) = 0).
    { apply dotR_zero_left. apply vecmat_w_zero_right. exact HU. }
    rewrite Hq. cbn [map item hd].
    rewrite mmul_col, mscale_col, madd_col by exact Hz'.
    match goal with
    | |- context [iir_loop _ _ _ _ _ _ _ _ _ _ xs (S n) (mk_loop (col ?z1) ?dz1 ?P1)] =>
        destruct (IH (S n) z1 dz1 P1) as [ys [fin Hl]]
    end.
    { destruct HA as [HAl _]. unfold matvec.
      rewrite length_map2, !length_map, HAl, HB. apply Nat.min_id. }
    rewrite Hl. cbn [bind length repeat]. eexists _, _. reflexivity.
Qed.

(** X26.  In a mode other than "diag" with exact coefficients, every sample
    gets the same uncertainty, the square root of the cached [corr_unc] of
    the state the call starts from; the state and a given [Uab] have the
    shapes of a filter of order [p]. *)
Theorem IIRuncFilter_corr_exact_is_stationary (x : list R) (Ux : uncert) (b b' a : list R)
  (Uab : option matrix) (init : option internal_state) (return_state : bool) (kind : string)
  (p : nat) (A : matrix) (B C : list R) (d : R) (z : list R) (dz P : matrix) (corr : R) :
  kind <> "diag"%string ->
  (1 <= p)%nat -> length a = S p -> pad_b b a = Ok b' ->
  (forall M, Uab = Some M -> shaped (2 * p + 1) (2 * p + 1) M) ->
  (forall M, Uab = Some M -> all_zero M) ->
  initial_state b' a (as_array Ux x) init kind
  = Ok (mk_state (col z) dz P (A, col B, [C], [[d]]) corr) ->
  shaped p p A -> length B = p -> length C = p -> length z = p ->
  shaped p p dz -> shaped p p P ->
  as_array Ux x <> [] ->
  exists y st,
    IIRuncFilter x Ux b a Uab init return_state kind
    = Ok (y, repeat (sqrt (Rabs corr)) (length x), st).
Proof.
  intros Hk Hp Ha Hb _ HU Hinit HA HB HC Hz _ _ HUx. apply String.eqb_neq in Hk.
  unfold IIRuncFilter.
  assert (HUab : exists U, match Uab with
                 | Some M => Ok M
                 | None => np_zeros2 (2 * (Z.of_nat (length a) - 1) + 1)
                             (2 * (Z.of_nat (length a) - 1) + 1)
                 end = Ok U /\ all_zero U).
  { destruct Uab as [M |].
    - exists M. split; [reflexivity | apply HU; reflexivity].
    - unfold np_zeros2.
      destruct (Z.ltb_spec (2 * (Z.of_nat (length a) - 1) + 1) 0); [lia |].
      cbn [orb]. eexists. split; [reflexivity | apply zeros2_all_zero]. }
  destruct HUab as [U [-> HUz]]. cbn [bind]. rewrite Hb. cbn [bind].
  rewrite Hinit. cbn [bind st_system st_z st_dz st_P st_corr_unc].
  unfold np_zeros2 at 1.
  destruct (Z.ltb_spec (2 * (Z.of_nat (length a) - 1) + 1) 0); [lia |].
  change (1 <? 0)%Z with false. cbn [orb bind].
  rewrite (iir_loop_not_diag kind) by exact Hk.
  destruct (iir_loop_corr_exact a A B C d p corr U (as_array Ux x) x 0 z dz P
              Hp Ha HA HB HC HUz HUx Hz) as [ys [fin ->]].
  cbn [bind]. rewrite map_repeat, Rplus_0_l.
  destruct return_state; eexists _, _; reflexivity.
Qed.

End CorrStationary.

Section FIRShape.
Import PropagateFilter Spec FitFIR FIRFilter.
Context {firlib : FIRLib}.

Lemma length_roll_back (v : list R) (shift : Z) : length (roll_back v shift) = length v.
Proof.
  unfold roll_back. destruct v as [| e v]; [reflexivity |].
  set (l := e :: v). set (k := Z.to_nat (shift mod Z.of_nat (length l))).
  rewrite length_app, length_skipn, length_firstn. lia.
Qed.

Lemma Forall_roll_back (Q : R -> Prop) (v : list R) (shift : Z) :
  Forall Q v -> Forall Q (roll_back v shift).
Proof.
  intros Hv. unfold roll_back. destruct v as [| e v]; [constructor |].
  set (l := e :: v) in *. set (k := Z.to_nat (shift mod Z.of_nat (length l))).
  rewrite <- (firstn_skipn k l) in Hv. apply Forall_app in Hv. destruct Hv as [Hf Hs].
  apply Forall_app. split; [exact Hs | exact Hf].
Qed.

Lemma for_each_length (xlow : list R) (n : nat) (Utheta : matrix) (range : list nat)
  (unc unc' : list R) :
  for_each (dynamic_part xlow n Utheta) unc range = Ok unc' -> length unc' = length unc.
Proof.
  revert unc. induction range as [| m range IH]; intros unc; cbn [for_each].
  - intros [= <-]. reflexivity.
  - unfold dynamic_part at 1.
    destruct (np_dot Utheta _) as [UX |]; cbn [bind]; [| discriminate].
    destruct (np_dot _ UX) as [q |]; cbn [bind]; [| discriminate].
    destruct (Nat.ltb m (length unc)); cbn [bind]; [| discriminate].
    intros H. rewrite (IH _ H). apply length_upd.
Qed.

Lemma length_broadcast_one (c : R) (unc s : list R) :
  broadcast1 Rplus [c] unc = Ok s -> length s = length unc.
Proof.
  unfold broadcast1. cbn [length].
  destruct (Nat.eqb_spec 1 (length unc)) as [E | E].
  - destruct unc as [| u [| u' unc]]; try discriminate E. intros [= <-]. reflexivity.
  - intros [= <-]. apply length_map.
Qed.

(** X27.  With a [kind] other than "diag", a call that returns gives one
    uncertainty per sample of [y], and none is negative. *)
Theorem FIRuncFilter_output_shape (y : list R) (sigma_noise : option uncert)
  (theta : list R) (Utheta : option matrix) (shift : Z) (blow : option (list R))
  (kind : string) (x ux : list R) :
  kind <> "diag"%string ->
  FIRuncFilter y sigma_noise theta Utheta shift blow kind = Returns (x, ux) ->
  length ux = length y /\ Forall (fun u => 0 <= u) ux.
Proof.
  intros Hk. apply String.eqb_neq in Hk. unfold FIRuncFilter.
  destruct (FIRuncFilter_sigma2 sigma_noise kind) as [sigma2 |]; [| discriminate].
  destruct (lowpass y sigma2 (length theta) blow kind) as [[U xlow] |]; cbn [bind fst snd];
    [| discriminate].
  destruct (lfilter theta xlow) as [xf |]; cbn [bind]; [| discriminate].
  rewrite Hk.
  destruct (static_part theta U _) as [c |]; cbn [bind lift]; [| discriminate].
  destruct (for_each _ _ _) as [unc |] eqn:Eunc; cbn [bind]; [| discriminate].
  destruct (broadcast1 Rplus [item c] unc) as [s |] eqn:Es; cbn [bind lift]; [| discriminate].
  intros [= _ <-]. split.
  - rewrite length_roll_back, length_map, (length_broadcast_one _ _ _ Es).
    rewrite (for_each_length _ _ _ _ _ _ Eunc). apply length_map.
  - apply Forall_roll_back, Forall_map, Forall_forall. intros v _. apply sqrt_pos.
Qed.

End FIRShape.

(** * Worked examples for the further properties *)

Section FitExamples.
Import Complex FitFilter FirstOrder FitFIR AnyShape.

Lemma lstsq_any_length (M : matrix) (v : list R) :
  length (lstsq_any M v) = length (hd [] M).
Proof.
  unfold lstsq_any. destruct (lstsq2 M v) as [| e r] eqn:E; [apply repeat_length |].
  unfold lstsq2 in E.
  destruct M as [| [| m11 [| m12 [| m13 r1]]] [| [| m21 [| m22 [| m23 r2]]] [| r3 M]]];
    destruct v as [| t1 [| t2 [| t3 v]]]; try discriminate E;
    injection E as <- <-; reflexivity.
Qed.

Lemma LSFIR_matrix_weights_raise_witness :
  let H : list C := [(1, 0); (1, 0)] in
  let f : list R := [0; 1 / 2] in
  let W : matrix := [[1; 0]; [0; 1]] in
  (2 <= length f)%nat
  /\ @LSFIR numlib1 H 0 0 f 1 (Some (W2 W)) = Raise LinAlgError
  /\ @invLSFIR numlib1 H 0 0 f 1 (Some (W2 W)) = Raise LinAlgError.
Proof.
  intros H f W. split; [apply le_n |].
  apply (@LSFIR_matrix_weights_raise numlib1 H 0 0 f 1 W);
    [reflexivity | reflexivity | reflexivity | apply le_n].
Defined.

Lemma LSFIR_returns_coefficients_witness :
  let H : list C := [(0, 1)] in
  let f : list R := [1 / 4] in
  f <> [] /\ length H = length f
  /\ exists b, @LSFIR numlib_any H 1 0 f 1 None = Ok b
               /\ @invLSFIR numlib_any H 1 0 f 1 None = Ok b
               /\ length b = 2%nat.
Proof.
  intros H f. split; [discriminate |]. split; [reflexivity |].
  apply (@LSFIR_returns_coefficients numlib_any lstsq_any_length H 1 0 f 1 None);
    [discriminate | reflexivity | left; reflexivity].
Defined.

(** the fit of [fit_pole_at_half] with [lstsq_any], and the call that
    makes it *)
Lemma fit_pole_at_half_any :
  @fit numlib_any [(2, 0); (2 / 3, 0)] 0 1 [0; 1 / 2] 1 false 0 = ([1], [1; -1 / 2]).
Proof.
  unfold FitFilter.fit, FitFilter._fitIIR, FitFilter.w_of, FitFilter.E_of; cbn;
    unfold Cmul, Cneg, Ci, RtoC, Cexp, Cconj, Cre, Cadd, Cinv; cbn;
    eval_trig.
  apply f_equal2; [apply f_equal2; [field | reflexivity] |].
  apply f_equal2; [reflexivity |]. apply f_equal2; [field | reflexivity].
Qed.

Lemma LSIIR_pole_at_half_any :
  @LSIIR numlib_any [(2, 0); (2 / 3, 0)] 0 1 [0; 1 / 2] 1 0 false true 50 false UH2 1000
  = Ok ([1], [1; -1 / 2], 0%Z).
Proof.
  apply (@LSIIR_refits numlib_any _ 0 1 _ 1 50 false 0 true UH2 1000 [1] [1; -1 / 2] [0]).
  - reflexivity.
  - apply UH2_accepted.
  - exact fit_pole_at_half_any.
  - apply (@check_stability_false_iff numlib_any). intros r Hr.
    apply Rlt_le. apply stable_pole_at_half. exact Hr.
  - exact mapinside_pole_at_half.
  - reflexivity.
  - cbn. lra.
Qed.

Lemma LSIIR_shapes_witness :
  let Hvals : list C := [(2, 0); (2 / 3, 0)] in
  let f : list R := [0; 1 / 2] in
  let b : list R := [1] in
  let a : list R := [1; -1 / 2] in
  @LSIIR numlib_any Hvals 0 1 f 1 0 false true 50 false UH2 1000 = Ok (b, a, 0%Z)
  /\ length b = 1%nat /\ length a = 2%nat /\ hd 0 a = 1.
Proof.
  intros Hvals f b a. split; [exact LSIIR_pole_at_half_any |].
  apply (@LSIIR_shapes numlib_any lstsq_any_length Hvals 0 1 f 1 0 false true 50 false
           UH2 1000 b a 0 LSIIR_pole_at_half_any).
Defined.

Lemma LSIIR_justFit_returns_zero_witness :
  covariance_accepted [(1, 0)] UH1 1000
  /\ @LSIIR numlib1 [(1, 0)] 0 0 [0] 1 5 true true 50 false UH1 1000 = Ok ([1], [1], 0%Z).
Proof.
  split; [apply UH1_accepted |].
  rewrite (@LSIIR_justFit_returns_zero numlib1 [(1, 0)] 0 0 [0] 1 50 false 5 true UH1 1000
             eq_refl (UH1_accepted _)).
  rewrite fit_order_0. reflexivity.
Defined.

Lemma LSIIR_ndarray_UHvals_raises_witness :
  concat [[1; 0]; [0; 1]] = 1 :: 0 :: [0; 1]
  /\ @LSIIR numlib1 [(1, 0)] 0 0 [0] 1 0 false true 50 false
       (PyNdarray [[1; 0]; [0; 1]]) 1000 = Raise ValueError.
Proof.
  split; [reflexivity |].
  apply (@LSIIR_ndarray_UHvals_raises numlib1 [(1, 0)] 0 0 [0] 1 50 false 0 false true
           [[1; 0]; [0; 1]] 1 0 [0; 1] 1000).
  reflexivity.
Defined.

End FitExamples.

Section PropagateWitnesses.
Import PropagateFilter Spec FirstOrder.

Lemma solve1_shape M Rhs X :
  solve1 M Rhs = Ok X -> shaped (length M) (length (hd [] Rhs)) X.
Proof.
  unfold solve1.
  destruct M as [| [| m [| m' r]] [| r' M]]; try discriminate.
  destruct Rhs as [| row [| row' Rhs]]; try discriminate.
  destruct (Req_dec_T m 0); [discriminate |]. intros [= <-].
  split; [reflexivity |]. repeat constructor. apply length_map.
Qed.

Lemma lyapunov1_zero A Q X :
  lyapunov1 A Q = Ok X -> all_zero Q -> all_zero X.
Proof.
  unfold lyapunov1.
  destruct A as [| [| a [| a' r]] [| r' A]]; try discriminate.
  destruct Q as [| [| q [| q' s]] [| s' Q]]; try discriminate.
  destruct (Req_dec_T (1 - a * a) 0); [discriminate |]. intros [= <-] HQ.
  inversion HQ as [| ? ? Hrow _]; subst. inversion Hrow as [| ? ? Hq _]; subst.
  repeat constructor. unfold Rdiv. ring.
Qed.

(** the stationary state of the low-pass for the constant input 1 *)
Lemma stationary_state_low_pass :
  get_initial_internal_state [1 / 2; 0] [1; -1 / 2] 1 1 None
  = Ok (mk_state [[2]] [[-4]] [[4 / 3]] ([[1 / 2]], col [1], [[1 / 4]], [[1 / 2]]) 0).
Proof.
  unfold get_initial_internal_state. run.
  apply f_equal. apply f_equal5; real_values.
Qed.

(** the low-pass on the samples 1, 2 without any uncertainty *)
Lemma IIRuncFilter_low_pass_exact :
  IIRuncFilter [1; 2] (UFloat 0) [1 / 2] [1; -1 / 2] (Some (zeros2 3 3)) None false
    "diag"%string
  = Ok ([1 / 2; 5 / 4], [0; 0], None).
Proof.
  unfold IIRuncFilter, initial_state, get_initial_internal_state. run. unfold Rsqr.
  match goal with
  | |- Ok (_, [sqrt (Rabs ?e1); sqrt (Rabs ?e2)], _) = _ =>
      replace e1 with 0 by (field; lra);
      replace e2 with 0 by (field; lra)
  end.
  rewrite Rabs_R0, sqrt_0. real_values.
Qed.

Lemma IIRuncFilter_output_shape_witness :
  IIRuncFilter [1; 2] (UFloat (1 / 10)) [1 / 2] [1; -1 / 2] None None false "diag"%string
  = Ok ([1 / 2; 5 / 4], [1 / 20; sqrt (1 / 320)], None)
  /\ length [1 / 2; 5 / 4] = 2%nat /\ length [1 / 20; sqrt (1 / 320)] = 2%nat
  /\ Forall (fun u => 0 <= u) [1 / 20; sqrt (1 / 320)]
  /\ @None internal_state = None.
Proof.
  split; [apply IIRuncFilter_low_pass_values |].
  apply (@IIRuncFilter_output_shape scipy1 [1; 2] (UFloat (1 / 10)) [1 / 2] [1; -1 / 2]
           None None false "diag"%string [1 / 2; 5 / 4] [1 / 20; sqrt (1 / 320)] None).
  apply IIRuncFilter_low_pass_values.
Defined.

Lemma IIRuncFilter_short_Ux_raises_witness :
  let a : list R := [1; -1 / 2] in
  let x : list R := [1; 2] in
  let us : list R := [1 / 10] in
  (2 <= length a)%nat /\ pad_b [1 / 2] a = Ok [1 / 2; 0] /\ (length us < length x)%nat
  /\ IIRuncFilter x (UArray us) [1 / 2] a None None false "diag"%string = Raise IndexError.
Proof.
  intros a x us. split; [apply le_n |]. split; [reflexivity |]. split; [apply le_n |].
  apply (@IIRuncFilter_short_Ux_raises scipy1 x us [1 / 2] a [1 / 2; 0] None None false
           (mk_state (col [0]) [[0]] [[0]] ([[1 / 2]], col [1], [[1 / 4]], [[1 / 2]]) 0)).
  - apply le_n.
  - reflexivity.
  - apply initial_state_low_pass.
  - repeat split; repeat constructor.
  - intros M HM. discriminate HM.
  - apply le_n.
Defined.

Lemma IIRuncFilter_empty_signal_witness :
  let st := mk_state (col [1]) [[0]] [[0]] ([[1 / 2]], col [1], [[1 / 4]], [[1 / 2]]) 0 in
  let a : list R := [1; -1 / 2] in
  (1 <= length a)%nat /\ (length [1 / 2] <= length a)%nat
  /\ IIRuncFilter [] (UFloat (1 / 10)) [1 / 2] a None (Some st) true "diag"%string
     = Ok ([], [], Some st).
Proof.
  intros st a. split; [apply le_S, le_n |]. split; [apply le_S, le_n |].
  apply (@IIRuncFilter_empty_signal scipy1 (UFloat (1 / 10)) [1 / 2] a None st "diag"%string);
    apply le_S, le_n.
Defined.

Lemma IIRuncFilter_order_0_raises_witness :
  (length [1] <= 1)%nat
  /\ IIRuncFilter [1; 2] (UFloat (1 / 10)) [1 / 2] [1] None None false "diag"%string
     = Raise ValueError.
Proof.
  split; [apply le_n |].
  apply (@IIRuncFilter_order_0_raises scipy1 [1; 2] (UFloat (1 / 10)) [1 / 2] [1] None false
           "diag"%string).
  apply le_n.
Defined.

Lemma IIRuncFilter_signal_independent_of_uncertainty_witness :
  IIRuncFilter [1; 2] (UFloat (1 / 10)) [1 / 2] [1; -1 / 2] None None false "diag"%string
  = Ok ([1 / 2; 5 / 4], [1 / 20; sqrt (1 / 320)], None)
  /\ IIRuncFilter [1; 2] (UFloat 0) [1 / 2] [1; -1 / 2] (Some (zeros2 3 3)) None false
       "diag"%string
     = Ok ([1 / 2; 5 / 4], [0; 0], None)
  /\ [1 / 2; 5 / 4] = [1 / 2; 5 / 4].
Proof.
  split; [apply IIRuncFilter_low_pass_values |].
  split; [apply IIRuncFilter_low_pass_exact |].
  apply (@IIRuncFilter_signal_independent_of_uncertainty scipy1 [1; 2]
           (UFloat (1 / 10)) (UFloat 0) [1 / 2] [1; -1 / 2] None (Some (zeros2 3 3))
           false false "diag"%string "diag"%string
           [1 / 2; 5 / 4] [1 / 20; sqrt (1 / 320)] [1 / 2; 5 / 4] [0; 0] None None
           IIRuncFilter_low_pass_values IIRuncFilter_low_pass_exact).
Defined.

Lemma IIRuncFilter_diag_zero_witness :
  let a : list R := [1; -1 / 2] in
  let x : list R := [1; 2] in
  (2 <= length a)%nat /\ pad_b [1 / 2] a = Ok [1 / 2; 0]
  /\ Forall (fun v => v = 0) (as_array (UFloat 0) x)
  /\ exists y Uy st,
       IIRuncFilter x (UFloat 0) [1 / 2] a None None false "diag"%string = Ok (y, Uy, st)
       /\ Forall (fun v => v = 0) Uy /\ length Uy = length x.
Proof.
  intros a x.
  assert (HU : Forall (fun v => v = 0) (as_array (UFloat 0) x)).
  { repeat constructor; apply Rmult_0_l. }
  split; [apply le_n |]. split; [reflexivity |]. split; [exact HU |].
  apply (@IIRuncFilter_diag_zero scipy1 lyapunov1_zero x (UFloat 0) [1 / 2] a None false
           [1 / 2; 0]
           (mk_state (col [0]) [[0]] [[0]] ([[1 / 2]], col [1], [[1 / 4]], [[1 / 2]]) 0)).
  - apply le_n.
  - reflexivity.
  - exact (initial_state_low_pass []).
  - repeat split; repeat constructor.
  - intros M HM. discriminate HM.
  - intros M HM. discriminate HM.
  - exact HU.
  - apply le_n.
Defined.

Lemma derivative_A_is_partial_derivative_witness :
  let b : list R := [1 / 2; 0; 0] in
  let a : list R := [1; -1 / 2; 1 / 4] in
  length b = length a /\ (2 <= length a)%nat /\ (1 < length a - 1)%nat
  /\ A_of b (perturb a 2 1)
     = madd (A_of b a) (mscale 1 (nth 1 (_get_derivative_A (length a - 1)) [])).
Proof.
  intros b a. split; [reflexivity |]. split; [apply le_S, le_n |]. split; [apply le_n |].
  apply (derivative_A_is_partial_derivative b a 1 1);
    [reflexivity | apply le_S, le_n | apply le_n].
Defined.

Lemma loop_dA_z_is_hstack_witness :
  let zv : list R := [1; 2] in
  (1 <= length zv)%nat
  /\ np_zeros2 (Z.of_nat (length zv) - 1) (Z.of_nat (length zv)) = Ok [[0; 0]]
  /\ [[0; 0]] ++ mneg (mT (rev (col zv)))
     = hstack (map (fun dAk => mmul dAk (col zv)) (_get_derivative_A (length zv))).
Proof.
  intros zv. split; [apply le_S, le_n |]. split; [reflexivity |].
  apply (loop_dA_z_is_hstack zv [[0; 0]]); [apply le_S, le_n | reflexivity].
Defined.

Lemma stationary_output_is_dc_gain_witness :
  let b : list R := [1 / 2; 0] in
  let a : list R := [1; -1 / 2] in
  let z : matrix := [[2]] in
  get_initial_internal_state b a 1 1 None
  = Ok (mk_state z [[-4]] [[4 / 3]] ([[1 / 2]], col [1], [[1 / 4]], [[1 / 2]]) 0)
  /\ sum1 0 Rplus a <> 0
  /\ item (madd (mmul [[1 / 4]] z) (mscale 1 [[1 / 2]])) = 1 * sum1 0 Rplus b / sum1 0 Rplus a.
Proof.
  intros b a z. split; [apply stationary_state_low_pass |].
  apply (@stationary_output_is_dc_gain scipy1 solve1_sound solve1_shape b a 1 1 None
           (mk_state z [[-4]] [[4 / 3]] ([[1 / 2]], col [1], [[1 / 4]], [[1 / 2]]) 0)).
  - reflexivity.
  - apply le_n.
  - reflexivity.
  - apply stationary_state_low_pass.
Defined.

(** the filter b = [1, 0], a = [1, 0] started afresh in the "corr" mode on
    an autocovariance of zeros *)
Lemma initial_state_identity_corr :
  initial_state [1; 0] [1; 0] [0; 0] None "corr"%string
  = Ok (mk_state (col [0]) [[0]] [[0]] ([[0]], col [1], [[0]], [[1]]) 2).
Proof.
  unfold initial_state, get_initial_internal_state. run.
  apply f_equal. apply f_equal5; real_values.
Qed.

Lemma IIRuncFilter_corr_exact_is_stationary_witness :
  let x : list R := [0; 0] in
  let a : list R := [1; 0] in
  "corr"%string <> "diag"%string /\ length a = 2%nat /\ pad_b [1; 0] a = Ok [1; 0]
  /\ as_array (UArray [0; 0]) x <> []
  /\ exists y st,
       IIRuncFilter x (UArray [0; 0]) [1; 0] a None None false "corr"%string
       = Ok (y, repeat (sqrt (Rabs 2)) (length x), st).
Proof.
  intros x a. split; [discriminate |]. split; [reflexivity |]. split; [reflexivity |].
  split; [discriminate |].
  apply (@IIRuncFilter_corr_exact_is_stationary scipy1 x (UArray [0; 0]) [1; 0] [1; 0] a
           None None false "corr"%string 1 [[0]] [1] [0] 1 [0] [[0]] [[0]] 2).
  - discriminate.
  - apply le_n.
  - reflexivity.
  - reflexivity.
  - intros M HM. discriminate HM.
  - intros M HM. discriminate HM.
  - apply initial_state_identity_corr.
  - split; [reflexivity | repeat constructor].
  - reflexivity.
  - reflexivity.
  - reflexivity.
  - split; [reflexivity | repeat constructor].
  - split; [reflexivity | repeat constructor].
  - discriminate.
Defined.

End PropagateWitnesses.

Section FIRWitnesses.
Import PropagateFilter Spec FitFIR FIRFilter PlainFIR.

Lemma FIRuncFilter_rejects_noise_witness :
  (@None uncert = None
   \/ (exists s, @None uncert = Some (UArray s))
      /\ "corr"%string <> "diag"%string /\ "corr"%string <> "corr"%string)
  /\ @FIRuncFilter firlib_plain [1; 2] None [1] None 0 None "corr" = Raises (Exn ValueError).
Proof.
  split; [left; reflexivity |].
  apply (@FIRuncFilter_rejects_noise firlib_plain [1; 2] None [1] None 0 None "corr"%string).
  left. reflexivity.
Defined.

Lemma FIRuncFilter_float_kind_ignored_witness :
  "gauss"%string <> "diag"%string
  /\ @FIRuncFilter firlib_plain [1; 2] (Some (UFloat (1 / 10))) [1] None 0 None "gauss"
     = @FIRuncFilter firlib_plain [1; 2] (Some (UFloat (1 / 10))) [1] None 0 None "corr".
Proof.
  split; [discriminate |].
  apply (@FIRuncFilter_float_kind_ignored firlib_plain [1; 2] (1 / 10) [1] None 0 None
           "gauss"%string).
  discriminate.
Defined.

Lemma FIRuncFilter_float_diag_raises_witness :
  @lfilter firlib_plain [1] [1; 2] = Ok (fir [1] [1; 2])
  /\ @FIRuncFilter firlib_plain [1; 2] (Some (UFloat (1 / 10))) [1] None 0 None "diag"
     = Raises TypeError.
Proof.
  split; [reflexivity |].
  apply (@FIRuncFilter_float_diag_raises firlib_plain [1; 2] (1 / 10) [1] None 0 None
           (map (map (fun e => e * (1 / 10) ^ 2)) (eye_nat 1 1 0)) [1; 2] (fir [1] [1; 2]));
    reflexivity.
Defined.

Lemma FIRuncFilter_white_noise_exact_filter_witness :
  let theta : list R := [1 / 2; 1 / 2] in
  let y : list R := [1; 2; 3] in
  theta <> [] /\ "corr"%string <> "diag"%string
  /\ @lfilter firlib_plain theta y = Ok (fir theta y)
  /\ @FIRuncFilter firlib_plain y (Some (UFloat (1 / 10))) theta None 0 None "corr"
     = Returns (roll_back (fir theta y) 0,
                repeat (Rabs (1 / 10) * sqrt (dotR theta theta)) 3).
Proof.
  intros theta y. split; [discriminate |]. split; [discriminate |]. split; [reflexivity |].
  apply (@FIRuncFilter_white_noise_exact_filter firlib_plain y (1 / 10) theta 0
           "corr"%string (fir theta y));
    [discriminate | discriminate | reflexivity].
Defined.

Lemma FIRuncFilter_diag_exact_filter_witness :
  let theta : list R := [1 / 2; 1 / 2] in
  let y : list R := [1; 2; 3] in
  let sigma : list R := [1 / 10; 1 / 5; 1 / 10] in
  let ext := map (fun v => v ^ 2) sigma ++ repeat (last (map (fun v => v ^ 2) sigma) 0) 2 in
  theta <> [] /\ sigma <> [] /\ length sigma = length y
  /\ @lfilter firlib_plain theta y = Ok (fir theta y)
  /\ @FIRuncFilter firlib_plain y (Some (UArray sigma)) theta None 0 None "diag"
     = Returns (roll_back (fir theta y) 0,
                roll_back (map (fun k => sqrt (Rabs (dotR theta
                                     (map (fun i => nth (k + i) ext 0 * nth i theta 0)
                                          (seq 0 2)))))
                               (seq 0 3)) 0).
Proof.
  intros theta y sigma ext. split; [discriminate |]. split; [discriminate |].
  split; [reflexivity |]. split; [reflexivity |].
  apply (@FIRuncFilter_diag_exact_filter firlib_plain y sigma theta 0 (fir theta y));
    [discriminate | discriminate | reflexivity | reflexivity].
Defined.

(** a moving average of two samples over three samples with white noise *)
Lemma FIRuncFilter_average_returns :
  exists x ux,
    @FIRuncFilter firlib_plain [1; 2; 3] (Some (UFloat (1 / 10))) [1 / 2; 1 / 2] None 0 None
      "corr" = Returns (x, ux).
Proof. eexists. eexists. reflexivity. Qed.

Lemma FIRuncFilter_output_shape_witness :
  exists x ux,
    "corr"%string <> "diag"%string
    /\ @FIRuncFilter firlib_plain [1; 2; 3] (Some (UFloat (1 / 10))) [1 / 2; 1 / 2] None 0
         None "corr" = Returns (x, ux)
    /\ length ux = length [1; 2; 3] /\ Forall (fun u => 0 <= u) ux.
Proof.
  destruct FIRuncFilter_average_returns as [x [ux Hcall]]. exists x, ux.
  split; [discriminate |]. split; [exact Hcall |].
  apply (@FIRuncFilter_output_shape firlib_plain [1; 2; 3] (Some (UFloat (1 / 10)))
           [1 / 2; 1 / 2] None 0 None "corr"%string x ux); [discriminate | exact Hcall].
Defined.

End FIRWitnesses.

